(** * Heuristic authorship obfuscation: n-gram profiles, diff-strings,
      the OPEN list and the h(n) cost function

    A shallow embedding of the C++ sources

      - [obfuscation/util/NgramProfile.{hpp,cpp}]
      - [obfuscation/util/DiffString.{hpp,cpp}]
      - [obfuscation/operators/ObfuscationOperator.cpp]
      - [search-generic/search/generic/{Node,OpenList,ClosedList,AstarSearch}.hpp]
      - [obfuscation/{State,ComputeCostH}.cpp], [obfuscation/GoalCheck.hpp]
      - [obfuscation/util/dekker.hpp]

    Conventions.  [std::size_t] is the 64-bit unsigned type: a [Z] reduced
    modulo [2^64] after every arithmetic step.  [std::uint32_t] n-gram keys
    are [Z].  A [std::string] is a [list ascii].  [double] is Rocq's
    primitive binary64 [float]; the [float] members of a search node are
    binary32 values of [spec_float].  A [std::map] is a [gmap]; walking it
    from [begin()] to [end()] visits the keys in ascending order.  A
    [std::shared_ptr] is an index into an explicit store.  An [assert] that
    fails, an exception and a dereferenced null pointer all end the
    computation: such functions return [option], and [NDEBUG] says whether
    the assertions are compiled out. *)

From Stdlib Require Import ZArith List Ascii String Floats Lia Bool Permutation.
From stdpp Require Import gmap list sorting.

Set Warnings "-inexact-float".

Local Open Scope Z_scope.

(** ** Common definitions *)

(** [assert(c)]: passes when [c] holds or when assertions are compiled out. *)
Definition assert_ok (NDEBUG c : bool) : bool := NDEBUG || c.

(** Reduction of a mathematical integer to [std::size_t]. *)
Definition size_t_max : Z := 2 ^ 64.
Definition to_size_t (z : Z) : Z := z mod size_t_max.

Definition byte_of (c : ascii) : Z := Z.of_N (N_of_ascii c).
Definition chars (s : string) : list ascii := list_ascii_of_string s.

Definition NUL : ascii := Ascii.zero.
Definition LF : ascii := ascii_of_nat 10.
Definition SPACE : ascii := ascii_of_nat 32.

(** [std::copy(src.begin(), src.end(), dst.begin())]: the source overwrites
    the front of the destination buffer. *)
Definition std_copy {A} (src dst : list A) : list A :=
  src ++ drop (length src) dst.

(** [std::replace(first, last, old, new)]. *)
Definition std_replace (old new : ascii) (buf : list ascii) : list ascii :=
  List.map (fun c => if Ascii.eqb c old then new else c) buf.

(** The half-open range [[b, e)] of a string. *)
Definition range {A} (b e : nat) (s : list A) : list A := take (e - b) (drop b s).

(** ** [std::map<Ngram, std::size_t>] *)

Definition key_le : relation (Z * Z) := fun a b => a.1 <= b.1.

Global Instance key_le_dec : RelDecision key_le.
Proof. intros a b; unfold key_le; apply _. Defined.

Global Instance key_le_trans : Transitive key_le.
Proof. intros a b c; unfold key_le; lia. Qed.

Global Instance key_le_total : Total key_le.
Proof. intros a b; unfold key_le; lia. Qed.

(** The (key, value) pairs of a map in iteration order. *)
Definition entries (m : gmap Z Z) : list (Z * Z) :=
  merge_sort key_le (map_to_list m).

(** [m[k] += d] on a map of [std::size_t]: a missing key is first inserted
    with value 0; the sum wraps. *)
Definition map_add (m : gmap Z Z) (k d : Z) : gmap Z Z :=
  <[k := to_size_t (default 0 (m !! k) + d)]> m.

(** [std::unordered_map::insert]: an entry that is there is kept. *)
Definition map_insert {V} (m : gmap string V) (k : string) (v : V) : gmap string V :=
  match m !! k with Some _ => m | None => <[k := v]> m end.

(** ** n-gram profiles ([util/NgramProfile]) *)

Module NgramProfile.

Definition ORDER : nat := 3.
Definition SKIP_NORMALIZATION : Z := 2.
Definition STRIP_POS_ANNOTATIONS : Z := 4.
Definition Ngram_max : Z := 2 ^ 32 - 1.

(** [char2Ngram]: the four bytes of the buffer read as a [std::uint32_t]
    (little-endian byte order). *)
Definition char2Ngram (ngramBuf : list ascii) : Z :=
  foldr (fun c acc => byte_of c + 256 * acc) 0 (take 4 ngramBuf).

(** [ngram2Char]: the bytes of an n-gram, lowest first. *)
Definition ngram2Char (ngram : Z) : list ascii :=
  List.map (fun i => ascii_of_N (Z.to_N ((ngram / 256 ^ Z.of_nat i) mod 256))) (seq 0 4).

(** [ngramFromStringRange]: a zeroed four-byte buffer receives the range,
    newlines become spaces, and the buffer is read as an n-gram. *)
Definition ngramFromStringRange (rng : list ascii) : Z :=
  let charBuffer := repeat NUL 4 in
  let charBuffer := std_copy rng charBuffer in
  let charBuffer := std_replace LF SPACE charBuffer in
  char2Ngram charBuffer.

(** [ngramsFromStringRange]: one n-gram per window of [ORDER] characters,
    nothing when the range is shorter than [ORDER]. *)
Definition ngramsFromStringRange (rng : list ascii) : list Z :=
  if (length rng <? ORDER)%nat then []
  else List.map (fun it => ngramFromStringRange (range it (it + ORDER) rng))
                (seq 0 (length rng - (ORDER - 1))).

(** The store of base maps that [std::shared_ptr<NgramMap>] points into. *)
Abbreviation Heap := (list (gmap Z Z)).

Definition make_shared (h : Heap) (m : gmap Z Z) : Heap * nat :=
  (h ++ [m], length h).

Record t : Type := mk {
  m_n : Z;
  m_size : Z;
  m_ngrams : option nat;
  m_updates : gmap Z Z;
  m_lastNgramUpdates : list (Z * Z)
}.

(** [NgramProfile() = default]. *)
Definition empty : t :=
  {| m_n := 0; m_size := 0; m_ngrams := None; m_updates := ∅;
     m_lastNgramUpdates := [] |}.

(** [*m_ngrams]; a null pointer has no target. *)
Definition base (h : Heap) (p : t) : option (gmap Z Z) :=
  ptr ← m_ngrams p; h !! ptr.

Definition n (p : t) : Z := m_n p.
Definition size (p : t) : Z := m_size p.
Definition logSize (p : t) : Z := Z.of_nat (stdpp.base.size (m_updates p)).
Definition lastUpdates (p : t) : list (Z * Z) := m_lastNgramUpdates p.

Definition freq (h : Heap) (p : t) (ngram : Z) : option Z :=
  match m_updates p !! ngram with
  | Some v => Some v
  | None => b ← base h p; Some (default 0 (b !! ngram))
  end.

Definition clone (p : t) : t :=
  {| m_n := m_n p; m_size := m_size p; m_ngrams := m_ngrams p;
     m_updates := m_updates p; m_lastNgramUpdates := [] |}.

(** [apply]: the base map is copied into a fresh map, the pending entries
    are folded into the copy in key order, and the pending map is cleared. *)
Definition apply_entry (m : gmap Z Z) (ngramPair : Z * Z) : gmap Z Z :=
  if ngramPair.2 =? 0 then delete ngramPair.1 m else <[ngramPair.1 := ngramPair.2]> m.

Definition apply (h : Heap) (p : t) : option (Heap * t) :=
  tmp ← base h p;
  let '(h', ptr) := make_shared h (foldl apply_entry tmp (entries (m_updates p))) in
  Some (h', {| m_n := m_n p; m_size := m_size p; m_ngrams := Some ptr;
               m_updates := ∅; m_lastNgramUpdates := m_lastNgramUpdates p |}).

Section Build.
Variable NDEBUG : bool.

(** One round of the loop of [update], on the map [b] that [m_ngrams]
    points to. *)
Definition update_step (b : gmap Z Z) (p : t) (update : Z * Z) : option t :=
  let ngramPos := b !! update.1 in
  let updates :=
    match ngramPos, m_updates p !! update.1 with
    | Some v, None => <[update.1 := v]> (m_updates p)
    | _, _ => m_updates p
    end in
  let updates := map_add updates update.1 update.2 in
  let updateVal := default 0 (updates !! update.1) in
  if negb (assert_ok NDEBUG (0 <=? updateVal)) then None else
  sz ← match ngramPos with
       | None => if negb (updateVal =? 0) then Some (to_size_t (m_size p + 1))
                 else Some (m_size p)
       | Some _ => if updateVal =? 0
                   then (if assert_ok NDEBUG (0 <? m_size p)
                         then Some (to_size_t (m_size p - 1)) else None)
                   else Some (m_size p)
       end;
  Some {| m_n := to_size_t (m_n p + update.2); m_size := sz;
          m_ngrams := m_ngrams p; m_updates := updates;
          m_lastNgramUpdates := m_lastNgramUpdates p ++ [update] |}.

(** The loop of [update]: every round dereferences [m_ngrams]; no round,
    no dereference. *)
Fixpoint update_loop (h : Heap) (p : t) (updates : list (Z * Z)) : option t :=
  match updates with
  | [] => Some p
  | u :: rest => b ← base h p; p' ← update_step b p u; update_loop h p' rest
  end.

Definition update (h : Heap) (p : t) (updates : list (Z * Z)) : option (Heap * t) :=
  let p := {| m_n := m_n p; m_size := m_size p; m_ngrams := m_ngrams p;
              m_updates := m_updates p; m_lastNgramUpdates := [] |} in
  p ← update_loop h p updates;
  if negb (assert_ok NDEBUG (0 <=? m_n p)) then None else
  if negb (assert_ok NDEBUG (0 <=? m_size p)) then None else
  if 150 <? logSize p then apply h p else Some (h, p).

Definition updateFromStringRange (h : Heap) (p : t) (old new : list ascii)
  : option (Heap * t) :=
  let oldNgrams := ngramsFromStringRange old in
  let newNgrams := ngramsFromStringRange new in
  let updates := List.map (fun ngram => (ngram, -1)) oldNgrams in
  let updates := updates ++ List.map (fun ngram => (ngram, 1)) newNgrams in
  update h p updates.

End Build.

Definition clearRecentUpdates (p : t) : t :=
  {| m_n := m_n p; m_size := m_size p; m_ngrams := m_ngrams p;
     m_updates := m_updates p; m_lastNgramUpdates := [] |}.

(** [generateFromString].  The regular-expression passes [normalizeText]
    and [stripPosAnnotationsFromText] belong to Boost and are parameters.
    The result holds the store, the profile, the text as left in place and
    the returned flag. *)
Section Generate.
Variable normalizeText : list ascii -> list ascii.
Variable stripPosAnnotationsFromText : list ascii -> list ascii.

Definition generate_step (text : list ascii)
    (st : gmap Z Z * Z * list ascii) (it : nat) : gmap Z Z * Z * list ascii :=
  let '(ngrams, cnt, ngramBuffer) := st in
  let ngramBuffer := std_copy (range it (it + ORDER) text) ngramBuffer in
  let ngram := char2Ngram ngramBuffer in
  (map_add ngrams ngram 1, to_size_t (cnt + 1), ngramBuffer).

(** The text after the optional passes at the head of [generateFromString]. *)
Definition prepared (text : list ascii) (flags : Z) : list ascii :=
  let text := if negb (Z.land flags STRIP_POS_ANNOTATIONS =? 0)
              then stripPosAnnotationsFromText text else text in
  if Z.land flags SKIP_NORMALIZATION =? 0 then normalizeText text else text.

Definition generateFromString (h : Heap) (p : t) (text : list ascii) (flags : Z)
  : Heap * t * list ascii * bool :=
  let text := prepared text flags in
  if (length text <? ORDER)%nat then (h, p, text, false) else
  let '(ngrams, cnt, _) :=
    foldl (generate_step text) (∅, 0, repeat NUL 4)
          (seq 0 (length text - (ORDER - 1))) in
  let '(h', ptr) := make_shared h ngrams in
  (h', {| m_n := cnt; m_size := Z.of_nat (stdpp.base.size ngrams);
          m_ngrams := Some ptr; m_updates := ∅; m_lastNgramUpdates := [] |},
   text, true).

End Generate.

(** *** [NgramProfile::Iterator]

    Each of the two cursors is the list of entries it has still to visit;
    the empty list is the end of its map. *)
Module Iterator.

Record t : Type := mk { ngramsIt : list (Z * Z); updatesIt : list (Z * Z) }.

Definition at_end (l : list (Z * Z)) : bool :=
  match l with [] => true | _ => false end.

Definition first_or_max (l : list (Z * Z)) : Z :=
  match l with x :: _ => x.1 | [] => Ngram_max end.

(** [operator==] against another iterator over the same two maps. *)
Definition eqb (a b : t) : bool :=
  (length (ngramsIt a) =? length (ngramsIt b))%nat
  && (length (updatesIt a) =? length (updatesIt b))%nat.

(** The body of the [do ... while] of [operator++]. *)
Definition advance (it : t) : t :=
  let ngramsVal := first_or_max (ngramsIt it) in
  let updatesVal := first_or_max (updatesIt it) in
  let ngramsIt' :=
    if negb (at_end (ngramsIt it))
       && ((ngramsVal <=? updatesVal) || at_end (updatesIt it))
    then tail (ngramsIt it) else ngramsIt it in
  let updatesIt' :=
    if negb (at_end (updatesIt it))
       && ((updatesVal <=? ngramsVal) || at_end ngramsIt')
    then tail (updatesIt it) else updatesIt it in
  {| ngramsIt := ngramsIt'; updatesIt := updatesIt' |}.

(** The loop condition of [operator++]. *)
Definition again (it : t) : bool :=
  match ngramsIt it, updatesIt it with
  | ng :: _, up :: _ => (up.1 =? ng.1) && (up.2 =? 0)
  | _, _ => false
  end.

Fixpoint incr_loop (fuel : nat) (it : t) : t :=
  let it' := advance it in
  match fuel with
  | O => it'
  | S fuel' => if again it' then incr_loop fuel' it' else it'
  end.

(** [operator++]. *)
Definition incr (it : t) : t :=
  incr_loop (length (ngramsIt it) + length (updatesIt it)) it.

(** The number of entries the two cursors have still to visit. *)
Definition remaining (it : t) : nat :=
  (length (ngramsIt it) + length (updatesIt it))%nat.

(** The dereference operator.  With the base cursor at its end the pending entry is
    returned; with both cursors at their end the assertion fails. *)
Definition deref (it : t) : option (Z * Z) :=
  match updatesIt it, ngramsIt it with
  | up :: _, ng :: _ => if up.1 <=? ng.1 then Some up else Some ng
  | up :: _, [] => Some up
  | [], ng :: _ => Some ng
  | [], [] => None
  end.

End Iterator.

Definition cbegin (h : Heap) (p : t) : option Iterator.t :=
  b ← base h p;
  Some {| Iterator.ngramsIt := entries b; Iterator.updatesIt := entries (m_updates p) |}.

Definition cend : Iterator.t :=
  {| Iterator.ngramsIt := []; Iterator.updatesIt := [] |}.

(** The range-based [for] loop over a profile, from [cbegin()] to [cend()]:
    the pairs it visits. *)
Fixpoint iterate_loop (fuel : nat) (it : Iterator.t) : option (list (Z * Z)) :=
  if Iterator.eqb it cend then Some [] else
  match fuel with
  | O => None
  | S fuel' =>
      x ← Iterator.deref it;
      rest ← iterate_loop fuel' (Iterator.incr it);
      Some (x :: rest)
  end.

Definition iterate (h : Heap) (p : t) : option (list (Z * Z)) :=
  it ← cbegin h p;
  iterate_loop (length (Iterator.ngramsIt it) + length (Iterator.updatesIt it)) it.

(** A sequence of mutating calls on one profile. *)
Inductive op : Type :=
| Update (updates : list (Z * Z))
| UpdateFromStringRange (old new : list ascii)
| Apply.

Definition run_op (NDEBUG : bool) (h : Heap) (p : t) (o : op) : option (Heap * t) :=
  match o with
  | Update updates => update NDEBUG h p updates
  | UpdateFromStringRange old new => updateFromStringRange NDEBUG h p old new
  | Apply => apply h p
  end.

Fixpoint run_ops (NDEBUG : bool) (h : Heap) (p : t) (ops : list op) : option (Heap * t) :=
  match ops with
  | [] => Some (h, p)
  | o :: rest => '(h', p') ← run_op NDEBUG h p o; run_ops NDEBUG h' p' rest
  end.

(** The effective count of every n-gram: the pending value where there is
    one, the base value elsewhere. *)
Definition effective (h : Heap) (p : t) : option (gmap Z Z) :=
  b ← base h p; Some (m_updates p ∪ b).

(** The number of distinct n-grams whose effective count is not zero. *)
Definition distinct_nonzero (h : Heap) (p : t) : option Z :=
  m ← effective h p;
  Some (Z.of_nat (stdpp.base.size (filter (fun kv => kv.2 <> 0) m))).

(** The count a map holds for an n-gram, zero when it holds none. *)
Definition count (m : gmap Z Z) (k : Z) : Z := default 0 (m !! k).

(** The deltas a call passes to [update]. *)
Definition deltas_of (o : op) : list (Z * Z) :=
  match o with
  | Update updates => updates
  | UpdateFromStringRange old new =>
      List.map (fun ngram => (ngram, -1)) (ngramsFromStringRange old)
      ++ List.map (fun ngram => (ngram, 1)) (ngramsFromStringRange new)
  | Apply => []
  end.

(** A profile whose base map is in the store and holds no zero count, as
    [generateFromString] and [apply] leave it. *)
Definition well_formed (h : Heap) (p : t) : Prop :=
  exists b, base h p = Some b /\ forall k, b !! k <> Some 0.

(** The plain map of the specification: every delta is added to the entry
    of its n-gram, one by one, and the map is read in key order without its
    zero entries. *)
Definition plain_update (m : gmap Z Z) (deltas : list (Z * Z)) : gmap Z Z :=
  foldl (fun m u => map_add m u.1 u.2) m deltas.

Definition nonzero_entries (m : gmap Z Z) : list (Z * Z) :=
  filter (fun kv => kv.2 <> 0) (entries m).

(** In step with a plain map: same store entry, no zero count in the base
    map, and the same count for every n-gram. *)
Definition in_step (h : Heap) (p : t) (m : gmap Z Z) : Prop :=
  exists b, base h p = Some b /\ (forall k, b !! k <> Some 0)
            /\ forall k, count (m_updates p ∪ b) k = count m k.

(** The windows of [ORDER] characters of a text, packed with newlines
    turned into spaces, and the profile entries of a list of n-grams. *)
Definition windows (text : list ascii) : list Z := ngramsFromStringRange text.

Definition count_all (ngrams : list Z) : gmap Z Z :=
  foldl (fun m g => map_add m g 1) ∅ ngrams.

(** [save] and [load].  Boost's text archive is not part of the
    repository: the content of the file is a [File], [text_oarchive] is
    [archive << m_n << *m_ngrams] and [text_iarchive] is
    [archive >> m_n >> *m_ngrams]. *)
Section Serialization.
Variable File : Type.
Variable text_oarchive : Z * gmap Z Z -> File.
Variable text_iarchive : File -> Z * gmap Z Z.

(** [save]: the total and the map of a clone on which [apply] was called
    are streamed to the file. *)
Definition save (h : Heap) (p : t) : option File :=
  '(h', copy) ← apply h (clone p);
  ngrams ← base h' copy;
  Some (text_oarchive (m_n copy, ngrams)).

(** [load]: every member is overwritten; the total and the map are the
    values streamed back from the file. *)
Definition load (h : Heap) (file : File) : Heap * t :=
  let archive := text_iarchive file in
  let '(h', ptr) := make_shared h archive.2 in
  (h', {| m_n := archive.1; m_size := Z.of_nat (stdpp.base.size archive.2);
          m_ngrams := Some ptr; m_updates := ∅; m_lastNgramUpdates := [] |}).

End Serialization.

(** The sum of the counts of a map, and of the deltas of a list of updates. *)
Definition total (m : gmap Z Z) : Z := map_fold (fun _ v acc => v + acc) 0 m.

Definition sum_deltas (updates : list (Z * Z)) : Z :=
  foldr (fun u acc => u.2 + acc) 0 updates.

End NgramProfile.

(** ** Diff-strings ([util/DiffString]) *)

Module DiffString.

(** [struct Edit], with the constructor's conversions to [std::uint32_t]
    and [std::uint8_t]. *)
Record Edit : Type := mkEdit {
  editPos : Z;
  charsToDelete : Z;
  insertion : list ascii
}.

Definition Edit_ctor (editPos charsToDelete : Z) (insertion : list ascii) : Edit :=
  mkEdit (editPos mod 2 ^ 32) (charsToDelete mod 2 ^ 8) insertion.

(** No operation of the class writes through [m_sourceString]; the source
    is held by value. *)
Record t : Type := mk {
  m_sourceString : list ascii;
  m_edits : list Edit;
  m_hashValue : list ascii
}.

Definition MD5_DIGEST_LENGTH : nat := 16.

Section WithMD5.
(** OpenSSL's [MD5(data, len, out)]: the digest written to [out]. *)
Variable MD5 : list ascii -> list ascii.
Variable NDEBUG : bool.

(** [updateHash]: a buffer of [MD5_DIGEST_LENGTH] zero bytes receives the
    digest. *)
Definition updateHash (text : list ascii) : list ascii :=
  std_copy (MD5 text) (repeat NUL MD5_DIGEST_LENGTH).

Definition hashValue (d : t) : list ascii := m_hashValue d.

(** One round of the loop of [string()]: the assertion, then [erase] and
    [insert], which throw [std::out_of_range] past the end of the string;
    [erase] removes at most the characters that are there.  The sum in the
    assertion is computed in 32 bits. *)
Definition apply_edit (edited : list ascii) (edit : Edit) : option (list ascii) :=
  let len := Z.of_nat (length edited) in
  if negb (assert_ok NDEBUG
             ((editPos edit <? len)
              && ((editPos edit + charsToDelete edit) mod 2 ^ 32 <=? len)))
  then None
  else if len <? editPos edit then None
  else
    let pos := Z.to_nat (editPos edit) in
    let erased := take pos edited ++ drop (pos + Z.to_nat (charsToDelete edit)) edited in
    Some (take pos erased ++ insertion edit ++ drop pos erased).

Fixpoint apply_edits (edited : list ascii) (edits : list Edit) : option (list ascii) :=
  match edits with
  | [] => Some edited
  | edit :: rest => edited' ← apply_edit edited edit; apply_edits edited' rest
  end.

Definition string (d : t) : option (list ascii) :=
  apply_edits (m_sourceString d) (m_edits d).

Definition source (d : t) : list ascii := m_sourceString d.
Definition logSize (d : t) : Z := Z.of_nat (length (m_edits d)).

Definition reset (newString : list ascii) : t :=
  {| m_sourceString := newString; m_edits := []; m_hashValue := updateHash newString |}.

(** [DiffString(std::shared_ptr<std::string>)] and [DiffString(std::string const&)]. *)
Definition ctor_shared (originalString : list ascii) : t :=
  {| m_sourceString := originalString; m_edits := [];
     m_hashValue := updateHash originalString |}.
Definition ctor (s : list ascii) : t := reset s.

(** [edit(Edit const&)]. *)
Definition edit (d : t) (e : Edit) : option t :=
  let d' := {| m_sourceString := m_sourceString d; m_edits := m_edits d ++ [e];
               m_hashValue := m_hashValue d |} in
  text ← string d';
  Some {| m_sourceString := m_sourceString d'; m_edits := m_edits d';
          m_hashValue := updateHash text |}.

(** [edit(Edit const&, std::string const& text)]. *)
Definition edit_with_text (d : t) (e : Edit) (text : list ascii) : t :=
  {| m_sourceString := m_sourceString d; m_edits := m_edits d ++ [e];
     m_hashValue := updateHash text |}.

Definition apply (d : t) : option t :=
  text ← string d;
  Some {| m_sourceString := text; m_edits := []; m_hashValue := m_hashValue d |}.

(** [operator==]. *)
Definition eqb (a b : t) : option bool :=
  x ← string a; y ← string b; Some (bool_decide (x = y)).



(** The operations that keep the hash from the materialized text. *)
Inductive op : Type :=
| OpReset (newString : list ascii)
| OpEdit (e : Edit)
| OpApply.

Definition run_op (d : t) (o : op) : option t :=
  match o with
  | OpReset s => Some (reset s)
  | OpEdit e => edit d e
  | OpApply => apply d
  end.

Fixpoint run_ops (d : t) (ops : list op) : option t :=
  match ops with
  | [] => Some d
  | o :: rest => d' ← run_op d o; run_ops d' rest
  end.

End WithMD5.

(** Whether a call is [apply()]. *)
Definition is_apply (o : op) : bool :=
  match o with OpApply => true | _ => false end.

End DiffString.

(** ** Search states ([State]) *)

Module State.

Record MetaData : Type := { jsd : option float }.

Record t : Type := mk {
  m_text : DiffString.t;
  m_ngramProfile : NgramProfile.t;
  m_mutableMetaData : MetaData
}.

Definition text (s : t) : DiffString.t := m_text s.
Definition ngramProfile (s : t) : NgramProfile.t := m_ngramProfile s.
Definition mutableMetaData (s : t) : MetaData := m_mutableMetaData s.
Definition hashValue (s : t) : list ascii := DiffString.m_hashValue (m_text s).

(** [setNgramProfile(DiffString&&, Context::NgramPtr)]. *)
Definition setNgramProfile (s : t) (text : DiffString.t) (profile : NgramProfile.t) : t :=
  {| m_text := text; m_ngramProfile := profile;
     m_mutableMetaData := m_mutableMetaData s |}.

Section WithText.
Variable MD5 : list ascii -> list ascii.
Variable NDEBUG : bool.
Variable normalizeText : list ascii -> list ascii.
Variable stripPosAnnotationsFromText : list ascii -> list ascii.

(** [operator==]. *)
Definition eqb (a b : t) : option bool := DiffString.eqb NDEBUG (m_text a) (m_text b).

(** [setText].  The diff-string is built over the string that [text] points
    to and takes its hash from it; [generateFromString] then rewrites that
    same string in place. *)
Definition setText (h : NgramProfile.Heap) (s : t) (text : list ascii) (flags : Z)
  : NgramProfile.Heap * t :=
  let diffStr := DiffString.ctor_shared MD5 text in
  let '(h', profile, text, _) :=
    NgramProfile.generateFromString normalizeText stripPosAnnotationsFromText
      h (m_ngramProfile s) text flags in
  let diffStr := {| DiffString.m_sourceString := text;
                    DiffString.m_edits := DiffString.m_edits diffStr;
                    DiffString.m_hashValue := DiffString.m_hashValue diffStr |} in
  (h', {| m_text := diffStr; m_ngramProfile := profile;
          m_mutableMetaData := m_mutableMetaData s |}).

End WithText.

End State.

(** ** The operator framework ([operators/ObfuscationOperator]) *)

Module ObfuscationOperator.

Definition ORDER : nat := NgramProfile.ORDER.

Record FocusPoint : Type := { ngramOffset : Z; text : list ascii }.

(** [std::string::find(needle)]: the first position where [needle] occurs. *)
Fixpoint find (hay needle : list ascii) : option nat :=
  if bool_decide (needle `prefix_of` hay) then Some O
  else match hay with
       | [] => None
       | _ :: hay' => S <$> find hay' needle
       end.

(** [needle] occurs somewhere in [hay]. *)
Definition occurs_in (needle hay : list ascii) : Prop :=
  exists pre post, hay = pre ++ needle ++ post.

(** The focus n-gram, the text of the successor, and the window of that
    text from [ORDER] characters before the edit to [ORDER] characters
    after the inserted replacement. *)
Definition focus_ngram (focusPoint : FocusPoint) : list ascii :=
  range (Z.to_nat (ngramOffset focusPoint))
        (Z.to_nat (ngramOffset focusPoint) + ORDER) (text focusPoint).

Definition successor_text (text : list ascii) (editStart editEnd : nat)
    (update : list ascii) : list ascii :=
  take editStart text ++ update ++ drop editEnd text.

Definition successor_window (text : list ascii) (editStart editEnd : nat)
    (update : list ascii) : list ascii :=
  let newText := successor_text text editStart editEnd update in
  range (editStart - ORDER) (Nat.min (editStart + length update + ORDER) (length newText))
        newText.


Section WithMD5.
Variable MD5 : list ascii -> list ascii.
Variable NDEBUG : bool.

(** [updateSuccessor].  String positions are offsets into [focusPoint.text]. *)
Definition updateSuccessor (h : NgramProfile.Heap) (origState successor : State.t)
    (focusPoint : FocusPoint) (editStart editEnd : nat) (update : list ascii)
  : option (NgramProfile.Heap * State.t * bool) :=
  let text := text focusPoint in
  let focusPos := Z.to_nat (ngramOffset focusPoint) in
  let origNgram := range focusPos (focusPos + ORDER) text in
  let newText := take editStart text ++ update ++ drop editEnd text in
  let newTextPos := editStart in
  let newBegin := Nat.max (newTextPos - ORDER) 0 in
  let newEnd := Nat.min (newTextPos + length update + ORDER) (length newText) in
  if bool_decide (find (range newBegin newEnd newText) origNgram <> None)
  then Some (h, successor, false)
  else
    let oldBegin := Nat.max (editStart - ORDER) 0 in
    let oldEnd := Nat.min (editEnd + ORDER) (length text) in
    let newProfile := NgramProfile.clone (State.ngramProfile origState) in
    '(h', newProfile) ← NgramProfile.updateFromStringRange NDEBUG h newProfile
                          (range oldBegin oldEnd text) (range newBegin newEnd newText);
    let newDiff := State.text origState in
    let newDiff := DiffString.edit_with_text MD5 newDiff
                     (DiffString.Edit_ctor (Z.of_nat oldBegin)
                                           (Z.of_nat oldEnd - Z.of_nat oldBegin)
                                           (range newBegin newEnd newText))
                     newText in
    Some (h', State.setNgramProfile successor newDiff newProfile, true).

End WithMD5.

(** [std::string::find(needle, pos)]. *)
Definition find_from (hay needle : list ascii) (pos : nat) : option nat :=
  if (length hay <? pos)%nat then None
  else (fun strPos => pos + strPos)%nat <$> find (drop pos hay) needle.

(** The loop of [getCachedNgramSelection] that collects the positions of an
    n-gram in the text, before they are shuffled. *)
Fixpoint candidates_loop (fuel : nat) (sourceText ngramStr : list ascii) (lastPos : nat)
    (candidates : list nat) : option (list nat) :=
  match fuel with
  | O => None
  | S fuel' =>
      match find_from sourceText ngramStr lastPos with
      | Some strPos =>
          candidates_loop fuel' sourceText ngramStr (strPos + 1) (candidates ++ [strPos])
      | None => Some candidates
      end
  end.

Definition candidates (sourceText : list ascii) (ngram : Z) : option (list nat) :=
  let ngramStr := take ORDER (NgramProfile.ngram2Char ngram) in
  candidates_loop (length sourceText + 1) sourceText ngramStr 0 [].

End ObfuscationOperator.

(** ** Search nodes ([search/generic/Node.hpp]) *)

Module Node.

(** The [float] type of the cost members: IEEE binary32. *)
Definition float32_add : spec_float -> spec_float -> spec_float := SFadd 24 128.

Record t (State : Type) : Type := mk {
  state_ : State;
  costG_ : spec_float;
  costH_ : spec_float;
  opcode_ : Z;
  parent_ : option nat
}.
Arguments mk {State}.
Arguments state_ {State}.
Arguments costG_ {State}.
Arguments costH_ {State}.
Arguments opcode_ {State}.
Arguments parent_ {State}.

Definition state {State} (n : t State) : State := state_ n.
Definition costG {State} (n : t State) : spec_float := costG_ n.
Definition costH {State} (n : t State) : spec_float := costH_ n.
Definition costF {State} (n : t State) : spec_float := float32_add (costG n) (costH n).

Definition setCostH {State} (n : t State) (cost : spec_float) : t State :=
  mk (state_ n) (costG_ n) cost (opcode_ n) (parent_ n).

Section WithState.
Context {State : Type}.

(** [Node(state)]: a node without a parent. *)
Definition ctor_root (state : State) : t State :=
  mk state (S754_zero false) (S754_zero false) 0 None.

(** [Node(state, parent, opcode, opcost)]; the operator code is a
    [std::uint8_t]. *)
Definition ctor (σ : list (t State)) (state : State) (parent : nat) (opcode : Z)
    (opcost : spec_float) : option (t State) :=
  p ← σ !! parent;
  Some (mk state (float32_add (costG p) opcost) (S754_zero false) (opcode mod 2 ^ 8)
          (Some parent)).

(** The loop of [depth()], which follows the parent pointers. *)
Fixpoint depth_loop (fuel : nat) (σ : list (t State)) (parent : option nat) (depth : Z)
  : option Z :=
  match parent with
  | None => Some depth
  | Some p =>
      match fuel with
      | O => None
      | S fuel' =>
          node ← σ !! p; depth_loop fuel' σ (parent_ node) (to_size_t (depth + 1))
      end
  end.

Definition depth (σ : list (t State)) (n : t State) : option Z :=
  depth_loop (length σ) σ (parent_ n) 0.

(** The loop of [getOpcodesStartingFromRoot()]. *)
Fixpoint opcodes_loop (fuel : nat) (σ : list (t State)) (parent : option nat)
    (opcodes : list Z) : option (list Z) :=
  match parent with
  | None => Some opcodes
  | Some p =>
      match fuel with
      | O => None
      | S fuel' =>
          node ← σ !! p; opcodes_loop fuel' σ (parent_ node) (opcodes ++ [opcode_ node])
      end
  end.

Definition getOpcodesStartingFromRoot (σ : list (t State)) (n : t State)
  : option (list Z) :=
  opcodes ← opcodes_loop (length σ) σ (parent_ n) [opcode_ n];
  Some (reverse (removelast opcodes)).

(** Every parent pointer leads to a node that was made earlier. *)
Definition parents_first (σ : list (t State)) : Prop :=
  forall i n p, σ !! i = Some n -> parent_ n = Some p -> (p < i)%nat.

(** The path of a node: the nodes from the root down to its parent. *)
Fixpoint ancestors (fuel : nat) (σ : list (t State)) (parent : option nat)
  : list (t State) :=
  match parent, fuel with
  | Some p, S fuel' =>
      match σ !! p with
      | Some node => ancestors fuel' σ (parent_ node) ++ [node]
      | None => []
      end
  | _, _ => []
  end.

End WithState.

End Node.

(** ** The OPEN list ([search/generic/OpenList.hpp]) *)

Module OpenList.

(** [std::is_heap]: no element is ordered before its parent's position by
    [comp], the parent of position [i] being position [(i - 1) / 2]. *)
Definition is_heap {A} (comp : A -> A -> bool) (v : list A) : Prop :=
  forall (i : nat) (x y : A),
    (0 < i)%nat -> v !! i = Some x -> v !! ((i - 1) / 2)%nat = Some y ->
    comp y x = false.

(** A comparison that is a strict weak ordering of the elements that
    satisfy [ok]: asymmetric, and with a transitive complement. *)
Definition strict_weak_on {A} (comp : A -> A -> bool) (ok : A -> Prop) : Prop :=
  (forall x y, ok x -> ok y -> comp x y = true -> comp y x = false)
  /\ (forall x y z, ok x -> ok y -> ok z ->
        comp x y = false -> comp y z = false -> comp x z = false).

(** What the C++ standard requires of [std::push_heap], [std::pop_heap] and
    [std::make_heap]: given a heap followed by one more element,
    [push_heap] leaves a heap of the same elements; [pop_heap] moves the
    first element of a heap to the back and leaves a heap of the others
    before it; [make_heap] rearranges any sequence into a heap. *)
Record heap_algorithms
    (push_heap pop_heap make_heap : forall A : Type, (A -> A -> bool) -> list A -> list A)
  : Prop := {
  push_heap_spec :
    forall A (comp : A -> A -> bool) (ok : A -> Prop) (v : list A) (x : A),
      strict_weak_on comp ok -> Forall ok (v ++ [x]) -> is_heap comp v ->
      is_heap comp (push_heap A comp (v ++ [x]))
      /\ push_heap A comp (v ++ [x]) ≡ₚ v ++ [x];
  pop_heap_spec :
    forall A (comp : A -> A -> bool) (ok : A -> Prop) (top : A) (v : list A),
      strict_weak_on comp ok -> Forall ok (top :: v) -> is_heap comp (top :: v) ->
      exists w, pop_heap A comp (top :: v) = w ++ [top]
                /\ is_heap comp w /\ w ≡ₚ v;
  make_heap_spec :
    forall A (comp : A -> A -> bool) (ok : A -> Prop) (v : list A),
      strict_weak_on comp ok -> Forall ok v ->
      is_heap comp (make_heap A comp v) /\ make_heap A comp v ≡ₚ v
}.

(** One way to meet these requirements: keep the sequence sorted. *)
Fixpoint sorted_insert {A} (comp : A -> A -> bool) (x : A) (v : list A) : list A :=
  match v with
  | [] => [x]
  | y :: v' => if comp x y then y :: sorted_insert comp x v' else x :: v
  end.

Definition sorting_make_heap (A : Type) (comp : A -> A -> bool) (v : list A) : list A :=
  foldr (sorted_insert comp) [] v.

Definition sorting_push_heap (A : Type) (comp : A -> A -> bool) (v : list A) : list A :=
  sorting_make_heap A comp v.

Definition sorting_pop_heap (A : Type) (comp : A -> A -> bool) (v : list A) : list A :=
  match v with
  | [] => []
  | top :: rest => sorting_make_heap A comp rest ++ [top]
  end.

Section WithState.
Variable State : Type.
Variable compute_hash_ : State -> string.

(** The heap algorithms of the C++ standard library, for any element type
    and comparison. *)
Variable push_heap : forall A : Type, (A -> A -> bool) -> list A -> list A.
Variable pop_heap : forall A : Type, (A -> A -> bool) -> list A -> list A.
Variable make_heap : forall A : Type, (A -> A -> bool) -> list A -> list A.

(** The node objects that the shared pointers of the list point to. *)
Abbreviation Store := (list (Node.t State)).

Record t : Type := mk {
  nodes_heap_ : list nat;
  nodes_map_ : gmap string nat
}.

Definition empty_list : t := {| nodes_heap_ := []; nodes_map_ := ∅ |}.

(** [HigherCost], through the pointers. *)
Definition higher_cost_ (σ : Store) (lhs rhs : nat) : bool :=
  match σ !! lhs, σ !! rhs with
  | Some l, Some r => SFltb (Node.costF r) (Node.costF l)
  | _, _ => false
  end.

(** [pop], whose behaviour on an empty list is undefined. *)
Definition pop (σ : Store) (ol : t) : option (t * nat) :=
  if bool_decide (nodes_heap_ ol = []) then None else
  let heap := pop_heap nat (higher_cost_ σ) (nodes_heap_ ol) in
  popped_node ← last heap;
  node ← σ !! popped_node;
  Some ({| nodes_heap_ := removelast heap;
           nodes_map_ := delete (compute_hash_ (Node.state node)) (nodes_map_ ol) |},
        popped_node).

Definition pushOrUpdate (σ : Store) (ol : t) (node : nat) : option (Store * t * bool) :=
  n ← σ !! node;
  let hashcode := compute_hash_ (Node.state n) in
  match nodes_map_ ol !! hashcode with
  | None =>
      let heap := nodes_heap_ ol ++ [node] in
      Some (σ, {| nodes_heap_ := push_heap nat (higher_cost_ σ) heap;
                  nodes_map_ := <[hashcode := node]> (nodes_map_ ol) |}, true)
  | Some present =>
      p ← σ !! present;
      if SFltb (Node.costG n) (Node.costG p)
      then
        let σ' := <[present := n]> σ in
        Some (σ', {| nodes_heap_ := make_heap nat (higher_cost_ σ') (nodes_heap_ ol);
                     nodes_map_ := nodes_map_ ol |}, false)
      else Some (σ, ol, false)
  end.

(** The state hash of the node a pointer leads to. *)
Definition hash_at (σ : Store) (p : nat) : option string :=
  n ← σ !! p; Some (compute_hash_ (Node.state n)).

(** [costF] of the first node is at most [costF] of the second. *)
Definition costF_le (σ : Store) (v w : nat) : Prop :=
  exists nv nw, σ !! v = Some nv /\ σ !! w = Some nw
                /\ SFleb (Node.costF nv) (Node.costF nw) = true.

(** No node of the store has a NaN as its [costF]. *)
Definition costs_are_numbers (σ : Store) : Prop :=
  Forall (fun n => Node.costF n <> S754_nan) σ.

(** What holds of a list between calls: the vector is a heap of distinct,
    valid pointers, and the map sends each state hash to the pointer in the
    vector whose node has that hash. *)
Definition consistent (σ : Store) (ol : t) : Prop :=
  is_heap (higher_cost_ σ) (nodes_heap_ ol)
  /\ NoDup (nodes_heap_ ol)
  /\ Forall (fun p => is_Some (σ !! p)) (nodes_heap_ ol)
  /\ (forall k p, nodes_map_ ol !! k = Some p <->
                  p ∈ nodes_heap_ ol /\ hash_at σ p = Some k).

Definition contains (ol : t) (state : State) : bool :=
  bool_decide (is_Some (nodes_map_ ol !! compute_hash_ state)).

Definition size (ol : t) : nat := length (nodes_heap_ ol).
Definition empty (ol : t) : bool := bool_decide (nodes_map_ ol = ∅).

(** A sequence of calls on one list. *)
Inductive call : Type :=
| PushOrUpdate (node : nat)
| Pop.

(** What a call returned. *)
Inductive returned : Type :=
| Pushed (inserted : bool)
| Popped (node : nat).

Definition step (σ : Store) (ol : t) (c : call) : option (Store * t * returned) :=
  match c with
  | PushOrUpdate node =>
      '(σ', ol', b) ← pushOrUpdate σ ol node; Some (σ', ol', Pushed b)
  | Pop => '(ol', node) ← pop σ ol; Some (σ, ol', Popped node)
  end.

Fixpoint run (σ : Store) (ol : t) (cs : list call) : option (Store * t) :=
  match cs with
  | [] => Some (σ, ol)
  | c :: rest => '(σ', ol', _) ← step σ ol c; run σ' ol' rest
  end.

(** The loop of [clear(keepNodes)]. *)
Fixpoint clear_loop (keepNodes : nat) (σ : Store) (ol : t)
    (newHeap : list nat) (newMap : gmap string nat)
  : option (list nat * gmap string nat) :=
  match keepNodes with
  | O => Some (newHeap, newMap)
  | S keepNodes' =>
      '(ol', node) ← pop σ ol;
      n ← σ !! node;
      clear_loop keepNodes' σ ol' (newHeap ++ [node])
        (map_insert newMap (compute_hash_ (Node.state n)) node)
  end.

Definition clear (σ : Store) (ol : t) (keepNodes : nat) : option t :=
  if bool_decide (nodes_heap_ ol = []) then Some ol else
  '(newHeap, newMap) ← clear_loop keepNodes σ ol [] ∅;
  Some {| nodes_heap_ := make_heap nat (higher_cost_ σ) newHeap;
          nodes_map_ := newMap |}.

End WithState.
End OpenList.

(** ** The CLOSED list ([search/generic/ClosedList.hpp]) *)

Module ClosedList.
Section WithState.
Variable State : Type.
Variable compute_hash_ : State -> string.

Record t : Type := mk { nodes_ : gmap string nat }.

Definition empty_list : t := {| nodes_ := ∅ |}.

Definition put (σ : list (Node.t State)) (cl : t) (node : nat) : option (t * bool) :=
  n ← σ !! node;
  let hashcode := compute_hash_ (Node.state n) in
  Some ({| nodes_ := map_insert (nodes_ cl) hashcode node |},
        bool_decide (nodes_ cl !! hashcode = None)).

Definition pop (σ : list (Node.t State)) (cl : t) (node : nat) : option t :=
  n ← σ !! node;
  Some {| nodes_ := delete (compute_hash_ (Node.state n)) (nodes_ cl) |}.

(** [get]; a null pointer is [None]. *)
Definition get (cl : t) (state : State) : option nat :=
  nodes_ cl !! compute_hash_ state.

Definition contains (cl : t) (state : State) : bool :=
  bool_decide (is_Some (nodes_ cl !! compute_hash_ state)).

Definition size (cl : t) : nat := stdpp.base.size (nodes_ cl).
Definition empty (cl : t) : bool := bool_decide (nodes_ cl = ∅).
Definition clear (cl : t) : t := {| nodes_ := ∅ |}.

(** The [do ... while] of [clear(keepBegin, keepEnd)], from the parent of
    a node of the range up to the root. *)
Fixpoint keep_loop (fuel : nat) (σ : list (Node.t State)) (keepNode : option nat)
    (newMap : gmap string nat) : option (gmap string nat) :=
  match fuel with
  | O => None
  | S fuel' =>
      k ← keepNode;
      n ← σ !! k;
      let newMap := map_insert newMap (compute_hash_ (Node.state n)) k in
      match Node.parent_ n with
      | None => Some newMap
      | Some parent => keep_loop fuel' σ (Some parent) newMap
      end
  end.

Fixpoint clear_range_loop (σ : list (Node.t State)) (keep : list (option nat))
    (newMap : gmap string nat) : option (gmap string nat) :=
  match keep with
  | [] => Some newMap
  | None :: rest => clear_range_loop σ rest newMap
  | Some i :: rest =>
      n ← σ !! i;
      newMap ← keep_loop (length σ) σ (Node.parent_ n) newMap;
      clear_range_loop σ rest newMap
  end.

Definition clear_range (σ : list (Node.t State)) (cl : t) (keep : list (option nat))
  : option t :=
  newMap ← clear_range_loop σ keep ∅;
  Some {| nodes_ := newMap |}.

(** A run of [put] calls. *)
Fixpoint puts (σ : list (Node.t State)) (cl : t) (nodes : list nat) : option t :=
  match nodes with
  | [] => Some cl
  | node :: rest => '(cl', _) ← put σ cl node; puts σ cl' rest
  end.

End WithState.
End ClosedList.

(** ** The steps of the search ([search/generic/AstarSearch.hpp]) *)

Module AstarSearch.
Section WithState.
Variable State : Type.
Variable compute_hash_ : State -> string.
Variable push_heap : forall A : Type, (A -> A -> bool) -> list A -> list A.
Variable pop_heap : forall A : Type, (A -> A -> bool) -> list A -> list A.
Variable make_heap : forall A : Type, (A -> A -> bool) -> list A -> list A.

Abbreviation Store := (list (Node.t State)).

(** The two lists and the two counters that the loop over the new nodes
    works on. *)
Record lists : Type := mk {
  open : OpenList.t;
  closed : ClosedList.t;
  num_reopened_states : Z;
  num_duplicated_states : Z
}.

(** The counters are [std::atomic_uint_fast32_t]: unsigned, of a width
    [fast32_bits] that the platform chooses (at least 32), and [++] wraps
    around. *)
Variable fast32_bits : Z.

Definition to_uint_fast32 (x : Z) : Z := x mod 2 ^ fast32_bits.

(** The head of the main loop: the cheapest node moves from OPEN to CLOSED. *)
Definition expand (σ : Store) (l : lists) : option (lists * nat) :=
  '(open', node) ← OpenList.pop State compute_hash_ pop_heap σ (open l);
  '(closed', _) ← ClosedList.put State compute_hash_ σ (closed l) node;
  Some ({| open := open'; closed := closed';
           num_reopened_states := num_reopened_states l;
           num_duplicated_states := num_duplicated_states l |}, node).

(** The body of the loop over the new nodes; [costH] is the value that
    [compute_cost_h] returned for the node. *)
Definition visit (σ : Store) (l : lists) (new_node : nat) (costH : spec_float)
  : option (Store * lists) :=
  n ← σ !! new_node;
  if ClosedList.contains State compute_hash_ (closed l) (Node.state n) then
    closedNode ← ClosedList.get State compute_hash_ (closed l) (Node.state n);
    c ← σ !! closedNode;
    if SFltb (Node.costG n) (Node.costG c) then
      closed' ← ClosedList.pop State compute_hash_ σ (closed l) closedNode;
      '(σ', open', _) ← OpenList.pushOrUpdate State compute_hash_ push_heap make_heap
                          σ (open l) new_node;
      Some (σ', {| open := open'; closed := closed';
                   num_reopened_states := to_uint_fast32 (num_reopened_states l + 1);
                   num_duplicated_states := num_duplicated_states l |})
    else
      Some (σ, {| open := open l; closed := closed l;
                  num_reopened_states := num_reopened_states l;
                  num_duplicated_states := to_uint_fast32 (num_duplicated_states l + 1) |})
  else
    let σ := <[new_node := Node.setCostH n costH]> σ in
    '(σ', open', inserted) ← OpenList.pushOrUpdate State compute_hash_ push_heap make_heap
                               σ (open l) new_node;
    if negb inserted then
      Some (σ', {| open := open'; closed := closed l;
                   num_reopened_states := num_reopened_states l;
                   num_duplicated_states := to_uint_fast32 (num_duplicated_states l + 1) |})
    else if 40000 <? Z.of_nat (OpenList.size open') then
      open'' ← OpenList.clear State compute_hash_ pop_heap make_heap σ' open' 10;
      closed' ← ClosedList.clear_range State compute_hash_ σ' (closed l)
                  (Some <$> OpenList.nodes_heap_ open'');
      Some (σ', {| open := open''; closed := closed';
                   num_reopened_states := num_reopened_states l;
                   num_duplicated_states := num_duplicated_states l |})
    else
      Some (σ', {| open := open'; closed := closed l;
                   num_reopened_states := num_reopened_states l;
                   num_duplicated_states := num_duplicated_states l |}).

(** What holds of the two lists between the steps: OPEN is consistent,
    every entry of CLOSED is filed under the hash of its node, and no
    state hash is on both lists. *)
Definition separate (σ : Store) (l : lists) : Prop :=
  OpenList.consistent State compute_hash_ σ (open l)
  /\ (forall k p, ClosedList.nodes_ (closed l) !! k = Some p ->
                  OpenList.hash_at State compute_hash_ σ p = Some k)
  /\ (forall k, is_Some (OpenList.nodes_map_ (open l) !! k) ->
                ClosedList.nodes_ (closed l) !! k = None).

End WithState.
End AstarSearch.

(** ** The search context ([Context.hpp]) *)

Module Context.

Record MetaData : Type := {
  originalTextLength : option Z;
  originalJsd : option float;
  goalJSDist : option float
}.

Record t : Type := mk {
  targetNgramProfile : NgramProfile.t;
  mutableMetaData : MetaData
}.

End Context.

(** ** Double-length sums ([util/dekker.hpp]) *)

Module dekker.

(** [dekker::Double<double>]. *)
Record Double : Type := mk { hi : float; lo : float }.

(** [Double()], [Double(x)] and the conversion back to [double]. *)
Definition zero : Double := {| hi := 0; lo := 0 |}.
Definition ctor (x : float) : Double := {| hi := x; lo := 0 |}.
Definition to_T (d : Double) : float := hi d.

(** [operator+]. *)
Definition add (a rhs : Double) : Double :=
  let r := (hi a + hi rhs)%float in
  let s := if PrimFloat.ltb (abs (hi rhs)) (abs (hi a))
           then (hi a - r + hi rhs + lo rhs + lo a)%float
           else (hi rhs - r + hi a + lo a + lo rhs)%float in
  let z := (r + s)%float in
  let zz := (r - z + s)%float in
  {| hi := z; lo := zz |}.

(** Unary and binary [operator-]. *)
Definition opp (a : Double) : Double := {| hi := - hi a; lo := - lo a |}.
Definition sub (a rhs : Double) : Double := add a (opp rhs).

End dekker.

(** ** The heuristic ([ComputeCostH.cpp]) *)

Module ComputeCostH.

(** [std::max(a, b)] on [double]: [(a < b) ? b : a]. *)
Definition std_max (a b : float) : float := if PrimFloat.ltb a b then b else a.

(** A [double] that is above zero: positive and finite, or [+infinity]. *)
Definition positive_double (X : spec_float) : Prop :=
  match X with
  | S754_infinity false | S754_finite false _ _ => True
  | _ => False
  end.

(** The promotion of a [float] to [double]. *)
Definition to_double (x : spec_float) : float := SF2Prim x.

(** What one evaluation leaves behind: the lines written to [std::cerr]
    and, unless it was aborted, the returned cost with the metadata of the
    state and of the context as the evaluation left them. *)
Record outcome : Type := {
  cerr : list string;
  result : option (float * State.MetaData * Context.MetaData)
}.

Section WithJsd.
(** [calculateJsd] sums logarithms and exponentials of the C library; its
    result is taken as given. *)
Variable calculateJsd : NgramProfile.Heap -> NgramProfile.t -> NgramProfile.t -> float.
Variable NDEBUG : bool.

Definition underflow_message : string := "ERROR: Numerical underflow, jsd = ".

(** [operator()]. *)
Definition call (h : NgramProfile.Heap) (node : Node.t State.t) (context : Context.t)
    (allowUpdate : bool) : outcome :=
  let state := Node.state node in
  let sourceProfile := State.ngramProfile state in
  let targetProfile := Context.targetNgramProfile context in
  let jsd := calculateJsd h sourceProfile targetProfile in
  let cerr := if PrimFloat.ltb 1 jsd then [underflow_message] else [] in
  if negb (assert_ok NDEBUG (PrimFloat.leb jsd 1)) then {| cerr := cerr; result := None |}
  else
    let stateMeta := {| State.jsd := Some jsd |} in
    let ctxMeta := Context.mutableMetaData context in
    let '(origJsd, ctxMeta) :=
      match Context.originalJsd ctxMeta with
      | None =>
          let origJsd := std_max 0 (jsd - 1.0e-10) in
          (origJsd, {| Context.originalTextLength := Context.originalTextLength ctxMeta;
                       Context.originalJsd := Some origJsd;
                       Context.goalJSDist := Context.goalJSDist ctxMeta |})
      | Some origJsd => (origJsd, ctxMeta)
      end in
    let jsDistance := PrimFloat.sqrt (2 * jsd) in
    match Context.goalJSDist ctxMeta with
    | None => {| cerr := cerr; result := None |}
    | Some goal =>
        let p := (to_double (Node.costG node)
                  / std_max 1.0e-6 (jsDistance - PrimFloat.sqrt (2 * origJsd)))%float in
        let r := std_max 0 (goal - jsDistance) in
        let h := (r * p)%float in
        {| cerr := cerr; result := Some (h, stateMeta, ctxMeta) |}
    end.

End WithJsd.

(** A [double] that is not below zero: a zero, a positive number,
    [+infinity], or not a number. *)
Definition not_negative (X : spec_float) : Prop :=
  match X with
  | S754_infinity true | S754_finite true _ _ => False
  | _ => True
  end.

(** A node as an evaluation of the heuristic leaves it, with the new
    metadata of its state. *)
Definition evaluated (node : Node.t State.t) (stateMeta : State.MetaData) : Node.t State.t :=
  Node.mk {| State.m_text := State.m_text (Node.state node);
             State.m_ngramProfile := State.m_ngramProfile (Node.state node);
             State.m_mutableMetaData := stateMeta |}
          (Node.costG_ node) (Node.costH_ node) (Node.opcode_ node) (Node.parent_ node).

End ComputeCostH.

(** ** The goal check ([GoalCheck.hpp]) *)

Module GoalCheck.

(** [operator()]; the [bool] it computes is returned as a [double]. *)
Definition call (σ : list (Node.t State.t)) (node : Node.t State.t) (context : Context.t)
  : option bool :=
  let state := Node.state node in
  match State.jsd (State.mutableMetaData state),
        Context.goalJSDist (Context.mutableMetaData context) with
  | Some jsd, Some goalJSDist =>
      let jsDist := PrimFloat.sqrt (2 * jsd) in
      depth ← Node.depth σ node;
      Some ((0 <? depth) && PrimFloat.leb goalJSDist jsDist)
  | _, _ => Some false
  end.

End GoalCheck.


(** ** Small inputs used below *)

Module Fixtures.
Import NgramProfile.

Definition key (s : string) : Z := char2Ngram (chars s).

(** The profile of a text, generated without normalization into an empty
    store. *)
Definition profile_of (text : list ascii) : Heap * t :=
  let '(h, p, _, _) := generateFromString id id [] empty text SKIP_NORMALIZATION in
  (h, p).

Definition a_newline_b : list ascii := ["a"%char; LF; "b"%char].

(** Iterating, or applying and then iterating, the profile a call left. *)
Definition then_iterate (r : option (Heap * t)) : option (list (Z * Z)) :=
  '(h, p) ← r; iterate h p.
Definition then_apply (r : option (Heap * t)) : option (Heap * t) :=
  '(h, p) ← r; apply h p.
Definition then_size (r : option (Heap * t)) : option Z :=
  '(_, p) ← r; Some (size p).
Definition then_n (r : option (Heap * t)) : option Z :=
  '(_, p) ← r; Some (n p).
Definition then_freq (ngram : Z) (r : option (Heap * t)) : option Z :=
  '(h, p) ← r; freq h p ngram.
Definition then_distinct_nonzero (r : option (Heap * t)) : option Z :=
  '(h, p) ← r; distinct_nonzero h p.

Definition abc : Heap * t := profile_of (chars "abc").

(** A stand-in for the digest function where a concrete one is needed:
    sixteen bytes cut from the padded text. *)
Definition toy_digest (text : list ascii) : list ascii :=
  take 16 (text ++ repeat NUL 16).

(** The state of a text, and an edit of it at a focus point. *)
Definition state_of (text : list ascii) : Heap * State.t :=
  let '(h, p) := profile_of text in
  (h, {| State.m_text := DiffString.ctor toy_digest text;
         State.m_ngramProfile := p;
         State.m_mutableMetaData := {| State.jsd := None |} |}).

Definition blank_state : State.t :=
  {| State.m_text := DiffString.ctor toy_digest [];
     State.m_ngramProfile := empty;
     State.m_mutableMetaData := {| State.jsd := None |} |}.

(** Two diff-strings that reach the same text by different calls. *)
Definition hello_ops : list DiffString.op :=
  [DiffString.OpEdit (DiffString.Edit_ctor 0 5 (chars "howdy"));
   DiffString.OpApply;
   DiffString.OpEdit (DiffString.Edit_ctor 6 5 (chars "there"))].
Definition howdy_ops : list DiffString.op :=
  [DiffString.OpReset (chars "howdy there!");
   DiffString.OpEdit (DiffString.Edit_ctor 11 1 [])].
Definition hello : DiffString.t :=
  default (DiffString.ctor toy_digest [])
    (DiffString.run_ops toy_digest false
       (DiffString.ctor toy_digest (chars "hello world")) hello_ops).
Definition howdy : DiffString.t :=
  default (DiffString.ctor toy_digest [])
    (DiffString.run_ops toy_digest false
       (DiffString.ctor toy_digest (chars "howdy, you")) howdy_ops).

(** Four nodes, two of them with the state hash "a", pushed onto an empty
    list whose heap algorithms sort.  States are their own hashes; costs
    are whole numbers in binary32. *)
Definition f32 (z : Z) : spec_float := binary_normalize 24 128 z 0 false.
Definition node (hash : string) (g h : Z) : Node.t string :=
  Node.mk hash (f32 g) (f32 h) 0 None.
Definition open_store : list (Node.t string) :=
  [node "a" 3 5; node "b" 2 1; node "a" 1 1; node "c" 4 0].
Definition open_calls : list OpenList.call :=
  [OpenList.PushOrUpdate 0; OpenList.PushOrUpdate 1;
   OpenList.PushOrUpdate 2; OpenList.PushOrUpdate 3].
Definition open_run (cs : list OpenList.call)
  : option (list (Node.t string) * OpenList.t) :=
  OpenList.run string id OpenList.sorting_push_heap OpenList.sorting_pop_heap
    OpenList.sorting_make_heap open_store (OpenList.empty_list) cs.
Definition open_after : list (Node.t string) * OpenList.t :=
  default ([], OpenList.empty_list) (open_run open_calls).

(** A root node and a node at cost 40 over the state of "abc", a context
    with the goal distance 1.25 and no original divergence yet, and
    divergence functions that return a fixed value. *)
Definition root_node : Node.t State.t :=
  Node.mk (state_of (chars "abc")).2 (f32 0) (f32 0) 0 None.
Definition child_node : Node.t State.t :=
  Node.mk (state_of (chars "abd")).2 (f32 40) (f32 0) 0 (Some 0%nat).
Definition fresh_context : Context.t :=
  {| Context.targetNgramProfile := (profile_of (chars "xyz")).2;
     Context.mutableMetaData :=
       {| Context.originalTextLength := Some 3;
          Context.originalJsd := None;
          Context.goalJSDist := Some 1.25%float |} |}.
Definition jsd_is (v : float) : Heap -> t -> t -> float := fun _ _ _ => v.

(** The text the successor of a call materializes to. *)
Definition then_text (r : option (Heap * State.t * bool)) : option (list ascii) :=
  '(_, successor, _) ← r; DiffString.string false (State.text successor).

Definition the_cat : list ascii := chars "the cat sat".
Definition focus_cat : ObfuscationOperator.FocusPoint :=
  {| ObfuscationOperator.ngramOffset := 4; ObfuscationOperator.text := the_cat |}.


(** A profile, its clone, and a run of mutations on each. *)
Definition shared_heap : Heap := (profile_of (chars "abcabc")).1.
Definition original : t := (profile_of (chars "abcabc")).2.
Definition clone_ops : list op :=
  [UpdateFromStringRange (chars "abc") (chars "abd"); Apply; Update [(key "bca", -1)]].
Definition original_ops : list op :=
  [Update [(key "xyz", 2)]; Apply; UpdateFromStringRange (chars "cab") (chars "cb")].
Definition plain_ops : list op :=
  [UpdateFromStringRange (chars "abc") (chars "abd"); Update [(key "bca", -1)]].
Definition original_counts : gmap Z Z :=
  default ∅ (effective shared_heap original).
Definition after_clone_ops : Heap * t :=
  default ([], empty) (run_ops false shared_heap (clone original) clone_ops).
Definition after_original_ops : Heap * t :=
  default ([], empty) (run_ops false shared_heap original original_ops).

(** A stand-in for the line-ending pass of the normalization: carriage
    returns are dropped. *)
Definition CR : ascii := ascii_of_nat 13.
Definition drop_cr (text : list ascii) : list ascii :=
  List.filter (fun c => negb (Ascii.eqb c CR)) text.
Definition dos_text : list ascii := ["a"%char; "b"%char; CR; LF; "c"%char; "d"%char].
Definition unix_text : list ascii := ["a"%char; "b"%char; LF; "c"%char; "d"%char].

(** A root, its child by operator 3 and its grandchild by operator 5. *)
Definition path_store : list (Node.t string) :=
  [Node.ctor_root "r"%string; Node.mk "s"%string (f32 1) (f32 0) 3 (Some 0%nat);
   Node.mk "t"%string (f32 2) (f32 0) 5 (Some 1%nat)].

(** The OPEN list of the run above beside an empty CLOSED list. *)
Definition open_lists : AstarSearch.lists :=
  AstarSearch.mk open_after.2 ClosedList.empty_list 0 0.

(** The root of a search beside the node above. *)
Definition search_store : list (Node.t State.t) := [root_node; child_node].

(** The profile above with one update pending, and the first two nodes
    that come off the OPEN list above. *)
Definition pending : Heap * t :=
  default ([], empty) (update false shared_heap original [(key "xyz", 2)]).
Definition first_pop : OpenList.t * nat :=
  default (OpenList.empty_list, 0%nat)
    (OpenList.pop string id OpenList.sorting_pop_heap open_after.1 open_after.2).
Definition second_pop : OpenList.t * nat :=
  default (OpenList.empty_list, 0%nat)
    (OpenList.pop string id OpenList.sorting_pop_heap open_after.1 first_pop.1).

End Fixtures.

(** * Properties *)

(** ** n-gram profiles *)

Section ProfileFacts.
Import NgramProfile.

Lemma base_grows (h h' : Heap) (p : t) (b : gmap Z Z) :
  h `prefix_of` h' -> base h p = Some b -> base h' p = Some b.
Proof.
  intros [k ->]. unfold base. destruct (m_ngrams p) as [ptr|]; simpl; [|done].
  intros Hb. by apply lookup_app_l_Some.
Qed.

Lemma apply_grows (h h' : Heap) (p p' : t) :
  apply h p = Some (h', p') -> h `prefix_of` h'.
Proof.
  unfold apply, make_shared. destruct (base h p) as [b|]; simpl; [|done].
  intros [= <- _]. by exists [foldl apply_entry b (entries (m_updates p))].
Qed.

Lemma update_grows (NDEBUG : bool) (h h' : Heap) (p p' : t) (us : list (Z * Z)) :
  update NDEBUG h p us = Some (h', p') -> h `prefix_of` h'.
Proof.
  unfold update.
  destruct (update_loop _ _ _ _) as [q|]; simpl; [|done].
  repeat case_match; try done.
  - apply apply_grows.
  - by intros [= <- _].
Qed.

Lemma run_op_grows (NDEBUG : bool) (h h' : Heap) (p p' : t) (o : op) :
  run_op NDEBUG h p o = Some (h', p') -> h `prefix_of` h'.
Proof.
  destruct o; simpl; eauto using apply_grows, update_grows.
Qed.

Lemma run_ops_grows (NDEBUG : bool) (ops : list op) :
  forall (h h' : Heap) (p p' : t),
    run_ops NDEBUG h p ops = Some (h', p') -> h `prefix_of` h'.
Proof.
  induction ops as [|o ops IH]; simpl; intros h h' p p'.
  - by intros [= <- _].
  - destruct (run_op NDEBUG h p o) as [[h1 p1]|] eqn:Hop; simpl; [|done].
    intros Hrest. etrans; [by eapply run_op_grows | by eapply IH].
Qed.

Lemma freq_grows (h h' : Heap) (p : t) (k : Z) :
  h `prefix_of` h' -> is_Some (base h p) -> freq h' p k = freq h p k.
Proof.
  intros Hpre [b Hb]. unfold freq.
  by rewrite (base_grows h h' p b Hpre Hb), Hb.
Qed.

Lemma iterate_grows (h h' : Heap) (p : t) :
  h `prefix_of` h' -> is_Some (base h p) -> iterate h' p = iterate h p.
Proof.
  intros Hpre [b Hb]. unfold iterate, cbegin.
  by rewrite (base_grows h h' p b Hpre Hb), Hb.
Qed.

End ProfileFacts.

(** The iterator comes to an end. *)
Section IteratorFacts.
Import NgramProfile.

Local Abbreviation remaining := Iterator.remaining.

Lemma eqb_cend (it : Iterator.t) :
  Iterator.eqb it cend = true <-> remaining it = 0%nat.
Proof.
  unfold Iterator.eqb, cend, Iterator.remaining; simpl.
  rewrite andb_true_iff, !Nat.eqb_eq. lia.
Qed.

Lemma advance_remaining (it : Iterator.t) :
  remaining it <> 0%nat -> (remaining (Iterator.advance it) < remaining it)%nat.
Proof.
  destruct it as [[|ng l1] [|up l2]]; unfold Iterator.remaining, Iterator.advance; simpl;
    rewrite ?orb_true_r, ?orb_false_r; simpl; try lia.
  destruct (Z.leb (fst ng) (fst up)) eqn:Hle; simpl.
  - destruct (orb _ _); simpl; lia.
  - assert (Z.leb (fst up) (fst ng) = true) as -> by lia. simpl. lia.
Qed.

Lemma advance_at_end (it : Iterator.t) :
  remaining it = 0%nat -> Iterator.advance it = it.
Proof.
  destruct it as [[|ng l1] [|up l2]]; unfold Iterator.remaining; simpl; try lia. done.
Qed.

Lemma again_remaining (it : Iterator.t) :
  Iterator.again it = true -> remaining it <> 0%nat.
Proof. destruct it as [[|ng l1] [|up l2]]; unfold Iterator.remaining; simpl; try done; lia. Qed.

(** With the fuel [operator++] is given, its loop ends by its own test, and
    the iterator has moved on. *)
Lemma incr_loop_exits (fuel : nat) :
  forall it, (remaining it <= fuel)%nat ->
    Iterator.again (Iterator.incr_loop fuel it) = false
    /\ (remaining it <> 0%nat -> (remaining (Iterator.incr_loop fuel it) < remaining it)%nat).
Proof.
  induction fuel as [|fuel IH]; intros it Hfuel; simpl.
  - rewrite advance_at_end by lia. split; [|lia].
    destruct (Iterator.again it) eqn:Hag; [|done]. apply again_remaining in Hag. lia.
  - destruct (Iterator.again (Iterator.advance it)) eqn:Hag.
    + assert (remaining it <> 0%nat) as Hne.
      { intros Hz. rewrite advance_at_end in Hag by done. apply again_remaining in Hag. lia. }
      pose proof (advance_remaining it Hne) as Hlt.
      destruct (IH (Iterator.advance it)) as [Hexit Hdec]; [lia|].
      split; [done|]. intros _. apply again_remaining in Hag. specialize (Hdec Hag). lia.
    + split; [done|]. apply advance_remaining.
Qed.

Lemma incr_remaining (it : Iterator.t) :
  remaining it <> 0%nat -> (remaining (Iterator.incr it) < remaining it)%nat.
Proof. intros Hne. by apply (incr_loop_exits (remaining it) it). Qed.

Lemma deref_is_Some (it : Iterator.t) :
  remaining it <> 0%nat -> is_Some (Iterator.deref it).
Proof.
  destruct it as [[|ng l1] [|up l2]]; unfold Iterator.remaining, Iterator.deref; simpl; try lia; eauto.
  destruct (Z.leb (fst up) (fst ng)); eauto.
Qed.

Lemma iterate_loop_total (fuel : nat) :
  forall it, (remaining it <= fuel)%nat -> is_Some (iterate_loop fuel it).
Proof.
  induction fuel as [|fuel IH]; intros it Hfuel; simpl.
  - rewrite (proj2 (eqb_cend it)) by lia. eauto.
  - destruct (Iterator.eqb it cend) eqn:Hend; [eauto|].
    assert (remaining it <> 0%nat) as Hne.
    { intros Hz. apply eqb_cend in Hz. congruence. }
    destruct (deref_is_Some it Hne) as [x ->]. simpl.
    pose proof (incr_remaining it Hne) as Hlt.
    destruct (IH (Iterator.incr it)) as [rest ->]; [lia|]. simpl. eauto.
Qed.

(** Iterating a profile whose base map is in the store always comes to an
    end and returns the pairs visited. *)
Lemma iterate_total (h : Heap) (p : t) :
  is_Some (base h p) -> is_Some (iterate h p).
Proof.
  intros [b Hb]. unfold iterate, cbegin. rewrite Hb. simpl.
  by apply iterate_loop_total.
Qed.

(** With nothing pending the iteration is the base map in key order. *)
Lemma iterate_loop_base (l : list (Z * Z)) :
  forall fuel, (length l <= fuel)%nat ->
    iterate_loop fuel {| Iterator.ngramsIt := l; Iterator.updatesIt := [] |} = Some l.
Proof.
  induction l as [|x l IH]; intros fuel Hfuel.
  - by destruct fuel.
  - destruct fuel as [|fuel]; simpl in Hfuel; [lia|]. simpl.
    replace (Iterator.incr {| Iterator.ngramsIt := x :: l; Iterator.updatesIt := [] |})
      with {| Iterator.ngramsIt := l; Iterator.updatesIt := [] |}.
    + rewrite IH by lia. done.
    + unfold Iterator.incr. simpl. unfold Iterator.advance. simpl.
      rewrite orb_true_r. simpl. by destruct l, (length _ + 0)%nat.
Qed.

End IteratorFacts.

(** Generation from a text. *)
Section GenerateFacts.
Import NgramProfile.
Variable normalizeText : list ascii -> list ascii.
Variable stripPosAnnotationsFromText : list ascii -> list ascii.

Lemma entries_empty : entries ∅ = [].
Proof. unfold entries. by rewrite map_to_list_empty. Qed.

Lemma range_length {A} (text : list A) (it : nat) :
  (it + ORDER <= length text)%nat -> length (range it (it + ORDER) text) = ORDER.
Proof. intros Hit. unfold range. rewrite length_take, length_drop. lia. Qed.

(** A window without a newline is packed by [ngramFromStringRange] as it is. *)
Lemma ngramFromStringRange_plain (w : list ascii) :
  length w = ORDER -> LF ∉ w ->
  ngramFromStringRange w = char2Ngram (std_copy w (repeat NUL 4)).
Proof.
  intros Hlen Hlf. unfold ngramFromStringRange. f_equal.
  destruct w as [|a [|b [|c [|]]]]; try done.
  unfold std_copy, std_replace; simpl.
  assert (Ascii.eqb a LF = false /\ Ascii.eqb b LF = false /\ Ascii.eqb c LF = false)
    as (-> & -> & ->).
  { rewrite !Ascii.eqb_neq. split_and!; intros ->; apply Hlf; set_solver. }
  done.
Qed.

Lemma to_size_t_range (z : Z) : 0 <= to_size_t z < size_t_max.
Proof. apply Z.mod_pos_bound. done. Qed.

(** The loop of [generateFromString] counts the windows as they are. *)
Lemma generate_loop (text : list ascii) (its : list nat) :
  forall (m : gmap Z Z) (cnt : Z) (buf : list ascii),
    drop ORDER buf = [NUL] -> 0 <= cnt < size_t_max ->
    Forall (fun it => (it + ORDER <= length text)%nat) its ->
    exists buf',
      foldl (generate_step text) (m, cnt, buf) its
      = (foldl (fun m g => map_add m g 1) m
           (List.map (fun it => char2Ngram (std_copy (range it (it + ORDER) text)
                                              (repeat NUL 4))) its),
         to_size_t (cnt + Z.of_nat (length its)), buf')
      /\ drop ORDER buf' = [NUL].
Proof.
  induction its as [|it its IH]; intros m cnt buf Hbuf Hcnt Hits; simpl.
  - exists buf. split; [|done]. rewrite Z.add_0_r. unfold to_size_t.
    by rewrite Z.mod_small.
  - apply Forall_cons in Hits as [Hit Hits].
    pose proof (range_length text it Hit) as Hlen.
    assert (std_copy (range it (it + ORDER) text) buf
            = std_copy (range it (it + ORDER) text) (repeat NUL 4)) as Hcopy.
    { unfold std_copy. by rewrite Hlen, Hbuf. }
    rewrite Hcopy.
    destruct (IH (map_add m (char2Ngram (std_copy (range it (it + ORDER) text)
                                          (repeat NUL 4))) 1)
                 (to_size_t (cnt + 1))
                 (std_copy (range it (it + ORDER) text) (repeat NUL 4)))
      as (buf' & -> & Hbuf'); [|apply to_size_t_range|done|].
    { unfold std_copy. rewrite Hlen. by rewrite drop_app_length'. }
    exists buf'. split; [|done]. f_equal. f_equal.
    unfold to_size_t. rewrite Zplus_mod_idemp_l. f_equal. lia.
Qed.

Lemma iterate_fresh (h : Heap) (m : gmap Z Z) (n0 sz : Z) (lu : list (Z * Z)) :
  iterate (h ++ [m])
    {| m_n := n0; m_size := sz; m_ngrams := Some (length h); m_updates := ∅;
       m_lastNgramUpdates := lu |} = Some (entries m).
Proof.
  unfold iterate, cbegin, base; simpl.
  rewrite list_lookup_middle by done. simpl. rewrite entries_empty. simpl.
  apply iterate_loop_base. lia.
Qed.

(** For a text of at least [ORDER] characters without a newline (as the
    optional passes left it), [generateFromString] succeeds, [n()] is the
    number of windows, and the profile iterates the counts of the windows
    of the text. *)
Theorem generateFromString_without_newline (h : Heap) (p : t) (text : list ascii) (flags : Z) :
  let T := prepared normalizeText stripPosAnnotationsFromText text flags in
  (ORDER <= length T)%nat -> Z.of_nat (length T) < size_t_max -> LF ∉ T ->
  exists h' p',
    generateFromString normalizeText stripPosAnnotationsFromText h p text flags
    = (h', p', T, true)
    /\ n p' = Z.of_nat (length T) - 2
    /\ iterate h' p' = Some (entries (count_all (windows T))).
Proof.
  intros T Hlen Hmax Hlf. unfold generateFromString. fold T.
  assert ((length T <? ORDER)%nat = false) as -> by (apply Nat.ltb_ge; lia).
  destruct (generate_loop T (seq 0 (length T - (ORDER - 1))) ∅ 0 (repeat NUL 4))
    as (buf' & -> & _); [done|done| |].
  { apply Forall_forall. intros it Hit. apply elem_of_seq in Hit. unfold ORDER in *. lia. }
  unfold make_shared. eexists _, _. split; [reflexivity|]. split.
  - unfold n; simpl. rewrite length_seq. unfold to_size_t.
    rewrite Z.mod_small; unfold ORDER in *; lia.
  - rewrite iterate_fresh. do 2 f_equal.
    unfold count_all, windows, ngramsFromStringRange.
    assert ((length T <? ORDER)%nat = false) as -> by (apply Nat.ltb_ge; lia).
    f_equal. apply map_ext_in. intros it Hit. apply in_seq in Hit.
    symmetry. apply ngramFromStringRange_plain.
    + apply range_length. unfold ORDER in *. lia.
    + intros Hin. apply Hlf. unfold range in Hin.
      by eapply subseteq_drop, subseteq_take, Hin.
Qed.

End GenerateFacts.

(** [update] and [apply] against a plain map. *)
Section ApplyFacts.
Import NgramProfile.

Lemma NoDup_entries (m : gmap Z Z) : NoDup (entries m).*1.
Proof.
  unfold entries. rewrite merge_sort_Permutation. apply NoDup_fst_map_to_list.
Qed.

Lemma list_to_map_entries (m : gmap Z Z) : list_to_map (entries m) = m.
Proof.
  rewrite <- (list_to_map_to_list m) at 2.
  apply list_to_map_proper; [apply NoDup_entries|].
  unfold entries. apply merge_sort_Permutation.
Qed.

Lemma elem_of_entries (m : gmap Z Z) (kv : Z * Z) :
  kv ∈ entries m <-> m !! kv.1 = Some kv.2.
Proof.
  unfold entries. rewrite merge_sort_Permutation. destruct kv. apply elem_of_map_to_list.
Qed.

(** What the loop of [apply] leaves in the copy of the base map. *)
Lemma foldl_apply_entry (l : list (Z * Z)) :
  NoDup l.*1 ->
  forall (b : gmap Z Z) (k : Z),
    foldl apply_entry b l !! k
    = match (list_to_map l : gmap Z Z) !! k with
      | Some v => if v =? 0 then None else Some v
      | None => b !! k
      end.
Proof.
  induction l as [|[k0 v0] l IH]; intros Hnd b k; simpl.
  - by rewrite lookup_empty.
  - apply NoDup_cons in Hnd as [Hk0 Hnd]. rewrite (IH Hnd).
    destruct (decide (k = k0)) as [->|Hne].
    + rewrite lookup_insert_eq.
      rewrite (not_elem_of_list_to_map_1 _ _ Hk0).
      unfold apply_entry; simpl. destruct (v0 =? 0).
      * apply lookup_delete_eq.
      * apply lookup_insert_eq.
    + rewrite lookup_insert_ne by done.
      destruct (list_to_map l !! k); [done|].
      unfold apply_entry; simpl. destruct (v0 =? 0).
      * by rewrite lookup_delete_ne.
      * by rewrite lookup_insert_ne.
Qed.

Lemma count_union (u b : gmap Z Z) (k : Z) :
  count (u ∪ b) k = match u !! k with Some v => v | None => count b k end.
Proof.
  unfold count. rewrite lookup_union.
  destruct (u !! k), (b !! k); done.
Qed.

(** [apply] keeps every effective count, empties the pending map, and
    leaves a base map without zero counts. *)
Lemma apply_effective (h h' : Heap) (p p' : t) (b : gmap Z Z) :
  base h p = Some b -> (forall k, b !! k <> Some 0) ->
  apply h p = Some (h', p') ->
  exists b', base h' p' = Some b' /\ m_updates p' = ∅
             /\ (forall k, b' !! k <> Some 0)
             /\ (forall k, count b' k = count (m_updates p ∪ b) k).
Proof.
  intros Hb Hnz. unfold apply. rewrite Hb; simpl. intros [= <- <-].
  exists (foldl apply_entry b (entries (m_updates p))).
  assert (forall k, foldl apply_entry b (entries (m_updates p)) !! k
                    = match m_updates p !! k with
                      | Some v => if v =? 0 then None else Some v
                      | None => b !! k
                      end) as Hlook.
  { intros k. rewrite foldl_apply_entry by apply NoDup_entries.
    by rewrite list_to_map_entries. }
  split_and!.
  - unfold base; simpl. by rewrite list_lookup_middle.
  - done.
  - intros k. rewrite Hlook. destruct (m_updates p !! k) as [v|]; [|done].
    destruct (v =? 0) eqn:Hv; [done|]. intros [= ->]. done.
  - intros k. rewrite count_union. unfold count at 1. rewrite Hlook.
    destruct (m_updates p !! k) as [v|]; [|done].
    destruct (v =? 0) eqn:Hv; simpl; lia.
Qed.

Lemma count_map_add (m : gmap Z Z) (k d k' : Z) :
  count (map_add m k d) k' = if decide (k' = k) then to_size_t (count m k + d) else count m k'.
Proof.
  unfold count, map_add. destruct (decide (k' = k)) as [->|Hne].
  - by rewrite lookup_insert_eq.
  - by rewrite lookup_insert_ne.
Qed.

(** One round of [update] adds the delta to the effective count. *)
Lemma update_step_effective (NDEBUG : bool) (b : gmap Z Z) (p p' : t) (u : Z * Z) :
  update_step NDEBUG b p u = Some p' ->
  m_ngrams p' = m_ngrams p
  /\ forall k, count (m_updates p' ∪ b) k
               = if decide (k = u.1) then to_size_t (count (m_updates p ∪ b) k + u.2)
                 else count (m_updates p ∪ b) k.
Proof.
  unfold update_step.
  set (seeded := match b !! u.1, m_updates p !! u.1 with
                 | Some v, None => <[u.1 := v]> (m_updates p)
                 | _, _ => m_updates p
                 end).
  destruct (negb _); [done|].
  match goal with |- context [mbind _ ?x] => destruct x as [sz|] end; simpl; [|done].
  intros [= <-]; simpl. split; [done|]. intros k.
  rewrite !count_union.
  assert (count seeded u.1 = count (m_updates p ∪ b) u.1) as Hseed.
  { rewrite count_union. unfold seeded, count.
    destruct (b !! u.1) as [v|] eqn:Hbu, (m_updates p !! u.1) as [x|] eqn:Hpu;
      rewrite ?lookup_insert_eq, ?Hpu; done. }
  unfold map_add. fold (count seeded u.1). rewrite Hseed.
  destruct (decide (k = u.1)) as [->|Hne].
  - by rewrite lookup_insert_eq, count_union.
  - rewrite lookup_insert_ne by done.
    assert (seeded !! k = m_updates p !! k) as ->; [|done].
    unfold seeded. destruct (b !! u.1), (m_updates p !! u.1); try done.
    by rewrite lookup_insert_ne.
Qed.

Lemma update_loop_in_step (NDEBUG : bool) (h : Heap) (us : list (Z * Z)) :
  forall (p p' : t) (b : gmap Z Z) (m : gmap Z Z),
    base h p = Some b -> (forall k, count (m_updates p ∪ b) k = count m k) ->
    update_loop NDEBUG h p us = Some p' ->
    base h p' = Some b
    /\ forall k, count (m_updates p' ∪ b) k = count (plain_update m us) k.
Proof.
  induction us as [|u us IH]; simpl; intros p p' b m Hb Hcount.
  - by intros [= <-].
  - rewrite Hb. simpl.
    destruct (update_step NDEBUG b p u) as [p1|] eqn:Hstep; simpl; [|done].
    apply update_step_effective in Hstep as [Hptr Hstep].
    apply IH.
    + unfold base in *. by rewrite Hptr.
    + intros k. rewrite Hstep, count_map_add.
      destruct (decide (k = u.1)) as [->|]; by rewrite ?Hcount.
Qed.

Lemma apply_in_step (h h' : Heap) (p p' : t) (m : gmap Z Z) :
  in_step h p m -> apply h p = Some (h', p') ->
  in_step h' p' m /\ m_updates p' = ∅.
Proof.
  intros (b & Hb & Hnz & Hcount) Happly.
  destruct (apply_effective h h' p p' b Hb Hnz Happly) as (b' & Hb' & Hempty & Hnz' & Hc').
  split; [|done]. exists b'. split_and!; [done..|].
  intros k. rewrite count_union, Hempty, lookup_empty, Hc'. apply Hcount.
Qed.

Lemma update_in_step (NDEBUG : bool) (h h' : Heap) (p p' : t) (m : gmap Z Z)
    (us : list (Z * Z)) :
  in_step h p m -> update NDEBUG h p us = Some (h', p') ->
  in_step h' p' (plain_update m us).
Proof.
  intros (b & Hb & Hnz & Hcount). unfold update.
  destruct (update_loop _ _ _ _) as [q|] eqn:Hloop; simpl; [|done].
  apply (update_loop_in_step NDEBUG h us _ q b m) in Hloop as [Hbq Hcq]; [|done..].
  destruct (negb _); [done|]. destruct (negb _); [done|].
  destruct (150 <? logSize q).
  - intros Happly. eapply apply_in_step; [|done]. by exists b.
  - intros [= <- <-]. by exists b.
Qed.

Lemma run_op_in_step (NDEBUG : bool) (h h' : Heap) (p p' : t) (m : gmap Z Z) (o : op) :
  in_step h p m -> run_op NDEBUG h p o = Some (h', p') ->
  in_step h' p' (plain_update m (deltas_of o)).
Proof.
  intros Hin. destruct o; simpl.
  - by apply update_in_step.
  - by apply update_in_step.
  - intros Happly. by eapply apply_in_step.
Qed.

Lemma run_ops_in_step (NDEBUG : bool) (ops : list op) :
  forall (h h' : Heap) (p p' : t) (m : gmap Z Z),
    in_step h p m -> run_ops NDEBUG h p ops = Some (h', p') ->
    in_step h' p' (plain_update m (concat (deltas_of <$> ops))).
Proof.
  induction ops as [|o ops IH]; simpl; intros h h' p p' m Hin.
  - by intros [= <- <-].
  - destruct (run_op NDEBUG h p o) as [[h1 p1]|] eqn:Hop; simpl; [|done].
    intros Hrest. unfold plain_update. rewrite foldl_app.
    eapply IH; [|done]. by eapply run_op_in_step.
Qed.

End ApplyFacts.

Section PlainMap.
Import NgramProfile.

Lemma StronglySorted_filter {A} (R : relation A) (P : A -> Prop) `{!forall x, Decision (P x)}
    (l : list A) :
  StronglySorted R l -> StronglySorted R (filter P l).
Proof.
  induction 1 as [|x l Hs IH Hx]; [constructor|].
  rewrite filter_cons. destruct (decide (P x)); [|done].
  constructor; [done|]. rewrite Forall_forall in Hx |- *.
  intros y Hy. apply Hx. by apply list_elem_of_filter in Hy as [_ Hy].
Qed.

(** Reading a map without its zero counts is reading the map that has none. *)
Lemma entries_filter (P : Z * Z -> Prop) `{!forall x, Decision (P x)} (m : gmap Z Z) :
  entries (filter P m) = filter P (entries m).
Proof.
  apply (StronglySorted_unique_strong key_le).
  - intros [k1 v1] [k2 v2] H1 H2 Hle1 Hle2. unfold key_le in *; simpl in *.
    assert (k1 = k2) as -> by lia.
    apply list_elem_of_filter in H2 as [_ H2].
    apply elem_of_entries in H1, H2. simpl in *.
    apply map_lookup_filter_Some in H1 as [H1 _]. congruence.
  - apply StronglySorted_merge_sort; apply _.
  - apply StronglySorted_filter, StronglySorted_merge_sort; apply _.
  - unfold entries. rewrite !merge_sort_Permutation.
    apply NoDup_Permutation.
    + apply NoDup_map_to_list.
    + apply NoDup_filter, NoDup_map_to_list.
    + intros [k v]. rewrite list_elem_of_filter, !elem_of_map_to_list.
      rewrite map_lookup_filter_Some. tauto.
Qed.

Lemma iterate_applied (h : Heap) (p : t) (b : gmap Z Z) :
  base h p = Some b -> m_updates p = ∅ -> iterate h p = Some (entries b).
Proof.
  intros Hb Hu. unfold iterate, cbegin. rewrite Hb, Hu, entries_empty. simpl.
  apply iterate_loop_base. lia.
Qed.

(** A map without zero counts that agrees with a plain map on every count
    is the plain map without its zero counts. *)
Lemma nonzero_counts (b m : gmap Z Z) :
  (forall k, b !! k <> Some 0) -> (forall k, count b k = count m k) ->
  b = filter (fun kv => kv.2 <> 0) m.
Proof.
  intros Hnz Hcount. apply map_eq. intros k. specialize (Hnz k). specialize (Hcount k).
  unfold count in Hcount.
  destruct (b !! k) as [v|] eqn:Hbk; simpl in Hcount.
  - symmetry. apply map_lookup_filter_Some. simpl.
    assert (v <> 0) as Hv by congruence. split; [|done].
    destruct (m !! k) as [w|]; simpl in Hcount; [congruence|lia].
  - symmetry. apply map_lookup_filter_None. right. intros w Hw. simpl.
    rewrite Hw in Hcount. simpl in Hcount. lia.
Qed.

(** After any [update], [updateFromStringRange] and [apply] calls and a
    final [apply()], a well-formed profile iterates, in key order and
    without zero counts, the plain map that started with the profile's
    effective counts and received the same deltas one by one. *)
Theorem apply_after_updates_is_plain_map (NDEBUG : bool) (h h' : Heap) (p p' : t)
    (m : gmap Z Z) (ops : list op) :
  well_formed h p -> effective h p = Some m ->
  run_ops NDEBUG h p (ops ++ [Apply]) = Some (h', p') ->
  iterate h' p' = Some (nonzero_entries (plain_update m (concat (deltas_of <$> ops)))).
Proof.
  intros (b & Hb & Hnz) Heff Hrun.
  assert (in_step h p m) as Hin.
  { exists b. split_and!; [done..|]. unfold effective in Heff. rewrite Hb in Heff.
    simpl in Heff. by injection Heff as <-. }
  apply (run_ops_in_step NDEBUG _ _ _ _ _ _ Hin) in Hrun as Hfinal.
  rewrite fmap_app, concat_app in Hfinal. simpl in Hfinal. rewrite app_nil_r in Hfinal.
  destruct Hfinal as (b' & Hb' & Hnz' & Hcount').
  assert (m_updates p' = ∅) as Hempty.
  { clear -Hrun. revert h p Hrun. induction ops as [|o ops IH]; simpl; intros h p.
    - destruct (apply h p) as [[h1 p1]|] eqn:Happly; simpl; [|done].
      intros [= <- <-]. unfold apply in Happly.
      destruct (base h p); simpl in Happly; [|done]. by injection Happly as <- <-.
    - destruct (run_op NDEBUG h p o) as [[h1 p1]|]; simpl; [|done]. apply IH. }
  rewrite (iterate_applied h' p' b' Hb' Hempty).
  unfold nonzero_entries. rewrite <- entries_filter. do 2 f_equal.
  apply nonzero_counts; [done|]. intros k. rewrite <- Hcount'.
  by rewrite count_union, Hempty, lookup_empty.
Qed.

End PlainMap.

Section GeneratedProfiles.
Import NgramProfile.
Variable normalizeText : list ascii -> list ascii.
Variable stripPosAnnotationsFromText : list ascii -> list ascii.

(** Counting fewer than [2^64] n-grams leaves no zero count. *)
Lemma count_values (keys : list Z) :
  forall (m : gmap Z Z) (N : Z),
    (forall k v, m !! k = Some v -> 1 <= v <= N) -> 0 <= N ->
    N + Z.of_nat (length keys) < size_t_max ->
    forall k v, foldl (fun m g => map_add m g 1) m keys !! k = Some v ->
                1 <= v <= N + Z.of_nat (length keys).
Proof.
  induction keys as [|g keys IH]; cbn [foldl]; intros m N Hm HN0 HN k v.
  - intros Hk. apply Hm in Hk. simpl. lia.
  - rewrite length_cons, Nat2Z.inj_succ in HN |- *.
    intros Hk. apply (IH (map_add m g 1) (N + 1)) in Hk; [lia| |lia|lia].
    intros k' v'. unfold map_add. destruct (decide (k' = g)) as [->|Hne].
    + rewrite lookup_insert_eq. intros [= <-]. unfold to_size_t.
      destruct (m !! g) as [w|] eqn:Hw; simpl.
      * apply Hm in Hw. rewrite Z.mod_small; lia.
      * rewrite Z.mod_small; unfold size_t_max in *; lia.
    + rewrite lookup_insert_ne by done. intros Hk'. apply Hm in Hk'. lia.
Qed.

(** A generated profile is well formed, with nothing pending. *)
Lemma generateFromString_well_formed (h h' : Heap) (p p' : t) (text T : list ascii)
    (flags : Z) :
  generateFromString normalizeText stripPosAnnotationsFromText h p text flags
  = (h', p', T, true) ->
  Z.of_nat (length T) < size_t_max ->
  well_formed h' p' /\ m_updates p' = ∅.
Proof.
  unfold generateFromString.
  set (T0 := prepared normalizeText stripPosAnnotationsFromText text flags).
  destruct (length T0 <? ORDER)%nat eqn:Hlen; [done|]. apply Nat.ltb_ge in Hlen.
  destruct (generate_loop T0 (seq 0 (length T0 - (ORDER - 1))) ∅ 0 (repeat NUL 4))
    as (buf' & -> & _); [done|done| |].
  { apply Forall_forall. intros it Hit. apply elem_of_seq in Hit. unfold ORDER in *. lia. }
  unfold make_shared. intros [= <- <- <-] Hmax. split; [|done].
  eexists. split.
  - unfold base; simpl. by rewrite list_lookup_middle.
  - intros k Hk.
    apply (count_values _ ∅ 0) in Hk; [lia| |done|].
    + intros k' v'. by rewrite lookup_empty.
    + rewrite length_map, length_seq. lia.
Qed.

End GeneratedProfiles.


(** Clones. *)
Section CloneIndependence.
Import NgramProfile.

(** Whatever is done to one profile, a profile whose base map is in the
    store keeps its counts and its iteration. *)
Lemma profile_frame (NDEBUG : bool) (h h' : Heap) (x y y' : t) (ops : list op) :
  is_Some (base h x) ->
  run_ops NDEBUG h y ops = Some (h', y') ->
  (forall k, freq h' x k = freq h x k) /\ iterate h' x = iterate h x.
Proof.
  intros Hx Hrun. apply run_ops_grows in Hrun.
  split; [intros k; by apply freq_grows | by apply iterate_grows].
Qed.

Lemma clone_base (h : Heap) (p : t) : base h (clone p) = base h p.
Proof. reflexivity. Qed.

(** C8: a clone starts with the frequencies, total, size and iteration of
    the profile it was cloned from; [update], [updateFromStringRange] and
    [apply] calls on the clone leave the frequencies and the iteration of
    the original as they were (its total and size are members of its own
    object), and calls on the original leave the clone as it was. *)
Theorem clone_is_independent (NDEBUG : bool) (h hq hp : Heap) (p q' p' : t)
    (ops_q ops_p : list op) :
  is_Some (base h p) ->
  run_ops NDEBUG h (clone p) ops_q = Some (hq, q') ->
  run_ops NDEBUG h p ops_p = Some (hp, p') ->
  ((forall k, freq h (clone p) k = freq h p k)
   /\ n (clone p) = n p /\ size (clone p) = size p
   /\ iterate h (clone p) = iterate h p)
  /\ ((forall k, freq hq p k = freq h p k) /\ iterate hq p = iterate h p)
  /\ ((forall k, freq hp (clone p) k = freq h (clone p) k)
      /\ iterate hp (clone p) = iterate h (clone p)).
Proof.
  intros Hp Hq Hp'. split; [|split].
  - repeat split; reflexivity.
  - by eapply profile_frame.
  - eapply profile_frame; [|done]. by rewrite clone_base.
Qed.

Lemma clone_is_independent_witness :
  let h := Fixtures.shared_heap in
  let p := Fixtures.original in
  let hq := Fixtures.after_clone_ops.1 in
  let hp := Fixtures.after_original_ops.1 in
  ((forall k, freq h (clone p) k = freq h p k)
   /\ n (clone p) = n p /\ size (clone p) = size p
   /\ iterate h (clone p) = iterate h p)
  /\ ((forall k, freq hq p k = freq h p k) /\ iterate hq p = iterate h p)
  /\ ((forall k, freq hp (clone p) k = freq h (clone p) k)
      /\ iterate hp (clone p) = iterate h (clone p)).
Proof.
  apply (clone_is_independent false Fixtures.shared_heap
           Fixtures.after_clone_ops.1 Fixtures.after_original_ops.1
           Fixtures.original Fixtures.after_clone_ops.2 Fixtures.after_original_ops.2
           Fixtures.clone_ops Fixtures.original_ops).
  - vm_compute. eauto.
  - vm_compute. reflexivity.
  - vm_compute. reflexivity.
Defined.

End CloneIndependence.

Section ProfileDefects.
Import NgramProfile Fixtures.

(** C1, on the profile of "abc" after [update({("abd", +1)})]: with the
    final [apply()] the iteration is that of the plain map, [("abc", 1);
    ("abd", 1)]; without it the iterator steps over the pending entry and
    the iteration is [("abc", 1)] alone. *)
Theorem iteration_without_apply_loses_entry (NDEBUG : bool) :
  let r := update NDEBUG abc.1 abc.2 [(key "abd", 1)] in
  effective abc.1 abc.2 = Some {[key "abc" := 1]}
  /\ nonzero_entries (plain_update {[key "abc" := 1]} [(key "abd", 1)])
     = [(key "abc", 1); (key "abd", 1)]
  /\ then_iterate (then_apply r) = Some [(key "abc", 1); (key "abd", 1)]
  /\ then_iterate r = Some [(key "abc", 1)].
Proof. destruct NDEBUG; vm_compute; repeat split; reflexivity. Qed.

(** On the same profile, after [updateFromStringRange("abc", "abd")] the
    iteration without [apply()] also visits the n-gram whose count fell to
    zero. *)
Lemma iteration_without_apply_visits_zero (NDEBUG : bool) :
  let r := updateFromStringRange NDEBUG abc.1 abc.2 (chars "abc") (chars "abd") in
  then_iterate (then_apply r) = Some [(key "abd", 1)]
  /\ then_iterate r = Some [(key "abc", 0); (key "abd", 1)].
Proof. destruct NDEBUG; vm_compute; split; reflexivity. Qed.

(** C2, on the three-byte text a, newline, b: generation succeeds with
    [n() = 1], and the one n-gram of the profile is packed from the bytes
    as they are, newline included, whereas [ngramFromStringRange] packs the
    same window with a space. *)
Theorem generateFromString_keeps_newline
    (normalizeText stripPosAnnotationsFromText : list ascii -> list ascii) :
  let '(h, p, text, ok) :=
    generateFromString normalizeText stripPosAnnotationsFromText [] empty
                       a_newline_b SKIP_NORMALIZATION in
  ok = true /\ text = a_newline_b /\ n p = 1
  /\ iterate h p = Some [(char2Ngram a_newline_b, 1)]
  /\ entries (count_all (windows a_newline_b)) = [(key "a b", 1)]
  /\ char2Ngram a_newline_b <> key "a b".
Proof. vm_compute. repeat split; try reflexivity. discriminate. Qed.

(** C6, on the profile of "abc" after [updateFromStringRange("abc",
    "xxxx")]: the only n-gram with a non-zero count is "xxx", and [size()]
    is 2, because the second occurrence of the new n-gram is counted
    again. *)
Theorem size_counts_new_ngram_twice (NDEBUG : bool) :
  let r := updateFromStringRange NDEBUG abc.1 abc.2 (chars "abc") (chars "xxxx") in
  then_size r = Some 2
  /\ then_distinct_nonzero r = Some 1
  /\ then_iterate (then_apply r) = Some [(key "xxx", 2)].
Proof. destruct NDEBUG; vm_compute; repeat split; reflexivity. Qed.

(** C9, with assertions enabled, on the profile of "abc": decrementing an
    n-gram that is not there returns normally with its pending count at
    [2^64 - 1], and decrementing "abc" twice returns normally with the
    total at [2^64 - 1]. *)
Theorem update_wraps_below_zero :
  then_freq (key "xyz") (update false abc.1 abc.2 [(key "xyz", -1)])
    = Some (2 ^ 64 - 1)
  /\ then_n (update false abc.1 abc.2 [(key "abc", -1); (key "abc", -1)])
     = Some (2 ^ 64 - 1)
  /\ then_freq (key "abc") (update false abc.1 abc.2 [(key "abc", -1); (key "abc", -1)])
     = Some (2 ^ 64 - 1).
Proof. vm_compute. repeat split; reflexivity. Qed.

End ProfileDefects.

(** ** Diff-strings *)

Section DiffStringHash.
Import DiffString.
Variable MD5 : list ascii -> list ascii.
Hypothesis MD5_length : forall text, length (MD5 text) = MD5_DIGEST_LENGTH.
Variable NDEBUG : bool.

Lemma updateHash_MD5 (text : list ascii) : updateHash MD5 text = MD5 text.
Proof.
  unfold updateHash, std_copy. rewrite MD5_length. simpl. apply app_nil_r.
Qed.







End DiffStringHash.

Lemma toy_digest_length (text : list ascii) :
  length (Fixtures.toy_digest text) = DiffString.MD5_DIGEST_LENGTH.
Proof.
  unfold Fixtures.toy_digest. rewrite length_take, length_app, repeat_length.
  unfold DiffString.MD5_DIGEST_LENGTH. lia.
Qed.


Example hello_is_howdy :
  DiffString.string false Fixtures.hello = Some (chars "howdy there")
  /\ DiffString.string false Fixtures.howdy = Some (chars "howdy there").
Proof. vm_compute. split; reflexivity. Qed.

(** ** The regression filter of [updateSuccessor] *)

Section RegressionFilter.
Import ObfuscationOperator.

Lemma find_None (needle : list ascii) :
  forall hay, find hay needle = None <-> ~ occurs_in needle hay.
Proof.
  induction hay as [|a hay IH]; simpl.
  - case_bool_decide as Hpre.
    + split; [done|]. intros Hno. destruct Hno. destruct Hpre as [k Hk].
      exists [], k. exact Hk.
    + split; [|done]. intros _ (pre & post & Heq). apply Hpre.
      symmetry in Heq. apply app_eq_nil in Heq as [-> Heq].
      apply app_eq_nil in Heq as [-> _]. done.
  - case_bool_decide as Hpre.
    + split; [done|]. intros Hno. destruct Hno. destruct Hpre as [k Hk].
      exists [], k. exact Hk.
    + rewrite fmap_None, IH. split.
      * intros Hno (pre & post & Heq). destruct pre as [|b pre]; simpl in Heq.
        -- apply Hpre. exists post. done.
        -- injection Heq as -> ->. apply Hno. by exists pre, post.
      * intros Hno (pre & post & ->). apply Hno. by exists (a :: pre), post.
Qed.

(** The test that [updateSuccessor] makes, on the text it builds from its
    arguments: an edit whose window of that text still holds the focus
    n-gram is refused, with the successor state and the store untouched;
    an edit that is accepted leaves a window of that text without the focus
    n-gram, and the accepted successor carries the hash of that text. *)
Theorem updateSuccessor_filters_regression
    (MD5 : list ascii -> list ascii) (NDEBUG : bool) (h : NgramProfile.Heap)
    (origState successor : State.t) (focusPoint : FocusPoint)
    (editStart editEnd : nat) (update : list ascii) :
  let window := successor_window (text focusPoint) editStart editEnd update in
  let newText := successor_text (text focusPoint) editStart editEnd update in
  (occurs_in (focus_ngram focusPoint) window ->
   updateSuccessor MD5 NDEBUG h origState successor focusPoint editStart editEnd update
   = Some (h, successor, false))
  /\ (forall h' successor',
        updateSuccessor MD5 NDEBUG h origState successor focusPoint editStart editEnd update
        = Some (h', successor', true) ->
        ~ occurs_in (focus_ngram focusPoint) window
        /\ State.hashValue successor' = DiffString.updateHash MD5 newText).
Proof.
  intros window newText. unfold updateSuccessor.
  rewrite !Nat.max_0_r.
  fold (focus_ngram focusPoint).
  change (take editStart (text focusPoint) ++ update ++ drop editEnd (text focusPoint))
    with newText.
  change (range (editStart - ORDER)
            (Nat.min (editStart + length update + ORDER) (length newText)) newText)
    with window.
  case_bool_decide as Hfind.
  - split; [done|]. intros h' successor' [= _ _].
  - assert (find window (focus_ngram focusPoint) = None) as Hnone.
    { destruct (find window (focus_ngram focusPoint)); [|done]. by destruct Hfind. }
    apply find_None in Hnone. split; [done|].
    intros h' successor'.
    destruct (NgramProfile.updateFromStringRange _ _ _ _ _) as [[h1 p1]|]; simpl; [|done].
    intros [= <- <-]. split; [done|]. reflexivity.
Qed.

End RegressionFilter.

(** On "the cat sat" with the focus on "cat": replacing the word by "dog"
    is accepted, replacing it by "cat" again is refused. *)
Lemma updateSuccessor_filters_regression_witness :
  let st := Fixtures.state_of Fixtures.the_cat in
  let call := ObfuscationOperator.updateSuccessor Fixtures.toy_digest false
                st.1 st.2 Fixtures.blank_state Fixtures.focus_cat 4 7 in
  (exists h' successor', call (chars "dog") = Some (h', successor', true))
  /\ ~ ObfuscationOperator.occurs_in (chars "cat") (chars "he dog sa")
  /\ call (chars "cat") = Some (st.1, Fixtures.blank_state, false).
Proof.
  pose proof (updateSuccessor_filters_regression Fixtures.toy_digest false
                (Fixtures.state_of Fixtures.the_cat).1
                (Fixtures.state_of Fixtures.the_cat).2
                Fixtures.blank_state Fixtures.focus_cat 4 7) as Hfilter.
  split; [|split].
  - vm_compute. eauto.
  - destruct (ObfuscationOperator.updateSuccessor Fixtures.toy_digest false
                (Fixtures.state_of Fixtures.the_cat).1
                (Fixtures.state_of Fixtures.the_cat).2
                Fixtures.blank_state Fixtures.focus_cat 4 7 (chars "dog"))
      as [[[h' successor'] accepted]|] eqn:Hcall; [|by vm_compute in Hcall].
    assert (accepted = true) as -> by (vm_compute in Hcall; congruence).
    destruct (Hfilter (chars "dog")) as [_ Haccepted].
    destruct (Haccepted h' successor' Hcall) as [Hno _]. exact Hno.
  - apply (Hfilter (chars "cat")).
    exists (chars "he "), (chars " sa"). vm_compute. reflexivity.
Defined.


(** The text of an accepted successor. *)
Section SuccessorText.
Import ObfuscationOperator.
Variable MD5 : list ascii -> list ascii.
Variable NDEBUG : bool.

Lemma apply_edits_snoc (edits : list DiffString.Edit) (e : DiffString.Edit) :
  forall (s t : list ascii),
    DiffString.apply_edits NDEBUG s edits = Some t ->
    DiffString.apply_edits NDEBUG s (edits ++ [e]) = DiffString.apply_edit NDEBUG t e.
Proof.
  induction edits as [|e0 edits IH]; simpl; intros s t.
  - intros [= ->]. by destruct (DiffString.apply_edit NDEBUG t e).
  - destruct (DiffString.apply_edit NDEBUG s e0) as [s'|]; simpl; [|done]. apply IH.
Qed.

(** Replacing the old window of the text by the new window of the
    successor text gives the successor text. *)
Lemma window_splice (t u : list ascii) (a e : nat) :
  (a <= e <= length t)%nat ->
  let newText := successor_text t a e u in
  let ob := (a - ORDER)%nat in
  let oe := Nat.min (e + ORDER) (length t) in
  let ne := Nat.min (a + length u + ORDER) (length newText) in
  take ob t ++ range ob ne newText ++ drop oe t = newText.
Proof.
  intros Hae newText ob oe ne.
  assert (length newText = (a + length u + (length t - e))%nat) as Hlen.
  { unfold newText, successor_text. rewrite !length_app, length_take, length_drop. lia. }
  assert (take ob t = take ob newText) as ->.
  { unfold newText, successor_text. rewrite take_app_le by (rewrite length_take; lia).
    rewrite take_take. f_equal. lia. }
  assert (drop oe t = drop ne newText) as ->.
  { unfold newText, successor_text in *. subst oe ne. rewrite Hlen.
    destruct (decide (e + ORDER <= length t)%nat) as [Hfit|Hshort].
    - rewrite !Nat.min_l by lia.
      rewrite app_assoc.
      rewrite drop_app_ge by (rewrite length_app, length_take; lia).
      rewrite length_app, length_take, drop_drop. f_equal. lia.
    - rewrite !Nat.min_r by lia.
      rewrite drop_ge by lia. symmetry. apply drop_ge.
      rewrite !length_app, length_take, length_drop. lia. }
  unfold range.
  assert (ob <= ne)%nat by (subst ob ne; lia).
  rewrite (app_assoc (take ob newText)), take_take_drop.
  replace (ob + (ne - ob))%nat with ne by lia. apply take_drop.
Qed.

(** The text an accepted successor materializes to is the successor text,
    when the focus text is the text of the original state, the edit lies in
    it and spans fewer than 250 characters, and offsets fit 32 bits. *)
Lemma accepted_successor_text (h h' : NgramProfile.Heap) (origState successor successor' : State.t)
    (focusPoint : FocusPoint) (editStart editEnd : nat) (update : list ascii) :
  DiffString.string NDEBUG (State.text origState) = Some (text focusPoint) ->
  (editStart <= editEnd <= length (text focusPoint))%nat ->
  (editStart - ORDER < length (text focusPoint))%nat ->
  (editEnd - editStart < 250)%nat ->
  Z.of_nat (length (text focusPoint)) < 2 ^ 32 ->
  updateSuccessor MD5 NDEBUG h origState successor focusPoint editStart editEnd update
  = Some (h', successor', true) ->
  DiffString.string NDEBUG (State.text successor')
  = Some (successor_text (text focusPoint) editStart editEnd update).
Proof.
  intros Hsrc Hae Hstart Hspan Hfit. unfold updateSuccessor.
  rewrite !Nat.max_0_r.
  fold (successor_text (text focusPoint) editStart editEnd update).
  set (t := text focusPoint) in *.
  set (newText := successor_text t editStart editEnd update).
  destruct (bool_decide _); [done|].
  destruct (NgramProfile.updateFromStringRange _ _ _ _ _) as [[h1 p1]|]; simpl; [|done].
  intros [= <- <-]. unfold State.text, State.setNgramProfile; simpl.
  unfold DiffString.string, DiffString.edit_with_text; simpl.
  rewrite (apply_edits_snoc _ _ _ t Hsrc).
  set (ob := (editStart - ORDER)%nat).
  set (oe := Nat.min (editEnd + ORDER) (length t)).
  unfold DiffString.apply_edit, DiffString.Edit_ctor; simpl.
  assert (ob <= oe)%nat by (subst ob oe; unfold ORDER, NgramProfile.ORDER; lia).
  assert (oe <= length t)%nat by (subst oe; lia).
  rewrite (Z.mod_small (Z.of_nat ob)) by lia.
  rewrite (Z.mod_small (Z.of_nat oe - Z.of_nat ob))
    by (subst ob oe; unfold ORDER, NgramProfile.ORDER in *; lia).
  replace (Z.of_nat ob + (Z.of_nat oe - Z.of_nat ob)) with (Z.of_nat oe) by lia.
  rewrite (Z.mod_small (Z.of_nat oe)) by lia.
  assert (((Z.of_nat ob <? Z.of_nat (length t)) && (Z.of_nat oe <=? Z.of_nat (length t))) = true)
    as -> by (apply andb_true_iff; split; lia).
  rewrite orb_true_r. simpl.
  assert ((Z.of_nat (length t) <? Z.of_nat ob) = false) as -> by lia.
  rewrite Nat2Z.id. replace (Z.to_nat (Z.of_nat oe - Z.of_nat ob)) with (oe - ob)%nat by lia.
  replace (ob + (oe - ob))%nat with oe by lia.
  f_equal.
  rewrite take_app_le by (rewrite length_take; lia).
  rewrite take_take, Nat.min_id.
  rewrite drop_app_length' by (rewrite length_take; lia).
  apply (window_splice t update editStart editEnd Hae).
Qed.

End SuccessorText.

(** ** The OPEN list *)

(** The order of the cost values. *)
Section FloatOrder.

Ltac sf_cases :=
  repeat match goal with
  | x : spec_float |- _ => destruct x as [[]|[]| |[] ? ?]
  end;
  simpl; try done;
  change (Pos.compare_cont Eq) with Pos.compare in *;
  repeat match goal with
  | |- context [Z.compare ?a ?b] => destruct (Z.compare_spec a b); simpl; try done; try lia
  | |- context [Pos.compare ?a ?b] => destruct (Pos.compare_spec a b); simpl; try done; try lia
  end.

Lemma SFltb_asym (a b : spec_float) : SFltb a b = true -> SFltb b a = false.
Proof. unfold SFltb, SFcompare. sf_cases. Qed.

Lemma SFltb_negtrans (a b c : spec_float) :
  a <> S754_nan -> b <> S754_nan -> c <> S754_nan ->
  SFltb a b = false -> SFltb b c = false -> SFltb a c = false.
Proof. unfold SFltb, SFcompare. sf_cases. Qed.

Lemma SFleb_of_not_ltb (a b : spec_float) :
  a <> S754_nan -> b <> S754_nan -> SFltb b a = false -> SFleb a b = true.
Proof. unfold SFltb, SFleb, SFcompare. sf_cases. Qed.

End FloatOrder.

Section HeapFacts.
Import OpenList.
Context {A : Type} (comp : A -> A -> bool) (ok : A -> Prop).
Hypothesis Hsw : strict_weak_on comp ok.

Lemma comp_irrefl (x : A) : ok x -> comp x x = false.
Proof.
  intros Hx. destruct (comp x x) eqn:Hc; [|done].
  destruct Hsw as [Hasym _]. by rewrite (Hasym x x Hx Hx Hc) in Hc.
Qed.

(** The first element of a heap is ordered before no other. *)
Lemma heap_top_least (v : list A) (top : A) :
  is_heap comp v -> Forall ok v -> v !! 0%nat = Some top ->
  forall x, x ∈ v -> comp top x = false.
Proof.
  intros Hheap Hok Htop x Hx.
  apply list_elem_of_lookup in Hx as [i Hi].
  revert x Hi. induction (lt_wf i) as [i _ IH]. intros x Hi.
  destruct (decide (i = 0%nat)) as [->|Hpos].
  - rewrite Htop in Hi. injection Hi as <-. apply comp_irrefl.
    rewrite Forall_forall in Hok. apply Hok. eapply list_elem_of_lookup_2, Htop.
  - assert ((i - 1) / 2 < i)%nat as Hlt.
    { apply Nat.Div0.div_lt_upper_bound. lia. }
    destruct (lookup_lt_is_Some_2 v ((i - 1) / 2)%nat) as [y Hy].
    { apply lookup_lt_Some in Hi. lia. }
    destruct Hsw as [_ Htrans].
    rewrite Forall_forall in Hok.
    apply (Htrans top y x).
    + apply Hok. eapply list_elem_of_lookup_2, Htop.
    + apply Hok. eapply list_elem_of_lookup_2, Hy.
    + apply Hok. eapply list_elem_of_lookup_2, Hi.
    + by apply (IH _ Hlt).
    + apply (Hheap i x y); [lia | done | done].
Qed.

End HeapFacts.

Section SortingHeaps.
Import OpenList.
Context {A : Type} (comp : A -> A -> bool) (ok : A -> Prop).
Hypothesis Hsw : strict_weak_on comp ok.

Local Abbreviation R := (fun a b : A => comp a b = false).

Lemma sorted_insert_perm (x : A) (v : list A) : sorted_insert comp x v ≡ₚ x :: v.
Proof.
  induction v as [|y v IH]; simpl; [done|].
  destruct (comp x y); [|done]. rewrite IH. apply Permutation_swap.
Qed.

Lemma sorting_make_heap_perm (v : list A) : sorting_make_heap A comp v ≡ₚ v.
Proof.
  induction v as [|x v IH]; simpl; [done|].
  fold (sorting_make_heap A comp v). by rewrite sorted_insert_perm, IH.
Qed.

Lemma sorted_insert_sorted (x : A) (v : list A) :
  ok x -> Forall ok v -> StronglySorted R v -> StronglySorted R (sorted_insert comp x v).
Proof.
  destruct Hsw as [Hasym Htrans].
  intros Hx Hv Hs. induction Hs as [|y v Hs IH Hy]; simpl.
  - repeat constructor.
  - apply Forall_cons in Hv as [Hoky Hv].
    destruct (comp x y) eqn:Hxy.
    + constructor; [by apply IH|].
      rewrite sorted_insert_perm. constructor; [|done]. by apply Hasym.
    + constructor; [by constructor|].
      constructor; [done|].
      rewrite Forall_forall in Hy, Hv |- *. intros z Hz.
      apply (Htrans x y z); auto.
Qed.

Lemma sorting_make_heap_sorted (v : list A) :
  Forall ok v -> StronglySorted R (sorting_make_heap A comp v).
Proof.
  induction v as [|x v IH]; simpl; intros Hv.
  - constructor.
  - apply Forall_cons in Hv as [Hx Hv]. fold (sorting_make_heap A comp v).
    apply sorted_insert_sorted; [done| |by apply IH].
    by rewrite sorting_make_heap_perm.
Qed.

Lemma sorted_lookup (v : list A) :
  StronglySorted R v ->
  forall (i j : nat) (x y : A), (j < i)%nat -> v !! j = Some y -> v !! i = Some x -> comp y x = false.
Proof.
  induction 1 as [|z v Hs IH Hz]; intros i j x y Hlt Hj Hi.
  - by rewrite lookup_nil in Hi.
  - destruct i as [|i]; [lia|]. simpl in Hi. destruct j as [|j]; simpl in Hj.
    + injection Hj as ->. rewrite Forall_forall in Hz. apply Hz.
      by eapply list_elem_of_lookup_2.
    + apply (IH i j); [lia|done..].
Qed.

Lemma sorted_is_heap (v : list A) : StronglySorted R v -> is_heap comp v.
Proof.
  intros Hs i x y Hpos Hx Hy. apply (sorted_lookup v Hs i ((i - 1) / 2)%nat); [|done..].
  apply Nat.Div0.div_lt_upper_bound. lia.
Qed.

End SortingHeaps.

(** Sorting meets the requirements on the heap algorithms. *)
Lemma sorting_heap_algorithms :
  OpenList.heap_algorithms
    OpenList.sorting_push_heap OpenList.sorting_pop_heap OpenList.sorting_make_heap.
Proof.
  split.
  - intros A comp ok v x Hsw Hok _. unfold OpenList.sorting_push_heap. split.
    + by eapply sorted_is_heap, sorting_make_heap_sorted.
    + apply sorting_make_heap_perm.
  - intros A comp ok top v Hsw Hok _. simpl.
    exists (OpenList.sorting_make_heap A comp v). split; [done|]. split.
    + apply Forall_cons in Hok as [_ Hok].
      by eapply sorted_is_heap, sorting_make_heap_sorted.
    + apply sorting_make_heap_perm.
  - intros A comp ok v Hsw Hok. split.
    + by eapply sorted_is_heap, sorting_make_heap_sorted.
    + apply sorting_make_heap_perm.
Qed.

Section OpenListFacts.
Import OpenList.
Context {State : Type} (compute_hash_ : State -> string).
Context (push_heap pop_heap make_heap : forall A : Type, (A -> A -> bool) -> list A -> list A).
Hypothesis Halg : heap_algorithms push_heap pop_heap make_heap.

Local Abbreviation Store := (list (Node.t State)).
Local Abbreviation valid σ := (fun p : nat => is_Some ((σ : Store) !! p)).

Lemma higher_cost_strict_weak (σ : Store) :
  costs_are_numbers State σ -> strict_weak_on (higher_cost_ State σ) (valid σ).
Proof.
  intros Hnum. unfold costs_are_numbers in Hnum. rewrite Forall_lookup in Hnum.
  split.
  - intros x y [nx Hx] [ny Hy]. unfold higher_cost_. rewrite Hx, Hy. apply SFltb_asym.
  - intros x y z [nx Hx] [ny Hy] [nz Hz]. unfold higher_cost_. rewrite Hx, Hy, Hz.
    intros Hxy Hyz.
    apply (SFltb_negtrans (Node.costF nz) (Node.costF ny) (Node.costF nx));
      eauto.
Qed.

Lemma consistent_empty (σ : Store) : consistent State compute_hash_ σ (empty_list).
Proof.
  unfold consistent, empty_list; simpl. split_and!.
  - intros i x y _ Hx. by rewrite lookup_nil in Hx.
  - constructor.
  - constructor.
  - intros k p. rewrite lookup_empty. split; [done|].
    intros [Hin _]. by apply not_elem_of_nil in Hin.
Qed.

Lemma hash_at_insert (σ : Store) (present : nat) (n p : Node.t State) (k : string) :
  σ !! present = Some p -> hash_at State compute_hash_ σ present = Some k ->
  compute_hash_ (Node.state n) = k ->
  forall q, hash_at State compute_hash_ (<[present := n]> σ) q
            = hash_at State compute_hash_ σ q.
Proof.
  intros Hp Hk Hn q. unfold hash_at in *.
  destruct (decide (q = present)) as [->|Hne].
  - rewrite list_lookup_insert_eq by (by eapply lookup_lt_Some).
    rewrite Hp in *. simpl in *. by rewrite Hn.
  - by rewrite list_lookup_insert_ne.
Qed.

Lemma valid_insert (σ : Store) (present : nat) (n : Node.t State) (q : nat) :
  is_Some (σ !! q) -> is_Some (<[present := n]> σ !! q).
Proof.
  intros Hq. apply lookup_lt_is_Some. rewrite length_insert.
  by apply lookup_lt_is_Some.
Qed.

(** [pushOrUpdate] on a consistent list. *)
Lemma pushOrUpdate_consistent (σ : Store) (ol : t) (node : nat) (n : Node.t State) :
  costs_are_numbers State σ -> consistent State compute_hash_ σ ol ->
  σ !! node = Some n ->
  exists σ' ol' inserted,
    pushOrUpdate State compute_hash_ push_heap make_heap σ ol node = Some (σ', ol', inserted)
    /\ costs_are_numbers State σ' /\ consistent State compute_hash_ σ' ol'
    /\ (inserted = true <->
        ~ exists w, w ∈ nodes_heap_ ol
                    /\ hash_at State compute_hash_ σ w = Some (compute_hash_ (Node.state n)))
    /\ (inserted = true -> σ' = σ /\ nodes_heap_ ol' ≡ₚ nodes_heap_ ol ++ [node])
    /\ (inserted = false ->
        nodes_heap_ ol' ≡ₚ nodes_heap_ ol
        /\ exists w p, w ∈ nodes_heap_ ol /\ σ !! w = Some p
             /\ compute_hash_ (Node.state p) = compute_hash_ (Node.state n)
             /\ σ' = if SFltb (Node.costG n) (Node.costG p) then <[w := n]> σ else σ).
Proof.
  intros Hnum (Hheap & Hnodup & Hvalid & Hmap) Hnode.
  unfold pushOrUpdate. rewrite Hnode. simpl.
  set (k := compute_hash_ (Node.state n)).
  assert (hash_at State compute_hash_ σ node = Some k) as Hhash_node.
  { unfold hash_at. by rewrite Hnode. }
  destruct (nodes_map_ ol !! k) as [present|] eqn:Hk.
  - (* a node with this hash is present *)
    apply Hmap in Hk as Hpresent. destruct Hpresent as [Hin Hhash].
    assert (exists p, σ !! present = Some p) as [p Hp].
    { rewrite Forall_forall in Hvalid. by apply Hvalid. }
    rewrite Hp. simpl.
    assert (compute_hash_ (Node.state p) = k) as Hpk.
    { unfold hash_at in Hhash. rewrite Hp in Hhash. by injection Hhash. }
    destruct (SFltb (Node.costG n) (Node.costG p)) eqn:Hless.
    + set (σ' := <[present := n]> σ).
      assert (costs_are_numbers State σ') as Hnum'.
      { apply Forall_insert; [done|]. unfold costs_are_numbers in Hnum.
        rewrite Forall_lookup in Hnum. by eapply Hnum. }
      assert (Forall (valid σ') (nodes_heap_ ol)) as Hvalid'.
      { eapply Forall_impl; [exact Hvalid|]. intros q Hq. by apply valid_insert. }
      destruct (make_heap_spec _ _ _ Halg nat (higher_cost_ State σ') (valid σ')
                  (nodes_heap_ ol) (higher_cost_strict_weak σ' Hnum') Hvalid')
        as [Hheap' Hperm].
      eexists σ', _, false. split; [reflexivity|]. split; [done|]. split; [|split; [|split]].
      * unfold consistent; simpl. split_and!.
        -- done.
        -- by rewrite Hperm.
        -- by rewrite Hperm.
        -- intros k' q. rewrite Hperm. unfold σ'.
           rewrite (hash_at_insert σ present n p k Hp Hhash eq_refl q).
           apply Hmap.
      * split; [done|]. intros Hno. destruct Hno. by exists present.
      * done.
      * intros _. split; [done|]. exists present, p. by rewrite Hless.
    + eexists σ, ol, false. split; [reflexivity|]. split; [done|]. split; [|split; [|split]].
      * done.
      * split; [done|]. intros Hno. destruct Hno. by exists present.
      * done.
      * intros _. split; [done|]. exists present, p. by rewrite Hless.
  - (* no node with this hash *)
    assert (node ∉ nodes_heap_ ol) as Hfresh.
    { intros Hin. assert (nodes_map_ ol !! k = Some node) as Hc by (by apply Hmap).
      by rewrite Hk in Hc. }
    assert (Forall (valid σ) (nodes_heap_ ol ++ [node])) as Hvalid'.
    { apply Forall_app. split; [done|]. by repeat constructor. }
    destruct (push_heap_spec _ _ _ Halg nat (higher_cost_ State σ) (valid σ)
                (nodes_heap_ ol) node (higher_cost_strict_weak σ Hnum) Hvalid' Hheap)
      as [Hheap' Hperm].
    eexists σ, _, true. split; [reflexivity|]. split; [done|]. split; [|split; [|split]].
    + unfold consistent; simpl. split_and!.
      * done.
      * rewrite Hperm. apply NoDup_app. split_and!; [done| |apply NoDup_singleton].
        intros x Hx Hx'. apply list_elem_of_singleton in Hx' as ->. done.
      * by rewrite Hperm.
      * intros k' q. rewrite Hperm, elem_of_app, list_elem_of_singleton.
        destruct (decide (k' = k)) as [->|Hne].
        -- rewrite lookup_insert_eq. split.
           ++ intros [= <-]. split; [by right | done].
           ++ intros [[Hin| ->] Hh]; [|done].
              assert (nodes_map_ ol !! k = Some q) as Hc by (by apply Hmap).
              by rewrite Hk in Hc.
        -- rewrite lookup_insert_ne by done. rewrite Hmap. split.
           ++ intros [Hin Hh]. split; [by left | done].
           ++ intros [[Hin| ->] Hh]; [done|].
              rewrite Hhash_node in Hh. by injection Hh.
    + split; [|done]. intros _ (w & Hw & Hh).
      assert (nodes_map_ ol !! k = Some w) as Hc by (by apply Hmap). by rewrite Hk in Hc.
    + done.
    + done.
Qed.


(** [pop] on a consistent list that is not empty. *)
Lemma pop_consistent (σ : Store) (ol : t) :
  costs_are_numbers State σ -> consistent State compute_hash_ σ ol ->
  nodes_heap_ ol <> [] ->
  exists ol' v,
    pop State compute_hash_ pop_heap σ ol = Some (ol', v)
    /\ consistent State compute_hash_ σ ol'
    /\ nodes_heap_ ol ≡ₚ v :: nodes_heap_ ol'
    /\ forall w, w ∈ nodes_heap_ ol' -> costF_le State σ v w.
Proof.
  intros Hnum (Hheap & Hnodup & Hvalid & Hmap) Hne.
  unfold pop. rewrite bool_decide_eq_false_2 by done.
  destruct (nodes_heap_ ol) as [|top rest] eqn:Hol; [done|].
  destruct (pop_heap_spec _ _ _ Halg nat (higher_cost_ State σ) (valid σ) top rest
              (higher_cost_strict_weak σ Hnum) Hvalid Hheap)
    as (w & Hpop & Hheap' & Hperm).
  rewrite Hpop, last_snoc, removelast_last. simpl.
  apply Forall_cons in Hvalid as [[ntop Htop] Hvalid].
  apply NoDup_cons in Hnodup as [Hfresh Hnodup].
  rewrite Htop. simpl.
  eexists _, top. split; [reflexivity|]. split; [|split].
  - unfold consistent; simpl. split_and!.
    + done.
    + by rewrite Hperm.
    + by rewrite Hperm.
    + intros k q. rewrite lookup_delete_Some, Hmap, Hperm, elem_of_cons.
      assert (hash_at State compute_hash_ σ top = Some (compute_hash_ (Node.state ntop)))
        as Hhtop by (unfold hash_at; by rewrite Htop).
      split.
      * intros (Hk & [->|Hin] & Hh); [|done]. rewrite Hhtop in Hh. by injection Hh.
      * intros [Hin Hh]. split_and!; [|by right|done].
        intros <-.
        assert (nodes_map_ ol !! compute_hash_ (Node.state ntop) = Some top) as H1.
        { apply Hmap. rewrite elem_of_cons. by split; [left|]. }
        assert (nodes_map_ ol !! compute_hash_ (Node.state ntop) = Some q) as H2.
        { apply Hmap. rewrite elem_of_cons. by split; [right|]. }
        rewrite H1 in H2. injection H2 as ->. done.
  - simpl. by rewrite Hperm.
  - simpl. intros x Hx.
    assert (higher_cost_ State σ top x = false) as Hle.
    { apply (heap_top_least (higher_cost_ State σ) (valid σ)
               (higher_cost_strict_weak σ Hnum) (top :: rest) top Hheap).
      - constructor; [by exists ntop | done].
      - done.
      - rewrite elem_of_cons. right. by rewrite <- Hperm. }
    assert (is_Some (σ !! x)) as [nx Hnx].
    { rewrite Forall_forall in Hvalid. apply Hvalid. by rewrite <- Hperm. }
    unfold higher_cost_ in Hle. rewrite Htop, Hnx in Hle.
    exists ntop, nx. split_and!; [done..|].
    unfold costs_are_numbers in Hnum. rewrite Forall_lookup in Hnum.
    apply SFleb_of_not_ltb; eauto.
Qed.

Lemma step_consistent (σ σ' : Store) (ol ol' : t) (c : call) (r : returned) :
  costs_are_numbers State σ -> consistent State compute_hash_ σ ol ->
  step State compute_hash_ push_heap pop_heap make_heap σ ol c = Some (σ', ol', r) ->
  costs_are_numbers State σ' /\ consistent State compute_hash_ σ' ol'.
Proof.
  intros Hnum Hcons. destruct c as [node|]; simpl.
  - destruct (σ !! node) as [n|] eqn:Hnode.
    + destruct (pushOrUpdate_consistent σ ol node n Hnum Hcons Hnode)
        as (σ1 & ol1 & b & -> & Hnum1 & Hcons1 & _). simpl. by intros [= <- <- _].
    + unfold pushOrUpdate. by rewrite Hnode.
  - destruct (decide (nodes_heap_ ol = [])) as [Hempty|Hne].
    + unfold pop. by rewrite bool_decide_eq_true_2.
    + destruct (pop_consistent σ ol Hnum Hcons Hne) as (ol1 & v & -> & Hcons1 & _).
      simpl. by intros [= <- <- _].
Qed.

Lemma run_consistent (cs : list call) :
  forall (σ σ' : Store) (ol ol' : t),
    costs_are_numbers State σ -> consistent State compute_hash_ σ ol ->
    run State compute_hash_ push_heap pop_heap make_heap σ ol cs = Some (σ', ol') ->
    costs_are_numbers State σ' /\ consistent State compute_hash_ σ' ol'.
Proof.
  induction cs as [|c cs IH]; simpl; intros σ σ' ol ol' Hnum Hcons.
  - by intros [= <- <-].
  - destruct (step _ _ _ _ _ σ ol c) as [[[σ1 ol1] r]|] eqn:Hstep; simpl; [|done].
    destruct (step_consistent _ _ _ _ _ _ Hnum Hcons Hstep) as [Hnum1 Hcons1].
    by apply IH.
Qed.


(** C4: given heap algorithms that meet the standard's requirements and
    costs that are not NaN, after any calls on a list that started empty, [pop] on a list that
    is not empty returns a node of the list whose [costF] is at most the
    [costF] of every node left in it; [pushOrUpdate] returns [true], and
    appends the node, exactly when no node of the list has the same state
    hash; otherwise it keeps the nodes of the list and overwrites the one
    with that hash exactly when the [costG] of the new node is lower. *)
Theorem open_list_pops_least_and_inserts_once (σ0 σ : Store) (ol : t) (cs : list call) :
  costs_are_numbers State σ0 ->
  run State compute_hash_ push_heap pop_heap make_heap σ0 empty_list cs = Some (σ, ol) ->
  (nodes_heap_ ol <> [] ->
   exists ol' v,
     pop State compute_hash_ pop_heap σ ol = Some (ol', v)
     /\ nodes_heap_ ol ≡ₚ v :: nodes_heap_ ol'
     /\ forall w, w ∈ nodes_heap_ ol' -> costF_le State σ v w)
  /\ (forall node n, σ !! node = Some n ->
      exists σ' ol' inserted,
        pushOrUpdate State compute_hash_ push_heap make_heap σ ol node
        = Some (σ', ol', inserted)
        /\ (inserted = true <->
            ~ exists w, w ∈ nodes_heap_ ol
                        /\ hash_at State compute_hash_ σ w
                           = Some (compute_hash_ (Node.state n)))
        /\ (inserted = true -> σ' = σ /\ nodes_heap_ ol' ≡ₚ nodes_heap_ ol ++ [node])
        /\ (inserted = false ->
            nodes_heap_ ol' ≡ₚ nodes_heap_ ol
            /\ exists w p, w ∈ nodes_heap_ ol /\ σ !! w = Some p
                 /\ compute_hash_ (Node.state p) = compute_hash_ (Node.state n)
                 /\ σ' = if SFltb (Node.costG n) (Node.costG p)
                         then <[w := n]> σ else σ)).
Proof.
  intros Hnum Hrun.
  destruct (run_consistent cs σ0 σ empty_list ol Hnum (consistent_empty σ0) Hrun)
    as [Hnum' Hcons].
  split.
  - intros Hne.
    destruct (pop_consistent σ ol Hnum' Hcons Hne) as (ol' & v & Hpop & _ & Hperm & Hle).
    by exists ol', v.
  - intros node n Hnode.
    destruct (pushOrUpdate_consistent σ ol node n Hnum' Hcons Hnode)
      as (σ' & ol' & b & Hpush & _ & _ & Hiff & Hins & Hupd).
    by exists σ', ol', b.
Qed.

End OpenListFacts.

Lemma open_list_pops_least_and_inserts_once_witness :
  let σ := Fixtures.open_after.1 in
  let ol := Fixtures.open_after.2 in
  (OpenList.nodes_heap_ ol <> [] ->
   exists ol' v,
     OpenList.pop string id OpenList.sorting_pop_heap σ ol = Some (ol', v)
     /\ OpenList.nodes_heap_ ol ≡ₚ v :: OpenList.nodes_heap_ ol'
     /\ forall w, w ∈ OpenList.nodes_heap_ ol' -> OpenList.costF_le string σ v w)
  /\ (forall node n, σ !! node = Some n ->
      exists σ' ol' inserted,
        OpenList.pushOrUpdate string id OpenList.sorting_push_heap
          OpenList.sorting_make_heap σ ol node = Some (σ', ol', inserted)
        /\ (inserted = true <->
            ~ exists w, w ∈ OpenList.nodes_heap_ ol
                        /\ OpenList.hash_at string id σ w = Some (id (Node.state n)))
        /\ (inserted = true ->
            σ' = σ /\ OpenList.nodes_heap_ ol' ≡ₚ OpenList.nodes_heap_ ol ++ [node])
        /\ (inserted = false ->
            OpenList.nodes_heap_ ol' ≡ₚ OpenList.nodes_heap_ ol
            /\ exists w p, w ∈ OpenList.nodes_heap_ ol /\ σ !! w = Some p
                 /\ id (Node.state p) = id (Node.state n)
                 /\ σ' = if SFltb (Node.costG n) (Node.costG p)
                         then <[w := n]> σ else σ)).
Proof.
  apply (open_list_pops_least_and_inserts_once id
           OpenList.sorting_push_heap OpenList.sorting_pop_heap OpenList.sorting_make_heap
           sorting_heap_algorithms
           Fixtures.open_store Fixtures.open_after.1 Fixtures.open_after.2
           Fixtures.open_calls).
  - unfold OpenList.costs_are_numbers, Fixtures.open_store.
    repeat constructor; vm_compute; discriminate.
  - vm_compute. reflexivity.
Defined.

(** In that run the third call overwrote the first node with the cheaper
    node of the same hash, and the first [pop] returns it. *)
Example open_list_run :
  Fixtures.open_after.1 !! 0%nat = Some (Fixtures.node "a" 1 1)
  /\ OpenList.nodes_heap_ Fixtures.open_after.2 = [0; 1; 3]%nat
  /\ (fun r => r.2) <$> OpenList.pop string id OpenList.sorting_pop_heap
                          Fixtures.open_after.1 Fixtures.open_after.2 = Some 0%nat
  /\ Node.costF <$> Fixtures.open_after.1 = Fixtures.f32 <$> [2; 3; 2; 4].
Proof. vm_compute. repeat split; reflexivity. Qed.

(** ** The heuristic *)

(** Subtraction and comparison of [double] values. *)
Section DoubleFacts.

Lemma digits2_pos_bounds (m : positive) :
  2 ^ (Zpos (digits2_pos m) - 1) <= Zpos m < 2 ^ Zpos (digits2_pos m).
Proof.
  induction m as [m IH|m IH|]; simpl digits2_pos.
  - rewrite Pos2Z.inj_succ. replace (Z.succ (Zpos (digits2_pos m)) - 1) with
      (Z.succ (Zpos (digits2_pos m) - 1)) by lia.
    rewrite !Z.pow_succ_r by lia. lia.
  - rewrite Pos2Z.inj_succ. replace (Z.succ (Zpos (digits2_pos m)) - 1) with
      (Z.succ (Zpos (digits2_pos m) - 1)) by lia.
    rewrite !Z.pow_succ_r by lia. lia.
  - simpl. lia.
Qed.

Lemma iter_xO_shift (m d : positive) : Zpos (Pos.iter xO m d) = Zpos m * 2 ^ Zpos d.
Proof.
  induction d as [|d IH] using Pos.peano_ind.
  - simpl. lia.
  - rewrite Pos.iter_succ, Pos2Z.inj_succ, Z.pow_succ_r by lia.
    rewrite Pos2Z.inj_xO, IH. lia.
Qed.

Lemma bounded_digits (m : positive) (e : Z) :
  bounded prec emax m e = true ->
  Zpos m < 2 ^ prec /\ (SpecFloat.emin prec emax < e -> 2 ^ (prec - 1) <= Zpos m) /\ SpecFloat.emin prec emax <= e.
Proof.
  unfold bounded, canonical_mantissa, fexp. intros Hb.
  apply andb_prop in Hb as [Hc _]. apply Z.eqb_eq in Hc.
  pose proof (digits2_pos_bounds m) as [Hlo Hhi].
  split; [|split].
  - eapply Z.lt_le_trans; [exact Hhi|]. apply Z.pow_le_mono_r; lia.
  - intros He. replace (Zpos (digits2_pos m)) with prec in Hlo by lia. done.
  - lia.
Qed.

(** Aligning two canonical mantissas to the lower exponent keeps their order. *)
Lemma shl_align_le (mx my : positive) (ex ey : Z) :
  bounded prec emax mx ex = true -> bounded prec emax my ey = true ->
  ex < ey \/ (ex = ey /\ (mx <= my)%positive) ->
  Zpos (fst (shl_align mx ex (Z.min ex ey))) <= Zpos (fst (shl_align my ey (Z.min ex ey))).
Proof.
  intros Hx Hy Hle.
  apply bounded_digits in Hx as (Hxhi & _ & Hxe).
  apply bounded_digits in Hy as (_ & Hylo & _).
  unfold shl_align. destruct Hle as [Hlt|[-> Hm]].
  - rewrite Z.min_l by lia. rewrite Z.sub_diag.
    destruct (ex - ey) as [|d|d] eqn:Hd; try lia. simpl fst.
    rewrite iter_xO_shift.
    assert (2 ^ 1 <= 2 ^ Zpos d) by (apply Z.pow_le_mono_r; lia).
    assert (2 ^ prec = 2 ^ (prec - 1) * 2 ^ 1) as Hp by (rewrite <- Z.pow_add_r; [f_equal|..]; unfold prec; lia).
    specialize (Hylo ltac:(lia)). nia.
  - rewrite Z.min_id, Z.sub_diag. simpl. lia.
Qed.

Lemma binary_round_aux_sign (s : bool) (m e : Z) (l : location) :
  match binary_round_aux prec emax s m e l with
  | S754_zero s' | S754_infinity s' | S754_finite s' _ _ => s' = s
  | S754_nan => True
  end.
Proof.
  unfold binary_round_aux.
  destruct (shr_fexp prec emax m e l) as [mrs' e'].
  destruct (shr_fexp prec emax _ e' loc_Exact) as [mrs'' e''].
  destruct (shr_m mrs''); [done| |done]. by destruct (Z.leb _ _).
Qed.

Lemma binary_normalize_not_positive (m e : Z) :
  m <= 0 -> SFltb (S754_zero false) (binary_normalize prec emax m e false) = false.
Proof.
  intros Hm. destruct m as [|m|m]; [done|lia|].
  unfold binary_normalize, binary_round.
  destruct (shl_align m e _) as [mz ez].
  pose proof (binary_round_aux_sign true (Zpos mz) ez loc_Exact) as Hs.
  destruct (binary_round_aux prec emax true (Zpos mz) ez loc_Exact) as [s'|s'| |s' ? ?];
    try done; by subst s'.
Qed.

Lemma SFsub_not_positive (X Y : spec_float) :
  valid_binary X = true -> valid_binary Y = true -> SFleb X Y = true ->
  SFltb (S754_zero false) (SFsub prec emax X Y) = false.
Proof.
  destruct X as [sx|sx| |sx mx ex], Y as [sy|sy| |sy my ey]; intros Hx Hy Hle;
    try (by repeat match goal with s : bool |- _ => destruct s end).
  simpl valid_binary in Hx, Hy.
  unfold SFsub. apply binary_normalize_not_positive.
  change (IntDef.Z.min ex ey) with (Z.min ex ey).
  change IntDef.Z.sub with Z.sub.
  unfold SFleb, SFcompare in Hle.
  change (Pos.compare_cont Eq mx my) with (Pos.compare mx my) in Hle.
  destruct sx, sy; cbv [cond_Zopp]; change IntDef.Z.opp with Z.opp; try done.
  - (* both negative: the order of the magnitudes is reversed *)
    assert (ey < ex \/ (ey = ex /\ (my <= mx)%positive)) as Hord.
    { destruct (Z.compare_spec ex ey); try done; [|lia].
      right. split; [done|]. destruct (Pos.compare_spec mx my); try done; lia. }
    pose proof (shl_align_le my mx ey ex Hy Hx Hord) as Hal.
    rewrite (Z.min_comm ey ex) in Hal. lia.
  - assert (ex < ey \/ (ex = ey /\ (mx <= my)%positive)) as Hord.
    { destruct (Z.compare_spec ex ey); try done; [|lia].
      right. split; [done|]. destruct (Pos.compare_spec mx my); try done; lia. }
    pose proof (shl_align_le mx my ex ey Hx Hy Hord) as Hal. lia.
Qed.

(** In [double] arithmetic, [x <= y] leaves [x - y] not above zero. *)
Lemma sub_not_positive (x y : float) :
  PrimFloat.leb x y = true -> PrimFloat.ltb 0 (x - y) = false.
Proof.
  rewrite FloatAxioms.leb_spec, FloatAxioms.ltb_spec, FloatAxioms.sub_spec. intros Hle.
  apply SFsub_not_positive; [apply Prim2SF_valid..|done].
Qed.

End DoubleFacts.

Section CostFacts.
Import ComputeCostH.

Lemma std_max_positive (c x : float) :
  positive_double (Prim2SF c) -> positive_double (Prim2SF (std_max c x)).
Proof.
  intros Hc. unfold std_max. destruct (PrimFloat.ltb c x) eqn:Hlt; [|done].
  rewrite FloatAxioms.ltb_spec in Hlt. unfold SFltb, SFcompare in Hlt.
  destruct (Prim2SF c) as [?|[]| |[] ? ?]; try done;
    destruct (Prim2SF x) as [?|[]| |[] ? ?]; done.
Qed.

Lemma zero_div_positive (m : float) :
  positive_double (Prim2SF m) -> (0 / m)%float = 0%float.
Proof.
  intros Hm. apply Prim2SF_inj. rewrite FloatAxioms.div_spec.
  change (Prim2SF 0) with (S754_zero false).
  by destruct (Prim2SF m) as [?|[]| |[] ? ?].
Qed.

Lemma std_max_zero_mul_zero (t : float) :
  t <> infinity -> (std_max 0 t * 0)%float = 0%float.
Proof.
  intros Ht. apply Prim2SF_inj. rewrite FloatAxioms.mul_spec.
  change (Prim2SF 0) with (S754_zero false).
  unfold std_max. destruct (PrimFloat.ltb 0 t) eqn:Hlt; [|done].
  rewrite FloatAxioms.ltb_spec in Hlt. change (Prim2SF 0) with (S754_zero false) in Hlt.
  destruct (Prim2SF t) as [?|[]| |[] ? ?] eqn:HT; try done.
  destruct Ht. apply Prim2SF_inj. by rewrite HT.
Qed.

Lemma zero_mul_finite (p : float) :
  is_finite p = true -> PrimFloat.eqb (0 * p) 0 = true.
Proof.
  unfold is_finite, is_nan, is_infinity.
  rewrite !FloatAxioms.eqb_spec, FloatAxioms.mul_spec, FloatAxioms.abs_spec.
  change (Prim2SF 0) with (S754_zero false).
  change (Prim2SF infinity) with (S754_infinity false).
  by destruct (Prim2SF p) as [[]|[]| |[] ? ?].
Qed.

End CostFacts.

Section CostH.
Import ComputeCostH.
Variable calculateJsd : NgramProfile.Heap -> NgramProfile.t -> NgramProfile.t -> float.
Variable NDEBUG : bool.

(** C5: an evaluation whose assertion passes, in a context with a goal
    distance, returns [h = max(0, goal - d) * (g / max(1e-6, d - d0))] with
    [d = sqrt(2 jsd)] and [d0 = sqrt(2 originalJsd)], and stores [jsd] in
    the state; [originalJsd] is the stored value when there is one, and is
    otherwise set to [max(0, jsd - 1e-10)] and stored, so only the first
    evaluation changes the context.  At [g = 0] the result is [0] (the
    remaining distance not being infinite), and at [d >= goal] it is zero
    (the cost rate being finite). *)
Theorem costH_value (h : NgramProfile.Heap) (node : Node.t State.t) (context : Context.t)
    (allowUpdate : bool) (goal : float) :
  let jsd := calculateJsd h (State.ngramProfile (Node.state node))
               (Context.targetNgramProfile context) in
  let meta := Context.mutableMetaData context in
  let origJsd := match Context.originalJsd meta with
                 | Some stored => stored
                 | None => std_max 0 (jsd - 1.0e-10)
                 end in
  let d := PrimFloat.sqrt (2 * jsd) in
  let g := to_double (Node.costG node) in
  let p := (g / std_max 1.0e-6 (d - PrimFloat.sqrt (2 * origJsd)))%float in
  let r := std_max 0 (goal - d) in
  assert_ok NDEBUG (PrimFloat.leb jsd 1) = true ->
  Context.goalJSDist meta = Some goal ->
  result (call calculateJsd NDEBUG h node context allowUpdate)
  = Some ((r * p)%float, {| State.jsd := Some jsd |},
          {| Context.originalTextLength := Context.originalTextLength meta;
             Context.originalJsd := Some origJsd;
             Context.goalJSDist := Some goal |})
  /\ (forall stored, Context.originalJsd meta = Some stored ->
      {| Context.originalTextLength := Context.originalTextLength meta;
         Context.originalJsd := Some origJsd;
         Context.goalJSDist := Some goal |} = meta)
  /\ (g = 0%float -> (goal - d)%float <> infinity -> (r * p)%float = 0%float)
  /\ (PrimFloat.leb goal d = true -> is_finite p = true ->
      PrimFloat.eqb (r * p) 0 = true).
Proof.
  intros jsd meta origJsd d g p r Hassert Hgoal.
  split; [|split; [|split]].
  - unfold call. fold jsd. rewrite Hassert. simpl negb. cbv iota.
    fold meta. subst origJsd.
    destruct (Context.originalJsd meta) as [stored|] eqn:Horig; simpl.
    + rewrite Hgoal. simpl. do 3 f_equal.
      destruct meta; simpl in *; congruence.
    + rewrite Hgoal. simpl. reflexivity.
  - intros stored Hstored. subst origJsd. rewrite Hstored.
    destruct meta; simpl in *; congruence.
  - intros Hg Hfin. subst p. rewrite Hg.
    rewrite zero_div_positive by (by apply std_max_positive).
    by apply std_max_zero_mul_zero.
  - intros Hle Hp. subst r. unfold std_max at 1.
    rewrite (sub_not_positive goal d Hle). by apply zero_mul_finite.
Qed.

End CostH.

(** At the root, with a divergence of 0.25 and the goal distance 1.25: the
    evaluation stores the original divergence and returns 0. *)
Lemma costH_value_witness :
  ComputeCostH.result
    (ComputeCostH.call (Fixtures.jsd_is 0.25) false [] Fixtures.root_node
       Fixtures.fresh_context true)
  = Some (0%float, {| State.jsd := Some 0.25%float |},
          {| Context.originalTextLength := Some 3;
             Context.originalJsd := Some (0.25 - 1.0e-10)%float;
             Context.goalJSDist := Some 1.25%float |})
  /\ (ComputeCostH.std_max 0 (1.25 - PrimFloat.sqrt (2 * 0.25))
      * (ComputeCostH.to_double (Node.costG Fixtures.root_node)
         / ComputeCostH.std_max 1.0e-6
             (PrimFloat.sqrt (2 * 0.25)
              - PrimFloat.sqrt (2 * ComputeCostH.std_max 0 (0.25 - 1.0e-10)))))%float
     = 0%float.
Proof.
  destruct (costH_value (Fixtures.jsd_is 0.25) false [] Fixtures.root_node
              Fixtures.fresh_context true 1.25%float) as (Hresult & _ & Hroot & _).
  - vm_compute. reflexivity.
  - vm_compute. reflexivity.
  - split.
    + rewrite Hresult. vm_compute. reflexivity.
    + apply Hroot.
      * vm_compute. reflexivity.
      * vm_compute. discriminate.
Defined.

Section JsdAboveOne.
Import ComputeCostH.



End JsdAboveOne.



(** ** The general statements at the small inputs *)

Lemma original_well_formed :
  NgramProfile.well_formed Fixtures.shared_heap Fixtures.original.
Proof.
  apply (generateFromString_well_formed id id [] Fixtures.shared_heap
           NgramProfile.empty Fixtures.original (chars "abcabc") (chars "abcabc")
           NgramProfile.SKIP_NORMALIZATION).
  - vm_compute. reflexivity.
  - vm_compute. reflexivity.
Qed.

Lemma apply_after_updates_is_plain_map_witness :
  Fixtures.then_iterate
    (NgramProfile.run_ops false Fixtures.shared_heap Fixtures.original
       (Fixtures.plain_ops ++ [NgramProfile.Apply]))
  = Some (NgramProfile.nonzero_entries
            (NgramProfile.plain_update Fixtures.original_counts
               (concat (NgramProfile.deltas_of <$> Fixtures.plain_ops)))).
Proof.
  destruct (NgramProfile.run_ops false Fixtures.shared_heap Fixtures.original
              (Fixtures.plain_ops ++ [NgramProfile.Apply])) as [[h' p']|] eqn:Hrun;
    [|by vm_compute in Hrun].
  simpl.
  apply (apply_after_updates_is_plain_map false Fixtures.shared_heap h'
           Fixtures.original p' Fixtures.original_counts Fixtures.plain_ops).
  - apply original_well_formed.
  - vm_compute. reflexivity.
  - exact Hrun.
Defined.

Lemma generateFromString_without_newline_witness :
  exists h' p',
    NgramProfile.generateFromString id id [] NgramProfile.empty (chars "abcabc")
      NgramProfile.SKIP_NORMALIZATION = (h', p', chars "abcabc", true)
    /\ NgramProfile.n p' = 4
    /\ NgramProfile.iterate h' p'
       = Some (entries (NgramProfile.count_all (NgramProfile.windows (chars "abcabc")))).
Proof.
  apply (generateFromString_without_newline id id [] NgramProfile.empty
           (chars "abcabc") NgramProfile.SKIP_NORMALIZATION).
  - vm_compute. lia.
  - vm_compute. reflexivity.
  - apply (bool_decide_unpack (LF ∉ chars "abcabc")). vm_compute. exact I.
Defined.

Lemma iterate_total_witness :
  is_Some (NgramProfile.iterate Fixtures.shared_heap Fixtures.original).
Proof.
  apply (iterate_total Fixtures.shared_heap Fixtures.original).
  vm_compute. eauto.
Defined.

Lemma accepted_successor_text_witness :
  Fixtures.then_text
    (ObfuscationOperator.updateSuccessor Fixtures.toy_digest false
       (Fixtures.state_of Fixtures.the_cat).1 (Fixtures.state_of Fixtures.the_cat).2
       Fixtures.blank_state Fixtures.focus_cat 4 7 (chars "dog"))
  = Some (chars "the dog sat").
Proof.
  destruct (ObfuscationOperator.updateSuccessor Fixtures.toy_digest false
              (Fixtures.state_of Fixtures.the_cat).1 (Fixtures.state_of Fixtures.the_cat).2
              Fixtures.blank_state Fixtures.focus_cat 4 7 (chars "dog"))
    as [[[h' successor'] accepted]|] eqn:Hcall; [|by vm_compute in Hcall].
  assert (accepted = true) as -> by (vm_compute in Hcall; congruence).
  simpl.
  apply (accepted_successor_text Fixtures.toy_digest false
           (Fixtures.state_of Fixtures.the_cat).1 h'
           (Fixtures.state_of Fixtures.the_cat).2 Fixtures.blank_state successor'
           Fixtures.focus_cat 4 7 (chars "dog")).
  - vm_compute. reflexivity.
  - vm_compute. lia.
  - vm_compute. lia.
  - vm_compute. lia.
  - vm_compute. reflexivity.
  - exact Hcall.
Defined.

(** ** More on n-gram profiles *)

Section Packing.
Import NgramProfile.

Lemma byte_of_range (c : ascii) : 0 <= byte_of c < 256.
Proof.
  unfold byte_of. pose proof (N_ascii_bounded c). lia.
Qed.

Lemma ascii_of_byte (c : ascii) : ascii_of_N (Z.to_N (byte_of c)) = c.
Proof. unfold byte_of. rewrite N2Z.id. apply ascii_N_embedding. Qed.

Lemma byte_of_ascii (z : Z) : 0 <= z < 256 -> byte_of (ascii_of_N (Z.to_N z)) = z.
Proof.
  intros Hz. unfold byte_of. rewrite N_ascii_embedding by lia. lia.
Qed.

Lemma split_byte (a q : Z) :
  0 <= a < 256 -> (a + 256 * q) mod 256 = a /\ (a + 256 * q) / 256 = q.
Proof.
  intros Ha. split; symmetry.
  - apply (Z.mod_unique _ _ q); lia.
  - apply (Z.div_unique _ _ _ a); lia.
Qed.

Lemma char2Ngram_four (a b c d : ascii) :
  char2Ngram [a; b; c; d]
  = byte_of a + 256 * (byte_of b + 256 * (byte_of c + 256 * byte_of d)).
Proof. unfold char2Ngram. simpl. lia. Qed.

(** A buffer of four bytes that is cast to an n-gram and back. *)
Lemma ngram2Char_of_buffer (ngramBuf : list ascii) :
  length ngramBuf = 4%nat -> ngram2Char (char2Ngram ngramBuf) = ngramBuf.
Proof.
  intros Hlen. destruct ngramBuf as [|a [|b [|c [|d [|]]]]]; try done.
  rewrite char2Ngram_four.
  pose proof (byte_of_range a). pose proof (byte_of_range b).
  pose proof (byte_of_range c). pose proof (byte_of_range d).
  unfold ngram2Char. cbn [seq List.map].
  change (256 ^ Z.of_nat 0) with 1. change (256 ^ Z.of_nat 1) with 256.
  change (256 ^ Z.of_nat 2) with (256 * 256).
  change (256 ^ Z.of_nat 3) with (256 * 256 * 256).
  rewrite Z.div_1_r, <- !Z.div_div by lia.
  destruct (split_byte (byte_of a) (byte_of b + 256 * (byte_of c + 256 * byte_of d)))
    as [-> ->]; [done|].
  destruct (split_byte (byte_of b) (byte_of c + 256 * byte_of d)) as [-> ->]; [done|].
  destruct (split_byte (byte_of c) (byte_of d)) as [-> ->]; [done|].
  rewrite (Z.mod_small (byte_of d)) by done.
  by rewrite !ascii_of_byte.
Qed.

(** An n-gram that is cast to its bytes and back. *)
Lemma char2Ngram_of_ngram (ngram : Z) :
  0 <= ngram <= Ngram_max -> char2Ngram (ngram2Char ngram) = ngram.
Proof.
  intros Hg. unfold Ngram_max in Hg. unfold ngram2Char. cbn [seq List.map].
  rewrite char2Ngram_four.
  rewrite !byte_of_ascii by (apply Z.mod_pos_bound; lia).
  change (256 ^ Z.of_nat 0) with 1. change (256 ^ Z.of_nat 1) with 256.
  change (256 ^ Z.of_nat 2) with (256 * 256).
  change (256 ^ Z.of_nat 3) with (256 * 256 * 256).
  rewrite Z.div_1_r, <- !Z.div_div by lia.
  pose proof (Z.div_mod ngram 256 ltac:(lia)) as H1.
  pose proof (Z.div_mod (ngram / 256) 256 ltac:(lia)) as H2.
  pose proof (Z.div_mod (ngram / 256 / 256) 256 ltac:(lia)) as H3.
  assert (0 <= ngram / 256 / 256 / 256 < 256) as H4.
  { rewrite !Z.div_div by lia. split; [apply Z.div_pos; lia|].
    apply Z.div_lt_upper_bound; lia. }
  rewrite (Z.mod_small (ngram / 256 / 256 / 256)) by done.
  lia.
Qed.

(** X5: the two casts are inverse to each other. *)
Theorem ngram2Char_char2Ngram (ngramBuf : list ascii) (ngram : Z) :
  length ngramBuf = 4%nat -> 0 <= ngram <= Ngram_max ->
  ngram2Char (char2Ngram ngramBuf) = ngramBuf
  /\ char2Ngram (ngram2Char ngram) = ngram.
Proof.
  intros Hlen Hg. split; [by apply ngram2Char_of_buffer | by apply char2Ngram_of_ngram].
Qed.

(** X6: the n-gram of a window of [ORDER] characters decodes to the window
    with its newlines turned into spaces, and is below [2^24]. *)
Theorem ngramFromStringRange_decodes (w : list ascii) :
  length w = ORDER ->
  take ORDER (ngram2Char (ngramFromStringRange w)) = std_replace LF SPACE w
  /\ 0 <= ngramFromStringRange w < 2 ^ 24
  /\ ngramFromStringRange w <> Ngram_max.
Proof.
  intros Hlen. destruct w as [|a [|b [|c [|]]]]; try done.
  unfold ngramFromStringRange.
  set (buf := std_replace LF SPACE (std_copy [a; b; c] (repeat NUL 4))).
  assert (buf = std_replace LF SPACE [a; b; c] ++ [NUL]) as Hbuf by done.
  assert (length buf = 4%nat) as Hlen4 by done.
  split.
  - rewrite (ngram2Char_of_buffer buf Hlen4). by rewrite Hbuf.
  - assert (0 <= char2Ngram buf < 2 ^ 24) as Hr.
    { rewrite Hbuf. simpl. rewrite char2Ngram_four.
      change (byte_of NUL) with 0.
      match goal with |- context [byte_of ?x + 256 * (byte_of ?y + 256 * (byte_of ?z + _))] =>
        pose proof (byte_of_range x); pose proof (byte_of_range y);
        pose proof (byte_of_range z) end.
      lia. }
    split; [done|]. unfold Ngram_max. lia.
Qed.

End Packing.

Section Reads.
Import NgramProfile.

Lemma freq_count (h : Heap) (p : t) (b : gmap Z Z) (k : Z) :
  base h p = Some b -> freq h p k = Some (count (m_updates p ∪ b) k).
Proof.
  intros Hb. unfold freq. rewrite Hb, count_union. simpl.
  by destruct (m_updates p !! k).
Qed.

Lemma well_formed_in_step (h : Heap) (p : t) (m : gmap Z Z) :
  well_formed h p -> effective h p = Some m -> in_step h p m.
Proof.
  intros (b & Hb & Hnz) Heff. exists b. split_and!; [done..|].
  unfold effective in Heff. rewrite Hb in Heff. simpl in Heff. by injection Heff as <-.
Qed.

(** X7: [freq] follows the plain map, with or without [apply]. *)
Theorem freq_follows_plain_map (NDEBUG : bool) (h h' : Heap) (p p' : t)
    (m : gmap Z Z) (ops : list op) :
  well_formed h p -> effective h p = Some m ->
  run_ops NDEBUG h p ops = Some (h', p') ->
  forall k, freq h' p' k = Some (count (plain_update m (concat (deltas_of <$> ops))) k).
Proof.
  intros Hwf Heff Hrun k.
  pose proof (well_formed_in_step h p m Hwf Heff) as Hin.
  apply (run_ops_in_step NDEBUG _ _ _ _ _ _ Hin) in Hrun as (b' & Hb' & _ & Hcount).
  by rewrite (freq_count h' p' b' k Hb'), Hcount.
Qed.

(** [apply] on its own. *)
Lemma apply_lookup (b u : gmap Z Z) (k : Z) :
  count (foldl apply_entry b (entries u)) k = count (u ∪ b) k.
Proof.
  rewrite count_union. unfold count at 1.
  rewrite foldl_apply_entry by apply NoDup_entries. rewrite list_to_map_entries.
  destruct (u !! k) as [v|]; [|done]. destruct (v =? 0) eqn:Hv; simpl; lia.
Qed.

(** What a well-formed profile iterates once [apply] has run. *)
Lemma iterate_after_apply (h h' : Heap) (p p' : t) (m : gmap Z Z) :
  well_formed h p -> effective h p = Some m -> apply h p = Some (h', p') ->
  iterate h' p' = Some (nonzero_entries m).
Proof.
  intros Hwf Heff Happly.
  pose proof (well_formed_in_step h p m Hwf Heff) as Hin.
  destruct (apply_in_step h h' p p' m Hin Happly) as [(b' & Hb' & Hnz' & Hcount') Hempty].
  rewrite (iterate_applied h' p' b' Hb' Hempty).
  unfold nonzero_entries. rewrite <- entries_filter. do 2 f_equal.
  apply nonzero_counts; [done|]. intros k. rewrite <- Hcount'.
  by rewrite count_union, Hempty, lookup_empty.
Qed.

(** X9: [apply] leaves [freq], [n()], [size()] and [lastUpdates()] as they
    were and empties the log; what a well-formed profile iterates after it
    are its n-grams with a count, in ascending order. *)
Theorem apply_keeps_reads (h : Heap) (p : t) :
  is_Some (base h p) ->
  exists h' p',
    apply h p = Some (h', p')
    /\ (forall k, freq h' p' k = freq h p k)
    /\ n p' = n p /\ size p' = size p /\ lastUpdates p' = lastUpdates p
    /\ logSize p' = 0
    /\ (forall m, well_formed h p -> effective h p = Some m ->
        iterate h' p' = Some (nonzero_entries m)).
Proof.
  intros [b Hb].
  destruct (apply h p) as [[h' p']|] eqn:Happly;
    [|unfold apply in Happly; by rewrite Hb in Happly].
  exists h', p'. split; [done|].
  split_and!; [| | | | |intros m Hwf Heff; by eapply iterate_after_apply].
  all: unfold apply, make_shared in Happly; rewrite Hb in Happly; simpl in Happly;
    injection Happly as <- <-; try done.
  intros k. rewrite (freq_count h p b k Hb).
  erewrite freq_count; [|unfold base; simpl; by rewrite list_lookup_middle].
  simpl. rewrite count_union, lookup_empty. by rewrite apply_lookup.
Qed.

Lemma update_step_log (NDEBUG : bool) (b : gmap Z Z) (p p' : t) (u : Z * Z) :
  update_step NDEBUG b p u = Some p' ->
  m_lastNgramUpdates p' = m_lastNgramUpdates p ++ [u]
  /\ m_n p' = to_size_t (m_n p + u.2).
Proof.
  unfold update_step. destruct (negb _); [done|].
  match goal with |- context [mbind _ ?x] => destruct x as [sz|] end; simpl; [|done].
  by intros [= <-].
Qed.

Lemma update_loop_log (NDEBUG : bool) (h : Heap) (us : list (Z * Z)) :
  forall p p', update_loop NDEBUG h p us = Some p' ->
    m_lastNgramUpdates p' = m_lastNgramUpdates p ++ us
    /\ to_size_t (m_n p') = to_size_t (m_n p + sum_deltas us).
Proof.
  induction us as [|u us IH]; simpl; intros p p'.
  - intros [= <-]. by rewrite app_nil_r, Z.add_0_r.
  - destruct (base h p) as [b|]; simpl; [|done].
    destruct (update_step NDEBUG b p u) as [p1|] eqn:Hstep; simpl; [|done].
    apply update_step_log in Hstep as [Hl Hn]. intros Hrest.
    apply IH in Hrest as [-> ->]. rewrite Hl, Hn, <- app_assoc. split; [done|].
    unfold to_size_t. rewrite Zplus_mod_idemp_l. f_equal. lia.
Qed.

(** With nothing to update, a profile without a base map is left as it is. *)
Lemma update_nothing_on_empty (NDEBUG : bool) (h : Heap) :
  update NDEBUG h empty [] = Some (h, empty).
Proof. by destruct NDEBUG. Qed.

(** X10: after [update], [lastUpdates()] is the list that was passed, and
    the log holds at most 150 entries. *)
Theorem update_bookkeeping (NDEBUG : bool) (h h' : Heap) (p p' : t) (us : list (Z * Z)) :
  update NDEBUG h p us = Some (h', p') ->
  lastUpdates p' = us /\ 0 <= logSize p' <= 150.
Proof.
  unfold update.
  destruct (update_loop _ _ _ _) as [q|] eqn:Hloop; simpl; [|done].
  apply update_loop_log in Hloop as [Hlog _]. simpl in Hlog.
  destruct (negb _); [done|]. destruct (negb _); [done|].
  destruct (150 <? logSize q) eqn:Hsz.
  - unfold apply, make_shared. destruct (base h q); simpl; [|done].
    intros [= <- <-]. unfold lastUpdates, logSize; simpl. by rewrite map_size_empty.
  - intros [= <- <-]. unfold lastUpdates. split; [done|].
    apply Z.ltb_ge in Hsz. unfold logSize in *. lia.
Qed.

End Reads.

Section Totals.
Import NgramProfile.

Lemma total_empty : total ∅ = 0.
Proof. unfold total. apply map_fold_empty. Qed.

Lemma total_insert_fresh (m : gmap Z Z) (k v : Z) :
  m !! k = None -> total (<[k := v]> m) = v + total m.
Proof.
  intros Hk. unfold total. rewrite map_fold_insert_L; [done| |done].
  intros. lia.
Qed.

Lemma total_insert (m : gmap Z Z) (k v : Z) :
  total (<[k := v]> m) = total m - count m k + v.
Proof.
  unfold count. destruct (m !! k) as [w|] eqn:Hk; simpl.
  - rewrite <- (insert_delete_id m k w Hk) at 2.
    rewrite <- insert_delete_eq.
    rewrite !total_insert_fresh by apply lookup_delete_eq. lia.
  - rewrite total_insert_fresh by done. lia.
Qed.

Lemma total_filter (m : gmap Z Z) :
  total (filter (fun kv => kv.2 <> 0) m) = total m.
Proof.
  induction m as [|k v m Hk IH] using map_ind.
  - by rewrite map_filter_empty.
  - rewrite total_insert_fresh by done.
    destruct (decide (v = 0)) as [->|Hv].
    + rewrite map_filter_insert_not' ; [lia| simpl; tauto |].
      intros w Hw. congruence.
    + rewrite map_filter_insert_True by done.
      rewrite total_insert_fresh; [lia|].
      apply map_lookup_filter_None. by left.
Qed.

(** Maps with the same counts have the same total. *)
Lemma total_counts (m1 m2 : gmap Z Z) :
  (forall k, count m1 k = count m2 k) -> total m1 = total m2.
Proof.
  intros Hc. rewrite <- (total_filter m1), <- (total_filter m2). f_equal.
  apply nonzero_counts.
  - intros k Hk. apply map_lookup_filter_Some in Hk as [_ Hk]. done.
  - intros k. rewrite <- Hc. unfold count.
    destruct (m1 !! k) as [v|] eqn:Hk.
    + destruct (decide (v = 0)) as [->|Hv].
      * simpl. rewrite (proj2 (map_lookup_filter_None _ _ _)); [done|].
        right. intros w Hw. simpl. congruence.
      * by rewrite (proj2 (map_lookup_filter_Some _ _ _ _) (conj Hk Hv)).
    + rewrite (proj2 (map_lookup_filter_None _ _ _)); [done|]. by left.
Qed.

Lemma total_plain_update (us : list (Z * Z)) :
  forall m, to_size_t (total (plain_update m us)) = to_size_t (total m + sum_deltas us).
Proof.
  induction us as [|u us IH]; intros m; simpl.
  - by rewrite Z.add_0_r.
  - unfold plain_update in *. rewrite IH. unfold map_add. rewrite total_insert.
    fold (count m u.1). unfold to_size_t.
    rewrite <- Z.add_assoc, (Z.add_comm (_ mod _)), Z.add_assoc.
    rewrite Zplus_mod_idemp_r. f_equal. lia.
Qed.

Lemma sum_deltas_app (us vs : list (Z * Z)) :
  sum_deltas (us ++ vs) = sum_deltas us + sum_deltas vs.
Proof. induction us as [|u us IH]; simpl; lia. Qed.

Lemma update_n (NDEBUG : bool) (h h' : Heap) (p p' : t) (us : list (Z * Z)) :
  update NDEBUG h p us = Some (h', p') ->
  to_size_t (n p') = to_size_t (n p + sum_deltas us).
Proof.
  unfold update.
  destruct (update_loop _ _ _ _) as [q|] eqn:Hloop; simpl; [|done].
  apply update_loop_log in Hloop as [_ Hn]. simpl in Hn.
  destruct (negb _); [done|]. destruct (negb _); [done|].
  destruct (150 <? logSize q).
  - unfold apply, make_shared. destruct (base h q); simpl; [|done].
    by intros [= <- <-].
  - by intros [= <- <-].
Qed.

Lemma run_ops_n (NDEBUG : bool) (ops : list op) :
  forall (h h' : Heap) (p p' : t),
    run_ops NDEBUG h p ops = Some (h', p') ->
    to_size_t (n p') = to_size_t (n p + sum_deltas (concat (deltas_of <$> ops))).
Proof.
  induction ops as [|o ops IH]; simpl; intros h h' p p'.
  - intros [= <- <-]. by rewrite Z.add_0_r.
  - destruct (run_op NDEBUG h p o) as [[h1 p1]|] eqn:Hop; simpl; [|done].
    intros Hrest. apply IH in Hrest. rewrite Hrest, sum_deltas_app.
    assert (to_size_t (n p1) = to_size_t (n p + sum_deltas (deltas_of o))) as Hn1.
    { destruct o; simpl in Hop.
      - by eapply update_n.
      - by eapply update_n.
      - unfold apply, make_shared in Hop. destruct (base h p); simpl in Hop; [|done].
        injection Hop as <- <-. simpl. by rewrite Z.add_0_r. }
    unfold to_size_t in *.
    rewrite <- (Zplus_mod_idemp_l (n p1)), Hn1, Zplus_mod_idemp_l.
    by rewrite Z.add_assoc.
Qed.

Lemma update_loop_n_range (NDEBUG : bool) (h : Heap) (us : list (Z * Z)) :
  forall p p', 0 <= m_n p < size_t_max ->
    update_loop NDEBUG h p us = Some p' -> 0 <= m_n p' < size_t_max.
Proof.
  induction us as [|u us IH]; simpl; intros p p' Hn.
  - by intros [= <-].
  - destruct (base h p) as [b|]; simpl; [|done].
    destruct (update_step NDEBUG b p u) as [p1|] eqn:Hstep; simpl; [|done].
    apply update_step_log in Hstep as [_ Hn1]. apply IH. rewrite Hn1.
    apply to_size_t_range.
Qed.

Lemma run_op_n_range (NDEBUG : bool) (h h' : Heap) (p p' : t) (o : op) :
  0 <= n p < size_t_max ->
  run_op NDEBUG h p o = Some (h', p') -> 0 <= n p' < size_t_max.
Proof.
  intros Hn.
  assert (forall us, update NDEBUG h p us = Some (h', p') -> 0 <= n p' < size_t_max) as Hu.
  { intros us. unfold update.
    destruct (update_loop _ _ _ _) as [q|] eqn:Hloop; simpl; [|done].
    apply update_loop_n_range in Hloop; [|done].
    destruct (negb _); [done|]. destruct (negb _); [done|].
    destruct (150 <? logSize q).
    - unfold apply, make_shared. destruct (base h q); simpl; [|done].
      by intros [= <- <-].
    - by intros [= <- <-]. }
  destruct o; simpl; [apply Hu..|].
  unfold apply, make_shared. destruct (base h p); simpl; [|done].
  by intros [= <- <-].
Qed.

Lemma run_ops_n_range (NDEBUG : bool) (ops : list op) :
  forall (h h' : Heap) (p p' : t),
    0 <= n p < size_t_max ->
    run_ops NDEBUG h p ops = Some (h', p') -> 0 <= n p' < size_t_max.
Proof.
  induction ops as [|o ops IH]; simpl; intros h h' p p' Hn.
  - by intros [= <- <-].
  - destruct (run_op NDEBUG h p o) as [[h1 p1]|] eqn:Hop; simpl; [|done].
    apply IH. by eapply run_op_n_range.
Qed.

(** Any run of operations keeps [n()] the sum of all counts, in [std::size_t]
    arithmetic. *)
Lemma total_kept (NDEBUG : bool) (h h' : Heap) (p p' : t) (m : gmap Z Z)
    (ops : list op) :
  well_formed h p -> effective h p = Some m -> n p = to_size_t (total m) ->
  run_ops NDEBUG h p ops = Some (h', p') ->
  exists m', effective h' p' = Some m' /\ n p' = to_size_t (total m').
Proof.
  intros Hwf Heff Hn Hrun.
  pose proof (well_formed_in_step h p m Hwf Heff) as Hin.
  pose proof (run_ops_in_step NDEBUG _ _ _ _ _ _ Hin Hrun) as (b' & Hb' & _ & Hcount).
  exists (m_updates p' ∪ b'). split; [unfold effective; by rewrite Hb'|].
  rewrite (total_counts _ _ Hcount), total_plain_update.
  assert (0 <= n p' < size_t_max) as Hrange.
  { eapply run_ops_n_range; [|done]. rewrite Hn. apply to_size_t_range. }
  rewrite <- (Z.mod_small (n p') size_t_max) by done. fold (to_size_t (n p')).
  rewrite (run_ops_n _ _ _ _ _ _ Hrun), Hn. unfold to_size_t.
  by rewrite Zplus_mod_idemp_l.
Qed.

(** A generated profile starts with its total right. *)
Lemma count_all_total (keys : list Z) :
  forall m, to_size_t (total (foldl (fun m g => map_add m g 1) m keys))
            = to_size_t (total m + Z.of_nat (length keys)).
Proof.
  induction keys as [|g keys IH]; intros m; cbn [foldl].
  - simpl. by rewrite Z.add_0_r.
  - rewrite IH. unfold map_add. rewrite total_insert. fold (count m g).
    rewrite length_cons, Nat2Z.inj_succ. unfold to_size_t.
    rewrite <- Z.add_assoc, (Z.add_comm (_ mod _)), Z.add_assoc.
    rewrite Zplus_mod_idemp_r. f_equal. lia.
Qed.

Variable normalizeText : list ascii -> list ascii.
Variable stripPosAnnotationsFromText : list ascii -> list ascii.

Lemma generateFromString_total (h h' : Heap) (p p' : t) (text T : list ascii) (flags : Z) :
  generateFromString normalizeText stripPosAnnotationsFromText h p text flags
  = (h', p', T, true) ->
  exists m, effective h' p' = Some m /\ n p' = to_size_t (total m).
Proof.
  unfold generateFromString.
  set (T0 := prepared normalizeText stripPosAnnotationsFromText text flags).
  destruct (length T0 <? ORDER)%nat eqn:Hlen; [done|]. apply Nat.ltb_ge in Hlen.
  destruct (generate_loop T0 (seq 0 (length T0 - (ORDER - 1))) ∅ 0 (repeat NUL 4))
    as (buf' & -> & _); [done|done| |].
  { apply Forall_forall. intros it Hit. apply elem_of_seq in Hit. unfold ORDER in *. lia. }
  unfold make_shared. intros [= <- <- <-].
  eexists. split.
  - unfold effective, base; simpl. rewrite list_lookup_middle by done. simpl.
    by rewrite (left_id_L ∅ (∪)).
  - unfold n; simpl. rewrite count_all_total, total_empty, length_map. done.
Qed.

(** X8: from generation on, [n()] is the sum of all counts, in
    [std::size_t] arithmetic. *)
Theorem n_is_total_count (NDEBUG : bool) (h0 h h' : Heap) (p0 p p' : t)
    (text T : list ascii) (flags : Z) (ops : list op) :
  generateFromString normalizeText stripPosAnnotationsFromText h0 p0 text flags
  = (h, p, T, true) ->
  Z.of_nat (length T) < size_t_max ->
  run_ops NDEBUG h p ops = Some (h', p') ->
  exists m', effective h' p' = Some m' /\ n p' = to_size_t (total m').
Proof.
  intros Hgen Hlen Hrun.
  destruct (generateFromString_total _ _ _ _ _ _ _ Hgen) as (m & Heff & Hn).
  destruct (generateFromString_well_formed _ _ _ _ _ _ _ _ _ Hgen Hlen) as [Hwf _].
  by eapply total_kept.
Qed.

End Totals.

Section Archive.
Import NgramProfile.

Context {File : Type} (text_oarchive : Z * gmap Z Z -> File)
        (text_iarchive : File -> Z * gmap Z Z).
Local Abbreviation save := (save File text_oarchive).
Local Abbreviation load := (load File text_iarchive).

(** X11: when the archive gives back what was written to it, a profile that
    was saved and loaded has the [freq] and the [n()] of the profile that
    was saved and an empty log, its [size()] is the number of n-grams with
    a count, and it iterates these n-grams in ascending order, as the saved
    profile does after [apply]. *)
Theorem load_save (h hl : Heap) (p : t) (m : gmap Z Z) :
  (forall v, text_iarchive (text_oarchive v) = v) ->
  well_formed h p -> effective h p = Some m ->
  exists file,
    save h p = Some file
    /\ (forall k, freq (load hl file).1 (load hl file).2 k = freq h p k)
    /\ n (load hl file).2 = n p
    /\ Some (size (load hl file).2) = distinct_nonzero h p
    /\ logSize (load hl file).2 = 0
    /\ iterate (load hl file).1 (load hl file).2 = Some (nonzero_entries m)
    /\ (forall h1 p1, apply h p = Some (h1, p1) ->
        iterate (load hl file).1 (load hl file).2 = iterate h1 p1).
Proof.
  intros Hround Hwf Heff.
  enough (exists file,
    save h p = Some file
    /\ (forall k, freq (load hl file).1 (load hl file).2 k = freq h p k)
    /\ n (load hl file).2 = n p
    /\ Some (size (load hl file).2) = distinct_nonzero h p
    /\ logSize (load hl file).2 = 0
    /\ iterate (load hl file).1 (load hl file).2 = Some (nonzero_entries m))
    as (file & Hsave & Hfreq & Hn & Hsize & Hlog & Hit).
  { exists file. split_and!; try done. intros h1 p1 Happly.
    by rewrite Hit, (iterate_after_apply h h1 p p1 m Hwf Heff Happly). }
  destruct Hwf as (b & Hb & Hnz).
  unfold effective in Heff. rewrite Hb in Heff. simpl in Heff. injection Heff as <-.
  unfold NgramProfile.save, apply, make_shared. rewrite clone_base, Hb. simpl.
  unfold base. simpl. rewrite list_lookup_middle by done. simpl.
  eexists. split; [reflexivity|]. unfold NgramProfile.load, make_shared.
  rewrite Hround. simpl.
  set (b' := foldl apply_entry b (entries (m_updates p))).
  assert (b' = filter (fun kv => kv.2 <> 0) (m_updates p ∪ b)) as Hb'.
  { apply nonzero_counts; [|intros k; apply apply_lookup].
    intros k. unfold b'. rewrite foldl_apply_entry by apply NoDup_entries.
    rewrite list_to_map_entries.
    destruct (m_updates p !! k) as [v|]; [|apply Hnz].
    destruct (v =? 0) eqn:Hv; [done|]. intros [= ->]. done. }
  split_and!.
  - intros k. rewrite (freq_count h p b k Hb).
    erewrite freq_count; [|unfold base; simpl; by rewrite list_lookup_middle].
    simpl. rewrite count_union, lookup_empty. f_equal. apply apply_lookup.
  - done.
  - unfold distinct_nonzero, effective. rewrite Hb. simpl. unfold size. simpl.
    by rewrite Hb'.
  - unfold logSize. simpl. by rewrite map_size_empty.
  - rewrite iterate_fresh. unfold nonzero_entries. rewrite <- entries_filter.
    by rewrite Hb'.
Qed.

End Archive.

(** ** More on diff-strings and states *)

Section DiffStringEdits.
Import DiffString.
Variable MD5 : list ascii -> list ascii.
Variable NDEBUG : bool.

Lemma apply_edit_in_range (s ins : list ascii) (pos del : nat) :
  (pos < length s)%nat -> (pos + del <= length s)%nat -> (del < 256)%nat ->
  Z.of_nat (length s) < 2 ^ 32 ->
  apply_edit NDEBUG s (Edit_ctor (Z.of_nat pos) (Z.of_nat del) ins)
  = Some (take pos s ++ ins ++ drop (pos + del) s).
Proof.
  intros Hpos Hdel H8 H32. unfold apply_edit, Edit_ctor; simpl.
  rewrite (Z.mod_small (Z.of_nat pos)) by lia.
  rewrite (Z.mod_small (Z.of_nat del)) by lia.
  rewrite (Z.mod_small (Z.of_nat pos + Z.of_nat del)) by lia.
  assert (((Z.of_nat pos <? Z.of_nat (length s))
           && (Z.of_nat pos + Z.of_nat del <=? Z.of_nat (length s))) = true) as ->
    by (apply andb_true_iff; split; lia).
  rewrite orb_true_r. simpl.
  assert ((Z.of_nat (length s) <? Z.of_nat pos) = false) as -> by lia.
  rewrite !Nat2Z.id. f_equal.
  rewrite take_app_le by (rewrite length_take; lia).
  rewrite take_take, Nat.min_id.
  by rewrite drop_app_length' by (rewrite length_take; lia).
Qed.

(** X12: an edit inside the text replaces the characters it names. *)
Theorem edit_splices (d : t) (s ins : list ascii) (pos del : nat) :
  string NDEBUG d = Some s ->
  (pos < length s)%nat -> (pos + del <= length s)%nat -> (del < 256)%nat ->
  Z.of_nat (length s) < 2 ^ 32 ->
  exists d',
    edit MD5 NDEBUG d (Edit_ctor (Z.of_nat pos) (Z.of_nat del) ins) = Some d'
    /\ string NDEBUG d' = Some (take pos s ++ ins ++ drop (pos + del) s)
    /\ hashValue d' = updateHash MD5 (take pos s ++ ins ++ drop (pos + del) s)
    /\ source d' = source d
    /\ logSize d' = logSize d + 1.
Proof.
  intros Hs Hpos Hdel H8 H32. unfold edit, string in *. simpl.
  rewrite (apply_edits_snoc NDEBUG _ _ _ _ Hs), apply_edit_in_range by done. simpl.
  eexists. split; [reflexivity|]. simpl.
  rewrite (apply_edits_snoc NDEBUG _ _ _ _ Hs), apply_edit_in_range by done.
  split_and!; try done. unfold logSize. simpl. rewrite length_app. simpl. lia.
Qed.

(** X13: an edit past the text fails; with assertions enabled so does an
    edit at its end. *)
Theorem edit_out_of_range (d : t) (s : list ascii) (e : Edit) :
  string NDEBUG d = Some s ->
  (if NDEBUG then Z.of_nat (length s) < editPos e
   else Z.of_nat (length s) <= editPos e) ->
  edit MD5 NDEBUG d e = None
  /\ string NDEBUG (edit_with_text MD5 d e s) = None.
Proof.
  intros Hs Hpos.
  assert (apply_edit NDEBUG s e = None) as Hnone.
  { unfold apply_edit, assert_ok. destruct NDEBUG; simpl.
    - by assert ((Z.of_nat (length s) <? editPos e) = true) as -> by lia.
    - by assert ((editPos e <? Z.of_nat (length s)) = false) as -> by lia. }
  unfold edit, edit_with_text, string in *. simpl.
  by rewrite (apply_edits_snoc NDEBUG _ _ _ _ Hs), Hnone.
Qed.

(** Calls on two diff-strings with the same text and hash. *)
Lemma run_op_same_text (d1 d2 d1' : t) (o : op) :
  string NDEBUG d1 = string NDEBUG d2 -> hashValue d1 = hashValue d2 ->
  run_op MD5 NDEBUG d1 o = Some d1' ->
  exists d2', run_op MD5 NDEBUG d2 o = Some d2'
              /\ string NDEBUG d1' = string NDEBUG d2' /\ hashValue d1' = hashValue d2'.
Proof.
  intros Hs Hh. destruct o as [s|e|]; simpl.
  - intros [= <-]. by eexists.
  - unfold edit. simpl.
    destruct (string NDEBUG d1) as [s1|] eqn:Hs1.
    + symmetry in Hs. unfold string in *. simpl.
      rewrite (apply_edits_snoc NDEBUG _ _ _ _ Hs1), (apply_edits_snoc NDEBUG _ _ _ _ Hs).
      destruct (apply_edit NDEBUG s1 e) as [s'|] eqn:He; simpl; [|done].
      intros [= <-]. eexists. split; [reflexivity|]. simpl.
      by rewrite (apply_edits_snoc NDEBUG _ _ _ _ Hs1), (apply_edits_snoc NDEBUG _ _ _ _ Hs), He.
    + unfold string in *. simpl.
      assert (apply_edits NDEBUG (m_sourceString d1) (m_edits d1 ++ [e]) = None) as ->;
        [|done].
      clear -Hs1. revert Hs1. generalize (m_sourceString d1).
      induction (m_edits d1) as [|e0 es IH]; simpl; [done|]. intros s0.
      destruct (apply_edit NDEBUG s0 e0); simpl; [apply IH|done].
  - unfold apply. rewrite <- Hs.
    destruct (string NDEBUG d1) as [s1|] eqn:Hs1; simpl; [|done].
    intros [= <-]. eexists. split; [reflexivity|]. done.
Qed.

(** [apply] leaves the text and the hash as they are. *)
Lemma apply_same_text (d d' : t) :
  apply NDEBUG d = Some d' ->
  string NDEBUG d' = string NDEBUG d /\ hashValue d' = hashValue d
  /\ logSize d' = 0 /\ Some (source d') = string NDEBUG d.
Proof.
  unfold apply. destruct (string NDEBUG d) as [s|] eqn:Hs; simpl; [|done].
  by intros [= <-].
Qed.

Lemma run_ops_same_text (ops : list op) :
  forall d1 d2 d1',
    string NDEBUG d1 = string NDEBUG d2 -> hashValue d1 = hashValue d2 ->
    run_ops MD5 NDEBUG d1 ops = Some d1' ->
    exists d2', run_ops MD5 NDEBUG d2 (filter (fun o => is_apply o = false) ops) = Some d2'
                /\ string NDEBUG d1' = string NDEBUG d2' /\ hashValue d1' = hashValue d2'.
Proof.
  induction ops as [|o ops IH]; simpl; intros d1 d2 d1' Hs Hh.
  - intros [= <-]. by exists d2.
  - destruct (run_op MD5 NDEBUG d1 o) as [d1m|] eqn:Hop; simpl; [|done].
    intros Hrest. rewrite filter_cons. destruct o as [s|e|]; simpl.
    + destruct (run_op_same_text d1 d2 d1m _ Hs Hh Hop) as (d2m & Hop2 & Hs' & Hh').
      simpl in Hop2. injection Hop2 as <-. by apply (IH d1m).
    + destruct (run_op_same_text d1 d2 d1m _ Hs Hh Hop) as (d2m & Hop2 & Hs' & Hh').
      simpl in Hop2. rewrite Hop2. simpl. by apply (IH d1m).
    + simpl in Hop. apply apply_same_text in Hop as (Hs' & Hh' & _).
      apply (IH d1m); [congruence..|done].
Qed.

(** X14: [apply()] is invisible. *)
Theorem apply_is_invisible (d d1 : t) (ops : list op) :
  run_ops MD5 NDEBUG d ops = Some d1 ->
  exists d2,
    run_ops MD5 NDEBUG d (filter (fun o => is_apply o = false) ops) = Some d2
    /\ string NDEBUG d1 = string NDEBUG d2
    /\ hashValue d1 = hashValue d2
    /\ (forall d1', apply NDEBUG d1 = Some d1' ->
        string NDEBUG d1' = string NDEBUG d2 /\ logSize d1' = 0).
Proof.
  intros Hrun.
  destruct (run_ops_same_text ops d d d1 eq_refl eq_refl Hrun) as (d2 & Hrun2 & Hs & Hh).
  exists d2. split_and!; try done.
  intros d1' Happly. apply apply_same_text in Happly as (Hs' & _ & Hl & _).
  split; [congruence|done].
Qed.

End DiffStringEdits.

Section SetText.
Import State.
Variable MD5 : list ascii -> list ascii.
Hypothesis MD5_length : forall text, length (MD5 text) = DiffString.MD5_DIGEST_LENGTH.
Variable NDEBUG : bool.
Variable normalizeText : list ascii -> list ascii.
Variable stripPosAnnotationsFromText : list ascii -> list ascii.

Local Abbreviation prepared :=
  (NgramProfile.prepared normalizeText stripPosAnnotationsFromText).
Local Abbreviation setText := (setText MD5 normalizeText stripPosAnnotationsFromText).

Lemma setText_text (h : NgramProfile.Heap) (s : t) (text : list ascii) (flags : Z) :
  DiffString.string NDEBUG (State.text (setText h s text flags).2)
  = Some (prepared text flags)
  /\ hashValue (setText h s text flags).2 = MD5 text.
Proof.
  unfold State.setText, NgramProfile.generateFromString.
  destruct (_ <? _)%nat; simpl.
  - split; [done|]. apply updateHash_MD5, MD5_length.
  - destruct (foldl _ _ _) as [[ngrams cnt] buf]. simpl.
    split; [done|]. apply updateHash_MD5, MD5_length.
Qed.

(** X15: after [setText] the state holds the text as the passes left it and
    the hash of the text as it was given: texts that the passes make equal
    give states that are equal and differ in their hash. *)
Theorem setText_hashes_given_text (h1 h2 : NgramProfile.Heap) (s1 s2 : t)
    (text1 text2 : list ascii) (flags : Z) :
  prepared text1 flags = prepared text2 flags -> MD5 text1 <> MD5 text2 ->
  let a := (setText h1 s1 text1 flags).2 in
  let b := (setText h2 s2 text2 flags).2 in
  DiffString.string NDEBUG (State.text a) = Some (prepared text1 flags)
  /\ hashValue a = MD5 text1
  /\ eqb NDEBUG a b = Some true
  /\ hashValue a <> hashValue b.
Proof.
  intros Hsame Hdiff a b.
  destruct (setText_text h1 s1 text1 flags) as [Ha Hha].
  destruct (setText_text h2 s2 text2 flags) as [Hb Hhb].
  split_and!; [done..| |].
  - unfold eqb, DiffString.eqb. fold (State.text a) (State.text b). subst a b.
    rewrite Ha, Hb. simpl. by rewrite bool_decide_eq_true_2 by congruence.
  - subst a b. by rewrite Hha, Hhb.
Qed.

End SetText.

(** ** Paths of nodes *)

Section NodeFacts.
Import Node.
Context {State : Type}.

Local Abbreviation Store := (list (Node.t State)).

(** A parent pointer below [bound] is followed to the root with [bound]
    steps of fuel or more, and the fuel beyond that is not used. *)
Lemma loops_total (σ : Store) :
  parents_first σ ->
  forall (bound : nat) (parent : option nat) (fuel : nat) (d : Z) (ops : list Z),
    (forall p, parent = Some p -> p < bound /\ p < length σ)%nat ->
    (bound <= fuel)%nat ->
    exists path : list (Node.t State),
      path = ancestors bound σ parent
      /\ ancestors fuel σ parent = path
      /\ (Z.of_nat (length path) + d < size_t_max -> 0 <= d ->
          depth_loop fuel σ parent d = Some (d + Z.of_nat (length path)))
      /\ opcodes_loop fuel σ parent ops = Some (ops ++ reverse (opcode_ <$> path)).
Proof.
  intros Hpf. induction bound as [|bound IH]; intros parent fuel d ops Hp Hfuel.
  - destruct parent as [p|]; [destruct (Hp p eq_refl); lia|].
    exists []. destruct fuel; simpl; rewrite ?app_nil_r, ?Z.add_0_r; done.
  - destruct parent as [p|].
    + destruct fuel as [|fuel]; [lia|]. destruct (Hp p eq_refl) as [Hpb Hpl].
      destruct (lookup_lt_is_Some_2 σ p Hpl) as [node Hnode]. simpl. rewrite Hnode. simpl.
      destruct (IH (parent_ node) fuel (to_size_t (d + 1)) (ops ++ [opcode_ node]))
        as (path & Hpath & Hfuelpath & Hdepth & Hops).
      { intros q Hq. pose proof (Hpf p node q Hnode Hq). lia. }
      { lia. }
      exists (path ++ [node]). split_and!.
      * by rewrite Hpath.
      * by rewrite Hfuelpath.
      * rewrite length_app. simpl. intros Hlen Hd.
        unfold to_size_t in *. rewrite Z.mod_small in Hdepth |- * by lia.
        rewrite Hdepth by lia. f_equal. lia.
      * rewrite Hops, fmap_app, reverse_app. simpl. by rewrite <- app_assoc.
    + exists []. destruct fuel; simpl; rewrite ?app_nil_r, ?Z.add_0_r; done.
Qed.

Lemma ancestors_length (σ : Store) (fuel : nat) :
  forall parent, (length (ancestors fuel σ parent) <= fuel)%nat.
Proof.
  induction fuel as [|fuel IH]; intros [p|]; simpl; try lia.
  destruct (σ !! p) as [node|]; simpl; [|lia].
  rewrite length_app. simpl. specialize (IH (parent_ node)). lia.
Qed.

Lemma reverse_removelast_reverse {A} (l : list A) :
  reverse (removelast (reverse l)) = drop 1 l.
Proof.
  destruct l as [|x l]; [done|].
  by rewrite reverse_cons, removelast_last, reverse_involutive.
Qed.

(** What the two member functions return, in terms of the path. *)
Lemma depth_and_opcodes (σ : Store) (n : Node.t State) :
  parents_first σ -> (forall p, parent_ n = Some p -> (p < length σ)%nat) ->
  Z.of_nat (length σ) < size_t_max ->
  getOpcodesStartingFromRoot σ n
  = Some (drop 1 ((opcode_ <$> ancestors (length σ) σ (parent_ n)) ++ [opcode_ n]))
  /\ depth σ n = Some (Z.of_nat (length (ancestors (length σ) σ (parent_ n)))).
Proof.
  intros Hpf Hp Hlen.
  destruct (loops_total σ Hpf (length σ) (parent_ n) (length σ) 0 [opcode_ n])
    as (path & Hpath & _ & Hdepth & Hops); [|done|].
  { intros p Hpn. specialize (Hp p Hpn). lia. }
  pose proof (ancestors_length σ (length σ) (parent_ n)) as Hle. rewrite <- Hpath in *.
  unfold getOpcodesStartingFromRoot, depth. rewrite Hops, Hdepth by lia.
  split; [|done]. cbn [mbind option_bind]. f_equal.
  replace ([opcode_ n] ++ reverse (opcode_ <$> path))
    with (reverse ((opcode_ <$> path) ++ [opcode_ n])) by (by rewrite reverse_app).
  apply reverse_removelast_reverse.
Qed.

(** X16: in a store whose parent pointers lead to earlier nodes, [depth()]
    and [getOpcodesStartingFromRoot()] return for every node of the
    store; there are as many operator codes as the node is deep, none for
    a node without a parent. *)
Theorem depth_counts_opcodes (σ : Store) (i : nat) (n : Node.t State) :
  parents_first σ -> σ !! i = Some n -> Z.of_nat (length σ) < size_t_max ->
  exists opcodes,
    getOpcodesStartingFromRoot σ n = Some opcodes
    /\ depth σ n = Some (Z.of_nat (length opcodes))
    /\ (parent_ n = None <-> opcodes = []).
Proof.
  intros Hpf Hi Hlen. pose proof (lookup_lt_Some _ _ _ Hi) as Hil.
  destruct (depth_and_opcodes σ n Hpf) as [Hops Hdepth]; [|done|].
  { intros p Hp. pose proof (Hpf i n p Hi Hp). lia. }
  eexists. split; [exact Hops|]. split.
  - rewrite Hdepth. do 2 f_equal.
    rewrite length_drop, length_app, length_fmap. simpl. lia.
  - split.
    + intros ->. by destruct (length σ).
    + destruct (parent_ n) as [p|] eqn:Hp; [|done].
      pose proof (Hpf i n p Hi Hp) as Hlt.
      destruct (length σ) as [|fuel] eqn:Hfuel; [lia|]. simpl.
      destruct (lookup_lt_is_Some_2 σ p ltac:(lia)) as [node ->].
      intros Heq. apply (f_equal length) in Heq.
      rewrite length_drop, length_app, length_fmap, length_app in Heq.
      simpl in Heq. lia.
Qed.

(** X17: a node made from a parent is one deeper than the parent, its path
    of operator codes is the parent's followed by its own, and its cost g
    is the parent's plus the cost of the operator. *)
Theorem child_extends_parent (σ : Store) (state : State) (parent : nat)
    (pn : Node.t State) (opcode : Z) (opcost : spec_float) :
  parents_first σ -> σ !! parent = Some pn -> Z.of_nat (length σ) < size_t_max ->
  exists child d opcodes,
    ctor σ state parent opcode opcost = Some child
    /\ depth σ pn = Some d /\ depth σ child = Some (d + 1)
    /\ getOpcodesStartingFromRoot σ pn = Some opcodes
    /\ getOpcodesStartingFromRoot σ child = Some (opcodes ++ [opcode mod 2 ^ 8])
    /\ costG child = float32_add (costG pn) opcost
    /\ costH child = S754_zero false.
Proof.
  intros Hpf Hparent Hlen. pose proof (lookup_lt_Some _ _ _ Hparent) as Hpl.
  unfold ctor. rewrite Hparent. simpl.
  set (child := mk state _ _ _ _).
  destruct (depth_and_opcodes σ pn Hpf) as [Hops Hdepth]; [|done|].
  { intros p Hp. pose proof (Hpf parent pn p Hparent Hp). lia. }
  destruct (depth_and_opcodes σ child Hpf) as [Hops' Hdepth']; [|done|].
  { intros p [= <-]. done. }
  assert (ancestors (length σ) σ (parent_ child)
          = ancestors (length σ) σ (parent_ pn) ++ [pn]) as Hpath.
  { assert (forall p, parent_ pn = Some p -> (p < parent)%nat /\ (p < length σ)%nat) as Hup.
    { intros p Hp. pose proof (Hpf parent pn p Hparent Hp). lia. }
    destruct (loops_total σ Hpf parent (parent_ pn) (length σ - 1) 0 [] Hup)
      as (path1 & Hpath1 & Hfuel1 & _); [lia|].
    destruct (loops_total σ Hpf parent (parent_ pn) (length σ) 0 [] Hup)
      as (path2 & Hpath2 & Hfuel2 & _); [lia|].
    rewrite Hfuel2, Hpath2, <- Hpath1, <- Hfuel1.
    replace (length σ) with (S (length σ - 1)) at 1 by lia.
    change (parent_ child) with (Some parent). cbn [ancestors]. by rewrite Hparent. }
  eexists child, _, _. split; [done|]. split; [exact Hdepth|]. split; [|split; [exact Hops|]].
  - rewrite Hdepth', Hpath, length_app. simpl. f_equal. lia.
  - split; [|done]. rewrite Hops', Hpath, fmap_app. simpl.
    f_equal.
    by destruct (opcode_ <$> ancestors (length σ) σ (parent_ pn)) as [|o os].
Qed.

End NodeFacts.

(** ** More on the OPEN list *)

Section OpenListMore.
Import OpenList.
Context {State : Type} (compute_hash_ : State -> string).
Context (push_heap pop_heap make_heap : forall A : Type, (A -> A -> bool) -> list A -> list A).
Hypothesis Halg : heap_algorithms push_heap pop_heap make_heap.

Local Abbreviation Store := (list (Node.t State)).
Local Abbreviation valid σ := (fun p : nat => is_Some ((σ : Store) !! p)).
Local Abbreviation consistent := (consistent State compute_hash_).
Local Abbreviation hash_at := (hash_at State compute_hash_).

(** In a consistent list the map has one entry for each node of the vector. *)
Lemma map_size_heap (σ : Store) (ol : t) :
  consistent σ ol -> stdpp.base.size (nodes_map_ ol) = length (nodes_heap_ ol).
Proof.
  intros (_ & Hnodup & Hvalid & Hmap).
  rewrite <- length_map_to_list.
  rewrite <- (length_fmap snd (map_to_list (nodes_map_ ol))).
  apply Permutation_length, NoDup_Permutation; [|done|].
  - apply NoDup_fmap_2_strong; [|apply NoDup_map_to_list].
    intros [k1 p1] [k2 p2] H1 H2. simpl. intros <-.
    apply elem_of_map_to_list in H1, H2. apply Hmap in H1 as [_ H1], H2 as [_ H2].
    congruence.
  - intros p. rewrite list_elem_of_fmap. split.
    + intros ([k q] & -> & Hkq). apply elem_of_map_to_list in Hkq.
      by apply Hmap in Hkq as [Hin _].
    + intros Hin. rewrite Forall_forall in Hvalid. destruct (Hvalid p Hin) as [n Hn].
      exists (compute_hash_ (Node.state n), p). split; [done|].
      apply elem_of_map_to_list, Hmap. split; [done|]. unfold OpenList.hash_at. by rewrite Hn.
Qed.

(** X18: after any calls on a list that started empty, [size()], [empty()]
    and [contains()] agree with the nodes of the list. *)
Theorem size_empty_contains_agree (σ0 σ : Store) (ol : t) (cs : list call) :
  costs_are_numbers State σ0 ->
  run State compute_hash_ push_heap pop_heap make_heap σ0 empty_list cs = Some (σ, ol) ->
  OpenList.size ol = stdpp.base.size (nodes_map_ ol)
  /\ (empty ol = true <-> OpenList.size ol = 0%nat)
  /\ (forall state,
        contains State compute_hash_ ol state = true
        <-> exists p n, p ∈ nodes_heap_ ol /\ σ !! p = Some n
                        /\ compute_hash_ (Node.state n) = compute_hash_ state).
Proof.
  intros Hnum Hrun.
  destruct (run_consistent compute_hash_ push_heap pop_heap make_heap Halg
              cs σ0 σ empty_list ol Hnum (consistent_empty compute_hash_ σ0) Hrun)
    as [_ Hcons].
  pose proof (map_size_heap σ ol Hcons) as Hsize.
  destruct Hcons as (_ & _ & Hvalid & Hmap).
  unfold OpenList.size, empty. split_and!.
  - done.
  - rewrite <- Hsize. rewrite bool_decide_eq_true. split.
    + intros ->. apply map_size_empty.
    + apply map_size_empty_inv.
  - intros state. unfold contains. rewrite bool_decide_eq_true. split.
    + intros [p Hp]. apply Hmap in Hp as [Hin Hh]. unfold OpenList.hash_at in Hh.
      destruct (σ !! p) as [n|] eqn:Hn; [|done]. simpl in Hh. injection Hh as Hh.
      by exists p, n.
    + intros (p & n & Hin & Hn & Hh). exists p. apply Hmap. split; [done|].
      unfold OpenList.hash_at. rewrite Hn. simpl. by rewrite Hh.
Qed.

Lemma same_hash_same_node (σ : Store) (ol : t) (p q : nat) (k : string) :
  consistent σ ol -> p ∈ nodes_heap_ ol -> q ∈ nodes_heap_ ol ->
  hash_at σ p = Some k -> hash_at σ q = Some k -> p = q.
Proof.
  intros (_ & _ & _ & Hmap) Hp Hq Hhp Hhq.
  assert (nodes_map_ ol !! k = Some p) as H1 by (by apply Hmap).
  assert (nodes_map_ ol !! k = Some q) as H2 by (by apply Hmap).
  congruence.
Qed.

(** The loop of [clear] moves the cheapest nodes, one by one, from the
    list to the new vector and the new map. *)
Lemma clear_loop_keeps (σ : Store) (ol0 : t) :
  costs_are_numbers State σ -> consistent σ ol0 ->
  forall (k : nat) (ol : t) (newHeap : list nat) (newMap : gmap string nat),
    consistent σ ol -> nodes_heap_ ol0 ≡ₚ newHeap ++ nodes_heap_ ol ->
    (k <= length (nodes_heap_ ol))%nat ->
    (forall key p, newMap !! key = Some p <-> p ∈ newHeap /\ hash_at σ p = Some key) ->
    (forall v w, v ∈ newHeap -> w ∈ nodes_heap_ ol -> costF_le State σ v w) ->
    exists newHeap' newMap' rest,
      clear_loop State compute_hash_ pop_heap k σ ol newHeap newMap
      = Some (newHeap', newMap')
      /\ length newHeap' = (length newHeap + k)%nat
      /\ nodes_heap_ ol0 ≡ₚ newHeap' ++ rest
      /\ (forall key p, newMap' !! key = Some p
                        <-> p ∈ newHeap' /\ hash_at σ p = Some key)
      /\ (forall v w, v ∈ newHeap' -> w ∈ rest -> costF_le State σ v w).
Proof.
  intros Hnum Hcons0. induction k as [|k IH]; intros ol newHeap newMap Hcons Hperm Hk Hmap Hle.
  - exists newHeap, newMap, (nodes_heap_ ol). simpl. rewrite Nat.add_0_r. done.
  - simpl.
    assert (nodes_heap_ ol <> []) as Hne by (destruct (nodes_heap_ ol); simpl in Hk; [lia|done]).
    destruct (pop_consistent compute_hash_ push_heap pop_heap make_heap Halg σ ol Hnum Hcons Hne)
      as (ol1 & node & -> & Hcons1 & Hperm1 & Hleast). simpl.
    assert (node ∈ nodes_heap_ ol) as Hnode_in by (rewrite Hperm1; by left).
    destruct Hcons as (_ & _ & Hvalid & _).
    assert (is_Some (σ !! node)) as [n Hn].
    { rewrite Forall_forall in Hvalid. by apply Hvalid. }
    rewrite Hn. simpl.
    assert (hash_at σ node = Some (compute_hash_ (Node.state n))) as Hhash.
    { unfold OpenList.hash_at. by rewrite Hn. }
    assert (NoDup (nodes_heap_ ol0)) as Hnd0 by apply Hcons0.
    assert (newMap !! compute_hash_ (Node.state n) = None) as Hfresh.
    { destruct (newMap !! _) as [p|] eqn:Hp; [|done].
      apply Hmap in Hp as [Hp Hhp].
      assert (p = node) as ->.
      { apply (same_hash_same_node σ ol0 p node (compute_hash_ (Node.state n)) Hcons0);
          try done.
        - rewrite Hperm, elem_of_app. by left.
        - rewrite Hperm, elem_of_app. by right. }
      rewrite Hperm in Hnd0. apply NoDup_app in Hnd0 as (_ & Hdisj & _).
      by destruct (Hdisj node Hp). }
    unfold map_insert. rewrite Hfresh.
    destruct (IH ol1 (newHeap ++ [node]) (<[compute_hash_ (Node.state n) := node]> newMap))
      as (newHeap' & newMap' & rest & Hloop & Hlen & Hperm' & Hmap' & Hle'); try done.
    + rewrite Hperm, Hperm1, <- app_assoc. done.
    + apply Permutation_length in Hperm1. simpl in Hperm1. lia.
    + intros key p. rewrite elem_of_app, list_elem_of_singleton.
      destruct (decide (key = compute_hash_ (Node.state n))) as [->|Hkey].
      * rewrite lookup_insert_eq. split.
        -- intros [= <-]. split; [by right|done].
        -- intros [[Hp| ->] Hhp]; [|done].
           assert (newMap !! compute_hash_ (Node.state n) = Some p) as Hc
             by (by apply Hmap).
           congruence.
      * rewrite lookup_insert_ne by done. rewrite Hmap. split.
        -- intros [Hp Hhp]. split; [by left|done].
        -- intros [[Hp| ->] Hhp]; [done|]. congruence.
    + intros v w. rewrite elem_of_app, list_elem_of_singleton. intros [Hv| ->] Hw.
      * apply Hle; [done|]. rewrite Hperm1. by right.
      * by apply Hleast.
    + exists newHeap', newMap', rest. split_and!; try done.
      rewrite Hlen, length_app. simpl. lia.
Qed.

(** X19: [clear(keepNodes)] keeps that many of the cheapest nodes. *)
Theorem clear_keeps_cheapest (σ0 σ : Store) (ol : t) (cs : list call) (keepNodes : nat) :
  costs_are_numbers State σ0 ->
  run State compute_hash_ push_heap pop_heap make_heap σ0 empty_list cs = Some (σ, ol) ->
  (keepNodes <= OpenList.size ol)%nat ->
  exists ol' dropped,
    clear State compute_hash_ pop_heap make_heap σ ol keepNodes = Some ol'
    /\ OpenList.size ol' = keepNodes
    /\ nodes_heap_ ol ≡ₚ nodes_heap_ ol' ++ dropped
    /\ (forall v w, v ∈ nodes_heap_ ol' -> w ∈ dropped -> costF_le State σ v w)
    /\ consistent σ ol'.
Proof.
  intros Hnum0 Hrun Hk.
  destruct (run_consistent compute_hash_ push_heap pop_heap make_heap Halg
              cs σ0 σ empty_list ol Hnum0 (consistent_empty compute_hash_ σ0) Hrun)
    as [Hnum Hcons].
  unfold clear. case_bool_decide as Hempty.
  - exists ol, []. unfold OpenList.size in *. rewrite Hempty in *. simpl in *.
    split_and!; try done; [lia|]. intros v w Hv. by apply not_elem_of_nil in Hv.
  - destruct (clear_loop_keeps σ ol Hnum Hcons keepNodes ol [] ∅)
      as (newHeap & newMap & rest & -> & Hlen & Hperm & Hmap & Hle); try done.
    { intros key p. rewrite lookup_empty. split; [done|].
      intros [Hin _]. by apply not_elem_of_nil in Hin. }
    { intros v w Hv. by apply not_elem_of_nil in Hv. }
    simpl.
    pose proof Hcons as (_ & Hnd & Hvalid & _).
    assert (Forall (valid σ) newHeap) as Hvalid'.
    { rewrite Hperm in Hvalid. by apply Forall_app in Hvalid as [? _]. }
    destruct (make_heap_spec _ _ _ Halg nat (higher_cost_ State σ) (valid σ) newHeap
                (higher_cost_strict_weak σ Hnum) Hvalid')
      as [Hheap' Hperm'].
    eexists _, rest. split; [reflexivity|]. unfold OpenList.size. simpl. split_and!.
    + rewrite Hperm'. simpl in Hlen. done.
    + by rewrite Hperm'.
    + intros v w. rewrite Hperm'. apply Hle.
    + unfold OpenList.consistent. simpl. split_and!.
      * done.
      * rewrite Hperm'. rewrite Hperm in Hnd. by apply NoDup_app in Hnd as [? _].
      * by rewrite Hperm'.
      * intros key p. rewrite Hperm'. apply Hmap.
Qed.

(** X20: the nodes come off the list in the order of their cost f. *)
Theorem pops_come_in_order (σ0 σ : Store) (ol ol1 ol2 : t) (cs : list call) (v1 v2 : nat) :
  costs_are_numbers State σ0 ->
  run State compute_hash_ push_heap pop_heap make_heap σ0 empty_list cs = Some (σ, ol) ->
  pop State compute_hash_ pop_heap σ ol = Some (ol1, v1) ->
  pop State compute_hash_ pop_heap σ ol1 = Some (ol2, v2) ->
  costF_le State σ v1 v2 /\ v1 <> v2
  /\ nodes_heap_ ol ≡ₚ v1 :: v2 :: nodes_heap_ ol2.
Proof.
  intros Hnum0 Hrun Hpop1 Hpop2.
  destruct (run_consistent compute_hash_ push_heap pop_heap make_heap Halg
              cs σ0 σ empty_list ol Hnum0 (consistent_empty compute_hash_ σ0) Hrun)
    as [Hnum Hcons].
  assert (nodes_heap_ ol <> []) as Hne.
  { intros Hempty. unfold pop in Hpop1. by rewrite bool_decide_eq_true_2 in Hpop1. }
  destruct (pop_consistent compute_hash_ push_heap pop_heap make_heap Halg σ ol Hnum Hcons Hne)
    as (ol1' & v1' & Hpop1' & Hcons1 & Hperm1 & Hleast).
  rewrite Hpop1 in Hpop1'. injection Hpop1' as <- <-.
  assert (nodes_heap_ ol1 <> []) as Hne1.
  { intros Hempty. unfold pop in Hpop2. by rewrite bool_decide_eq_true_2 in Hpop2. }
  destruct (pop_consistent compute_hash_ push_heap pop_heap make_heap Halg σ ol1 Hnum Hcons1 Hne1)
    as (ol2' & v2' & Hpop2' & _ & Hperm2 & _).
  rewrite Hpop2 in Hpop2'. injection Hpop2' as <- <-.
  assert (v2 ∈ nodes_heap_ ol1) as Hin by (rewrite Hperm2; by left).
  split_and!.
  - by apply Hleast.
  - intros ->. destruct Hcons as (_ & Hnd & _). rewrite Hperm1 in Hnd.
    by apply NoDup_cons in Hnd as [Hnot _].
  - by rewrite Hperm1, Hperm2.
Qed.

End OpenListMore.

(** ** The CLOSED list *)

Section ClosedListFacts.
Import ClosedList.
Context {State : Type} (compute_hash_ : State -> string).

Local Abbreviation Store := (list (Node.t State)).
Local Abbreviation hash_at := (OpenList.hash_at State compute_hash_).

Lemma map_insert_lookup {V} (m : gmap string V) (k k' : string) (v : V) :
  map_insert m k v !! k'
  = match m !! k' with
    | Some w => Some w
    | None => if decide (k' = k) then Some v else None
    end.
Proof.
  unfold map_insert. destruct (m !! k) as [w|] eqn:Hk.
  - destruct (m !! k') eqn:Hk'; [done|]. destruct (decide (k' = k)) as [->|]; [congruence|done].
  - destruct (decide (k' = k)) as [->|Hne].
    + by rewrite lookup_insert_eq, Hk.
    + rewrite lookup_insert_ne by done. by destruct (m !! k').
Qed.

(** X21: [put] never replaces a node, [get] finds what [put] stored, and
    [pop] forgets the state of its node and nothing else. *)
Theorem put_get_pop (σ : Store) (cl : t) (node : nat) (n : Node.t State) :
  σ !! node = Some n ->
  exists cl' inserted cl'',
    put State compute_hash_ σ cl node = Some (cl', inserted)
    /\ pop State compute_hash_ σ cl' node = Some cl''
    /\ (inserted = true <-> contains State compute_hash_ cl (Node.state n) = false)
    /\ get State compute_hash_ cl' (Node.state n)
       = (if inserted then Some node else get State compute_hash_ cl (Node.state n))
    /\ size cl' = (if inserted then S (size cl) else size cl)
    /\ contains State compute_hash_ cl'' (Node.state n) = false
    /\ (forall state, compute_hash_ state <> compute_hash_ (Node.state n) ->
        get State compute_hash_ cl' state = get State compute_hash_ cl state
        /\ get State compute_hash_ cl'' state = get State compute_hash_ cl state).
Proof.
  intros Hnode. unfold put, pop. rewrite Hnode. simpl.
  eexists _, _, _. split; [reflexivity|]. split; [reflexivity|].
  unfold contains, get, size. simpl.
  set (k := compute_hash_ (Node.state n)).
  split_and!.
  - rewrite bool_decide_eq_true, bool_decide_eq_false.
    rewrite <- eq_None_not_Some. done.
  - rewrite map_insert_lookup.
    destruct (nodes_ cl !! k) as [w|] eqn:Hk.
    + by rewrite bool_decide_eq_false_2.
    + rewrite bool_decide_eq_true_2 by done. by rewrite decide_True.
  - unfold map_insert. destruct (nodes_ cl !! k) as [w|] eqn:Hk.
    + by rewrite bool_decide_eq_false_2.
    + rewrite bool_decide_eq_true_2 by done. by rewrite map_size_insert_None.
  - rewrite bool_decide_eq_false. rewrite lookup_delete_eq. by intros [? ?].
  - intros state Hne. rewrite lookup_delete_ne by done.
    rewrite map_insert_lookup. rewrite decide_False by done.
    by destruct (nodes_ cl !! compute_hash_ state).
Qed.

(** X22: after a run of [put] calls on an empty list, [get] returns the
    first node that was put with the state's hash. *)
Theorem first_put_wins (σ : Store) (nodes : list nat) (state : State) :
  Forall (fun p => is_Some (σ !! p)) nodes ->
  exists cl,
    puts State compute_hash_ σ empty_list nodes = Some cl
    /\ get State compute_hash_ cl state
       = head (filter (fun p => hash_at σ p = Some (compute_hash_ state)) nodes).
Proof.
  intros Hvalid.
  assert (forall cl0 : t,
            exists cl, puts State compute_hash_ σ cl0 nodes = Some cl
              /\ get State compute_hash_ cl state
                 = match get State compute_hash_ cl0 state with
                   | Some p => Some p
                   | None => head (filter (fun p => hash_at σ p = Some (compute_hash_ state))
                                     nodes)
                   end) as Hgen.
  { induction nodes as [|node nodes IH]; intros cl0; simpl.
    - exists cl0. split; [done|]. by destruct (get _ _ _ _).
    - apply Forall_cons in Hvalid as [[n Hn] Hvalid].
      unfold put. rewrite Hn. simpl.
      destruct (IH Hvalid {| nodes_ := map_insert (nodes_ cl0)
                                         (compute_hash_ (Node.state n)) node |})
        as (cl & -> & Hget).
      exists cl. split; [done|]. rewrite Hget. unfold get. simpl.
      rewrite map_insert_lookup.
      destruct (nodes_ cl0 !! compute_hash_ state) as [w|]; [done|].
      assert (hash_at σ node = Some (compute_hash_ (Node.state n))) as Hh
        by (unfold OpenList.hash_at; by rewrite Hn).
      rewrite filter_cons.
      destruct (decide (compute_hash_ state = compute_hash_ (Node.state n))) as [Heq|Hne].
      + by rewrite decide_True by congruence.
      + by rewrite decide_False by congruence. }
  destruct (Hgen empty_list) as (cl & Hputs & Hget).
  exists cl. split; [done|]. rewrite Hget. unfold get, empty_list. simpl.
  by rewrite lookup_empty.
Qed.

Lemma map_insert_is_Some {V} (m : gmap string V) (k k' : string) (v : V) :
  is_Some (map_insert m k v !! k') <-> is_Some (m !! k') \/ k' = k.
Proof.
  rewrite map_insert_lookup. destruct (m !! k') as [w|].
  - split; [by left | by eexists].
  - destruct (decide (k' = k)) as [->|Hne].
    + split; [by right | by eexists].
    + split; [by intros [? ?] | intros [[? ?]|?]; done].
Qed.

(** The walk from a node to the root stores the hash of every node on
    the way. *)
Lemma keep_loop_ancestors (σ : Store) :
  Node.parents_first σ ->
  forall (bound p fuel : nat) (m : gmap string nat),
    (p < bound)%nat -> (p < length σ)%nat -> (bound <= fuel)%nat ->
    exists m',
      keep_loop State compute_hash_ fuel σ (Some p) m = Some m'
      /\ forall k, is_Some (m' !! k)
                   <-> is_Some (m !! k)
                       \/ exists a, a ∈ Node.ancestors fuel σ (Some p)
                                    /\ compute_hash_ (Node.state a) = k.
Proof.
  intros Hpf. induction bound as [|bound IH]; intros p fuel m Hp Hpl Hfuel; [lia|].
  destruct fuel as [|fuel]; [lia|].
  destruct (lookup_lt_is_Some_2 σ p Hpl) as [node Hnode].
  cbn [keep_loop Node.ancestors mbind option_bind]. rewrite !Hnode.
  cbn [mbind option_bind].
  destruct (Node.parent_ node) as [q|] eqn:Hq.
  - pose proof (Hpf p node q Hnode Hq) as Hlt.
    destruct (IH q fuel (map_insert m (compute_hash_ (Node.state node)) p))
      as (m' & -> & Hm'); [lia..|].
    exists m'. split; [done|]. intros k. rewrite Hm', map_insert_is_Some.
    setoid_rewrite elem_of_app. setoid_rewrite list_elem_of_singleton.
    split.
    + intros [[Hk| ->]|(a & Ha & Hk)]; [by left|right..].
      * exists node. by split; [right|].
      * exists a. by split; [left|].
    + intros [Hk|(a & [Ha| ->] & Hk)]; [by left; left|..].
      * right. by exists a.
      * left. by right.
  - eexists. split; [done|]. intros k. rewrite map_insert_is_Some.
    assert (Node.ancestors fuel σ None = []) as -> by (by destruct fuel).
    simpl. setoid_rewrite list_elem_of_singleton. split.
    + intros [Hk| ->]; [by left|]. right. by exists node.
    + intros [Hk|(a & -> & Hk)]; [by left | by right].
Qed.

(** X23: [clear(keepBegin, keepEnd)] leaves on the list the states of the
    nodes above the nodes of the range, and no others; a node of the range
    that has no parent makes it fail. *)
Theorem clear_range_keeps_ancestors (σ : Store) (cl : t) (keep : list (option nat)) :
  Node.parents_first σ ->
  Forall (fun k => forall i, k = Some i -> is_Some (σ !! i)) keep ->
  (Forall (fun k => forall i n, k = Some i -> σ !! i = Some n ->
                                is_Some (Node.parent_ n)) keep ->
   exists cl',
     clear_range State compute_hash_ σ cl keep = Some cl'
     /\ forall state,
          contains State compute_hash_ cl' state = true
          <-> exists i n a,
                Some i ∈ keep /\ σ !! i = Some n
                /\ a ∈ Node.ancestors (length σ) σ (Node.parent_ n)
                /\ compute_hash_ (Node.state a) = compute_hash_ state)
  /\ (forall i n, Some i ∈ keep -> σ !! i = Some n -> Node.parent_ n = None ->
      clear_range State compute_hash_ σ cl keep = None).
Proof.
  intros Hpf Hvalid. split.
  - intros Hparents.
    assert (forall m : gmap string nat,
              exists m', clear_range_loop State compute_hash_ σ keep m = Some m'
                /\ forall k, is_Some (m' !! k)
                     <-> is_Some (m !! k)
                         \/ exists i n a,
                              Some i ∈ keep /\ σ !! i = Some n
                              /\ a ∈ Node.ancestors (length σ) σ (Node.parent_ n)
                              /\ compute_hash_ (Node.state a) = k) as Hgen.
    { induction keep as [|[i|] keep IH]; intros m; simpl.
      - exists m. split; [done|]. intros k. split; [by left|].
        intros [Hk|(i & n & a & Hin & _)]; [done|]. by apply not_elem_of_nil in Hin.
      - apply Forall_cons in Hvalid as [Hi Hvalid].
        apply Forall_cons in Hparents as [Hpi Hparents].
        destruct (Hi i eq_refl) as [n Hn]. rewrite Hn. simpl.
        destruct (Hpi i n eq_refl Hn) as [p Hp]. rewrite Hp.
        pose proof (Hpf i n p Hn Hp) as Hlt. pose proof (lookup_lt_Some _ _ _ Hn) as Hil.
        destruct (keep_loop_ancestors σ Hpf (length σ) p (length σ) m)
          as (m1 & -> & Hm1); [lia..|]. simpl.
        destruct (IH Hvalid Hparents m1) as (m' & -> & Hm').
        exists m'. split; [done|]. intros k. rewrite Hm', Hm1. split.
        + intros [[Hk|(a & Ha & Hk)]|(j & nj & a & Hin & Hrest)].
          * by left.
          * right. exists i, n, a. rewrite Hp. split_and!; [by left|done..].
          * right. exists j, nj, a. split; [by right|done].
        + intros [Hk|(j & nj & a & Hin & Hj & Ha & Hk)]; [by left; left|].
          apply elem_of_cons in Hin as [[= <-]|Hin].
          * left. right. rewrite Hn in Hj. injection Hj as <-. rewrite Hp in Ha.
            by exists a.
          * right. by exists j, nj, a.
      - apply Forall_cons in Hvalid as [_ Hvalid].
        apply Forall_cons in Hparents as [_ Hparents].
        destruct (IH Hvalid Hparents m) as (m' & -> & Hm').
        exists m'. split; [done|]. intros k. rewrite Hm'. split.
        + intros [Hk|(j & nj & a & Hin & Hrest)]; [by left|].
          right. exists j, nj, a. split; [by right|done].
        + intros [Hk|(j & nj & a & Hin & Hrest)]; [by left|].
          apply elem_of_cons in Hin as [?|Hin]; [done|].
          right. by exists j, nj, a. }
    destruct (Hgen ∅) as (m' & Hloop & Hm').
    unfold clear_range. rewrite Hloop. simpl. eexists. split; [done|].
    intros state. unfold contains. simpl. rewrite bool_decide_eq_true, Hm'.
    rewrite lookup_empty. split.
    + intros [[? ?]|H]; done.
    + intros H. by right.
  - intros i n Hin Hn Hroot. unfold clear_range.
    assert (forall m, clear_range_loop State compute_hash_ σ keep m = None) as ->; [|done].
    induction keep as [|[j|] keep IH]; intros m; simpl.
    + by apply not_elem_of_nil in Hin.
    + apply Forall_cons in Hvalid as [Hj Hvalid].
      destruct (Hj j eq_refl) as [nj Hnj]. rewrite Hnj. simpl.
      apply elem_of_cons in Hin as [[= <-]|Hin].
      * rewrite Hn in Hnj. injection Hnj as <-. rewrite Hroot.
        by destruct (length σ).
      * destruct (keep_loop _ _ _ _ _ _) as [m1|]; simpl; [|done]. by apply IH.
    + apply Forall_cons in Hvalid as [_ Hvalid].
      apply elem_of_cons in Hin as [?|Hin]; [done|]. by apply IH.
Qed.

End ClosedListFacts.

(** ** The steps of the search *)

Section AstarFacts.
Import AstarSearch.
Context {State : Type} (compute_hash_ : State -> string).
Context (push_heap pop_heap make_heap : forall A : Type, (A -> A -> bool) -> list A -> list A).
Hypothesis Halg : OpenList.heap_algorithms push_heap pop_heap make_heap.

Local Abbreviation Store := (list (Node.t State)).
Local Abbreviation hash_at := (OpenList.hash_at State compute_hash_).
Local Abbreviation separate := (separate State compute_hash_).

(** X27: the cheapest node moves from OPEN to CLOSED, and the lists stay
    separate. *)
Theorem expand_keeps_separate (σ : Store) (l : lists) :
  OpenList.costs_are_numbers State σ -> separate σ l ->
  OpenList.nodes_heap_ (open l) <> [] ->
  exists l' node n,
    expand State compute_hash_ pop_heap σ l = Some (l', node)
    /\ separate σ l'
    /\ σ !! node = Some n
    /\ ClosedList.get State compute_hash_ (closed l') (Node.state n) = Some node
    /\ OpenList.contains State compute_hash_ (open l') (Node.state n) = false
    /\ (forall w, w ∈ OpenList.nodes_heap_ (open l') -> OpenList.costF_le State σ node w).
Proof.
  intros Hnum (Hcons & Hclosed & Hsep) Hne. unfold expand.
  destruct (pop_consistent compute_hash_ push_heap pop_heap make_heap Halg σ (open l)
              Hnum Hcons Hne) as (open' & node & Hpop & Hcons' & Hperm & Hleast).
  rewrite Hpop. simpl.
  pose proof Hcons as (_ & Hnd & Hvalid & Hmap).
  assert (node ∈ OpenList.nodes_heap_ (open l)) as Hin by (rewrite Hperm; by left).
  assert (is_Some (σ !! node)) as [n Hn].
  { rewrite Forall_forall in Hvalid. by apply Hvalid. }
  unfold ClosedList.put. rewrite Hn. simpl.
  set (k := compute_hash_ (Node.state n)).
  assert (hash_at σ node = Some k) as Hhash by (unfold OpenList.hash_at; by rewrite Hn).
  assert (OpenList.nodes_map_ (open l) !! k = Some node) as Hk by (by apply Hmap).
  assert (ClosedList.nodes_ (closed l) !! k = None) as Hfresh by (by apply Hsep).
  assert (OpenList.nodes_map_ open' !! k = None) as Hgone.
  { destruct (OpenList.nodes_map_ open' !! k) as [q|] eqn:Hq; [|done].
    destruct Hcons' as (_ & _ & _ & Hmap'). apply Hmap' in Hq as [Hq Hhq].
    assert (q = node) as ->.
    { apply (same_hash_same_node compute_hash_ σ (open l) q node k Hcons); try done.
      rewrite Hperm. by right. }
    rewrite Hperm in Hnd. by apply NoDup_cons in Hnd as [Hnot _]. }
  eexists _, node, n. split; [reflexivity|]. simpl. split_and!; try done.
  - split_and!; simpl; [done| |].
    + intros k' p. rewrite map_insert_lookup.
      destruct (ClosedList.nodes_ (closed l) !! k') as [w|] eqn:Hk'.
      * intros [= <-]. by apply Hclosed.
      * destruct (decide (k' = k)) as [->|]; [|done]. by intros [= <-].
    + intros k' Hk'. rewrite map_insert_lookup.
      assert (is_Some (OpenList.nodes_map_ (open l) !! k')) as Hold.
      { destruct Hk' as [q Hq]. destruct Hcons' as (_ & _ & _ & Hmap').
        apply Hmap' in Hq as [Hq Hhq]. exists q. apply Hmap. split; [|done].
        rewrite Hperm. by right. }
      rewrite (Hsep k' Hold). rewrite decide_False; [done|].
      intros ->. rewrite Hgone in Hk'. by destruct Hk'.
  - unfold ClosedList.get. simpl. rewrite map_insert_lookup. fold k.
    by rewrite Hfresh, decide_True.
  - unfold OpenList.contains. fold k. rewrite Hgone. apply bool_decide_eq_false.
    by intros [? ?].
Qed.

(** Overwriting a node by one with the same state changes no hash. *)
Lemma consistent_store (σ σ' : Store) (ol : OpenList.t) :
  (forall q, hash_at σ' q = hash_at σ q) ->
  (forall q, q ∈ OpenList.nodes_heap_ ol -> σ' !! q = σ !! q) ->
  OpenList.consistent State compute_hash_ σ ol ->
  OpenList.consistent State compute_hash_ σ' ol.
Proof.
  intros Hhash Hsame (Hheap & Hnd & Hvalid & Hmap). split_and!; [|done| |].
  - intros i x y Hpos Hx Hy. specialize (Hheap i x y Hpos Hx Hy).
    unfold OpenList.higher_cost_ in *.
    rewrite !Hsame by (by eapply list_elem_of_lookup_2). done.
  - rewrite Forall_forall in Hvalid |- *. intros q Hq. rewrite Hsame by done. by apply Hvalid.
  - intros k p. rewrite Hhash. apply Hmap.
Qed.

(** X28: what the loop does with a new node, as long as OPEN holds fewer
    than 40000 nodes.  A state that is not on CLOSED is on OPEN afterwards,
    and is counted as a duplicate when it was there before; a state on
    CLOSED is moved to OPEN and counted as reopened when the new node has the
    lower cost g, and otherwise only counted as a duplicate.  OPEN stays
    consistent and the lists stay separate. *)
Theorem visit_keeps_separate (fast32_bits : Z) (σ : Store) (l : lists) (new_node : nat)
    (n : Node.t State) (costH : spec_float) :
  OpenList.costs_are_numbers State σ -> separate σ l ->
  σ !! new_node = Some n -> new_node ∉ OpenList.nodes_heap_ (open l) ->
  Node.float32_add (Node.costG n) costH <> S754_nan ->
  Z.of_nat (OpenList.size (open l)) < 40000 ->
  exists σ' l',
    visit State compute_hash_ push_heap pop_heap make_heap fast32_bits σ l new_node costH
    = Some (σ', l')
    /\ OpenList.costs_are_numbers State σ' /\ separate σ' l'
    /\ ((ClosedList.get State compute_hash_ (closed l) (Node.state n) = None
         /\ OpenList.contains State compute_hash_ (open l') (Node.state n) = true
         /\ closed l' = closed l
         /\ num_reopened_states l' = num_reopened_states l
         /\ num_duplicated_states l'
            = (if OpenList.contains State compute_hash_ (open l) (Node.state n)
               then to_uint_fast32 fast32_bits (num_duplicated_states l + 1)
               else num_duplicated_states l))
        \/ (exists closedNode c,
              ClosedList.get State compute_hash_ (closed l) (Node.state n) = Some closedNode
              /\ σ !! closedNode = Some c
              /\ SFltb (Node.costG n) (Node.costG c) = true
              /\ OpenList.contains State compute_hash_ (open l') (Node.state n) = true
              /\ ClosedList.contains State compute_hash_ (closed l') (Node.state n) = false
              /\ num_reopened_states l'
                 = to_uint_fast32 fast32_bits (num_reopened_states l + 1)
              /\ num_duplicated_states l' = num_duplicated_states l)
        \/ (exists closedNode c,
              ClosedList.get State compute_hash_ (closed l) (Node.state n) = Some closedNode
              /\ σ !! closedNode = Some c
              /\ SFltb (Node.costG n) (Node.costG c) = false
              /\ σ' = σ /\ open l' = open l /\ closed l' = closed l
              /\ num_reopened_states l' = num_reopened_states l
              /\ num_duplicated_states l'
                 = to_uint_fast32 fast32_bits (num_duplicated_states l + 1))).
Proof.
  intros Hnum (Hcons & Hclosed & Hsep) Hnode Hfresh HcostF Hsize. unfold visit.
  rewrite Hnode. simpl.
  set (k := compute_hash_ (Node.state n)).
  assert (forall ol' σ', OpenList.consistent State compute_hash_ σ' ol' ->
            (exists q, q ∈ OpenList.nodes_heap_ ol' /\ hash_at σ' q = Some k) ->
            OpenList.contains State compute_hash_ ol' (Node.state n) = true) as Hcontains.
  { intros ol' σ' (_ & _ & _ & Hmap') (q & Hq & Hhq). unfold OpenList.contains.
    apply bool_decide_eq_true. exists q. by apply Hmap'. }
  unfold ClosedList.contains, ClosedList.get. fold k.
  destruct (ClosedList.nodes_ (closed l) !! k) as [p|] eqn:Hk.
  - (* the state is on CLOSED *)
    rewrite bool_decide_eq_true_2 by (by eexists). simpl.
    pose proof (Hclosed k p Hk) as Hhp. unfold OpenList.hash_at in Hhp.
    destruct (σ !! p) as [c|] eqn:Hp; [|done]. simpl in Hhp. injection Hhp as Hhp.
    simpl. destruct (SFltb (Node.costG n) (Node.costG c)) eqn:Hless.
    + unfold ClosedList.pop. rewrite Hp. simpl. rewrite Hhp.
      destruct (pushOrUpdate_consistent compute_hash_ push_heap pop_heap make_heap Halg
                  σ (open l) new_node n Hnum Hcons Hnode)
        as (σ' & open' & inserted & -> & Hnum' & Hcons' & Hiff & Hins & _). simpl.
      assert (inserted = true) as ->.
      { apply Hiff. intros (w & Hw & Hhw).
        assert (is_Some (OpenList.nodes_map_ (open l) !! k)) as Hopen.
        { exists w. by apply Hcons. }
        rewrite (Hsep k Hopen) in Hk. done. }
      destruct (Hins eq_refl) as [-> Hperm].
      eexists σ, _. split; [reflexivity|]. simpl. split_and!; [done| |].
      * split_and!; simpl; [done| |].
        -- intros k' q Hq. apply lookup_delete_Some in Hq as [_ Hq]. by apply Hclosed.
        -- intros k' [q Hq]. destruct Hcons' as (_ & _ & _ & Hmap').
           apply Hmap' in Hq as [Hq Hhq]. rewrite Hperm, elem_of_app in Hq.
           destruct Hq as [Hq|Hq].
           ++ rewrite lookup_delete_None. right. apply Hsep. exists q. by apply Hcons.
           ++ apply list_elem_of_singleton in Hq as ->.
              unfold OpenList.hash_at in Hhq. rewrite Hnode in Hhq. simpl in Hhq.
              injection Hhq as <-. apply lookup_delete_eq.
      * right. left. exists p, c. split_and!; try done.
        -- apply (Hcontains open' σ Hcons'). exists new_node. split.
           ++ rewrite Hperm, elem_of_app. right. by apply list_elem_of_singleton.
           ++ unfold OpenList.hash_at. by rewrite Hnode.
        -- apply bool_decide_eq_false. simpl. rewrite lookup_delete_eq. by intros [? ?].
    + eexists σ, _. split; [reflexivity|]. simpl. split_and!; [done|done|].
      right. right. exists p, c. by split_and!.
  - (* the state is not on CLOSED *)
    rewrite bool_decide_eq_false_2 by (by intros [? ?]). simpl.
    set (n1 := Node.setCostH n costH).
    set (σ1 := <[new_node := n1]> σ).
    pose proof (lookup_lt_Some _ _ _ Hnode) as Hlt.
    assert (σ1 !! new_node = Some n1) as Hnode1 by (by apply list_lookup_insert_eq).
    assert (forall q, hash_at σ1 q = hash_at σ q) as Hhash1.
    { apply (hash_at_insert compute_hash_ σ new_node n1 n k Hnode); [|done].
      unfold OpenList.hash_at. by rewrite Hnode. }
    assert (OpenList.costs_are_numbers State σ1) as Hnum1 by (by apply Forall_insert).
    assert (OpenList.consistent State compute_hash_ σ1 (open l)) as Hcons1.
    { apply (consistent_store σ σ1); [done| |done].
      intros q Hq. apply list_lookup_insert_ne. by intros ->. }
    destruct (pushOrUpdate_consistent compute_hash_ push_heap pop_heap make_heap Halg
                σ1 (open l) new_node n1 Hnum1 Hcons1 Hnode1)
      as (σ' & open' & inserted & -> & Hnum' & Hcons' & Hiff & Hins & Hupd). simpl.
    assert (OpenList.contains State compute_hash_ (open l) (Node.state n) = negb inserted)
      as Hwas.
    { unfold OpenList.contains. fold k. destruct inserted; simpl.
      - apply bool_decide_eq_false. intros [w Hw]. apply Hcons1 in Hw.
        destruct Hiff as [Hiff _]. apply (Hiff eq_refl). by exists w.
      - apply bool_decide_eq_true.
        destruct (OpenList.nodes_map_ (open l) !! k) as [w|] eqn:Hw; [by eexists|].
        assert (false = true) as Hno; [|done]. apply Hiff. intros (w & Hin & Hhw).
        assert (OpenList.nodes_map_ (open l) !! k = Some w) as Hw' by (by apply Hcons1).
        by rewrite Hw in Hw'. }
    rewrite Hwas.
    destruct inserted; simpl.
    + destruct (Hins eq_refl) as [-> Hperm].
      assert ((40000 <? Z.of_nat (OpenList.size open')) = false) as ->.
      { apply Z.ltb_ge. unfold OpenList.size in *. rewrite Hperm, length_app. simpl. lia. }
      eexists σ1, _. split; [reflexivity|]. simpl. split_and!; [done| |].
      * split_and!; simpl; [done| |].
        -- intros k' q Hq. rewrite Hhash1. by apply Hclosed.
        -- intros k' [q Hq]. destruct Hcons' as (_ & _ & _ & Hmap').
           apply Hmap' in Hq as [Hq Hhq]. rewrite Hperm, elem_of_app in Hq.
           destruct Hq as [Hq|Hq].
           ++ apply Hsep. exists q. apply Hcons. by rewrite <- Hhash1.
           ++ apply list_elem_of_singleton in Hq as ->.
              unfold OpenList.hash_at in Hhq. rewrite Hnode1 in Hhq. simpl in Hhq.
              by injection Hhq as <-.
      * left. split_and!; try done.
        apply (Hcontains open' σ1 Hcons'). exists new_node. split.
        -- rewrite Hperm, elem_of_app. right. by apply list_elem_of_singleton.
        -- unfold OpenList.hash_at. by rewrite Hnode1.
    + destruct (Hupd eq_refl) as (Hperm & w & pw & Hw & Hpw & Hhw & Hσ').
      assert (forall q, hash_at σ' q = hash_at σ q) as Hhash'.
      { intros q. rewrite Hσ'. destruct (SFltb _ _); [|done].
        rewrite (hash_at_insert compute_hash_ σ1 w n1 pw k Hpw); [done| |done].
        unfold OpenList.hash_at. rewrite Hpw. simpl. by rewrite Hhw. }
      eexists σ', _. split; [reflexivity|]. simpl. split_and!; [done| |].
      * split_and!; simpl; [done| |].
        -- intros k' q Hq. rewrite Hhash'. by apply Hclosed.
        -- intros k' [q Hq]. destruct Hcons' as (_ & _ & _ & Hmap').
           apply Hmap' in Hq as [Hq Hhq]. rewrite Hperm in Hq.
           apply Hsep. exists q. apply Hcons. by rewrite <- Hhash'.
      * left. split_and!; try done.
        apply (Hcontains open' σ' Hcons'). exists w. split; [by rewrite Hperm|].
        rewrite Hhash'. rewrite <- Hhash1. unfold OpenList.hash_at. rewrite Hpw. simpl.
        by rewrite Hhw.
Qed.

End AstarFacts.

(** ** The sign of the heuristic, and the goal check *)

Section SignFacts.
Import ComputeCostH.

Lemma not_negative_ltb (X : spec_float) :
  not_negative X <-> SFltb X (S754_zero false) = false.
Proof. by destruct X as [[]|[]| |[] ? ?]. Qed.

Lemma SFmul_not_negative (X Y : spec_float) :
  not_negative X -> not_negative Y -> not_negative (SFmul prec emax X Y).
Proof.
  destruct X as [sx|sx| |sx mx ex], Y as [sy|sy| |sy my ey];
    try (by repeat match goal with s : bool |- _ => destruct s end).
  destruct sx, sy; try done. intros _ _. simpl.
    pose proof (binary_round_aux_sign false (Zpos (mx * my)) (ex + ey) loc_Exact) as Hs.
    change (IntDef.Z.add ex ey) with (ex + ey).
    destruct (binary_round_aux _ _ _ _ _ _) as [s|s| |s ? ?]; try done; by subst s.
Qed.

Lemma SFdiv_not_negative (X Y : spec_float) :
  not_negative X -> positive_double Y -> not_negative (SFdiv prec emax X Y).
Proof.
  destruct X as [sx|sx| |sx mx ex], Y as [sy|sy| |sy my ey];
    try (by repeat match goal with s : bool |- _ => destruct s end).
  destruct sx, sy; try done. intros _ _.
  simpl. destruct (SFdiv_core_binary _ _ _ _ _ _) as [[mz ez] lz].
  pose proof (binary_round_aux_sign false mz ez lz) as Hs.
  destruct (binary_round_aux _ _ _ _ _ _) as [s|s| |s ? ?]; try done; by subst s.
Qed.

Lemma std_max_zero_not_negative (t : float) : not_negative (Prim2SF (std_max 0 t)).
Proof.
  unfold std_max. destruct (PrimFloat.ltb 0 t) eqn:Hlt; [|done].
  rewrite FloatAxioms.ltb_spec in Hlt. change (Prim2SF 0) with (S754_zero false) in Hlt.
  by destruct (Prim2SF t) as [[]|[]| |[] ? ?].
Qed.

Lemma zero_mul_is_zero (p : float) :
  PrimFloat.ltb 0 (0 * p) = false /\ PrimFloat.ltb (0 * p) 0 = false.
Proof.
  rewrite !FloatAxioms.ltb_spec, FloatAxioms.mul_spec.
  change (Prim2SF 0) with (S754_zero false).
  by destruct (Prim2SF p) as [[]|[]| |[] ? ?].
Qed.

End SignFacts.

Section CostMore.
Import ComputeCostH.
Variable calculateJsd : NgramProfile.Heap -> NgramProfile.t -> NgramProfile.t -> float.
Variable NDEBUG : bool.

(** What [call] returns, when it returns. *)
Lemma call_result (h : NgramProfile.Heap) (node : Node.t State.t) (context : Context.t)
    (allowUpdate : bool) (cost : float) (stateMeta : State.MetaData)
    (ctxMeta : Context.MetaData) :
  result (call calculateJsd NDEBUG h node context allowUpdate)
  = Some (cost, stateMeta, ctxMeta) ->
  let jsd := calculateJsd h (State.ngramProfile (Node.state node))
               (Context.targetNgramProfile context) in
  exists goal origJsd,
    Context.goalJSDist (Context.mutableMetaData context) = Some goal
    /\ Context.goalJSDist ctxMeta = Some goal
    /\ stateMeta = {| State.jsd := Some jsd |}
    /\ cost = (std_max 0 (goal - PrimFloat.sqrt (2 * jsd))
               * (to_double (Node.costG node)
                  / std_max 1.0e-6 (PrimFloat.sqrt (2 * jsd) - PrimFloat.sqrt (2 * origJsd))))%float.
Proof.
  intros Hres jsd. unfold call in Hres. fold jsd in Hres.
  destruct (negb _); [done|].
  destruct (Context.originalJsd _) as [stored|]; simpl in Hres;
    destruct (Context.goalJSDist _) as [goal|] eqn:Hgoal; simpl in Hres; try done;
    injection Hres as <- <- <-; eexists goal, _; split_and!; try done.
Qed.

(** X24: the heuristic is never below zero. *)
Theorem costH_not_negative (h : NgramProfile.Heap) (node : Node.t State.t)
    (context : Context.t) (allowUpdate : bool) (cost : float)
    (stateMeta : State.MetaData) (ctxMeta : Context.MetaData) :
  PrimFloat.ltb (to_double (Node.costG node)) 0 = false ->
  result (call calculateJsd NDEBUG h node context allowUpdate)
  = Some (cost, stateMeta, ctxMeta) ->
  PrimFloat.ltb cost 0 = false.
Proof.
  intros Hg Hres.
  destruct (call_result _ _ _ _ _ _ _ Hres) as (goal & origJsd & _ & _ & _ & ->).
  rewrite FloatAxioms.ltb_spec in Hg |- *. change (Prim2SF 0) with (S754_zero false) in *.
  apply not_negative_ltb in Hg. apply not_negative_ltb.
  rewrite FloatAxioms.mul_spec, FloatAxioms.div_spec.
  apply SFmul_not_negative; [apply std_max_zero_not_negative|].
  apply SFdiv_not_negative; [done|]. by apply std_max_positive.
Qed.

(** X25: a node that the goal check accepts has no cost left; a node without
    a parent is never accepted. *)
Theorem goal_has_no_cost_left (σ : list (Node.t State.t)) (h : NgramProfile.Heap)
    (node : Node.t State.t) (context : Context.t) (allowUpdate : bool) (cost : float)
    (stateMeta : State.MetaData) (ctxMeta : Context.MetaData) :
  result (call calculateJsd NDEBUG h node context allowUpdate)
  = Some (cost, stateMeta, ctxMeta) ->
  let context' := {| Context.targetNgramProfile := Context.targetNgramProfile context;
                     Context.mutableMetaData := ctxMeta |} in
  (GoalCheck.call σ (evaluated node stateMeta) context' = Some true ->
   PrimFloat.ltb 0 cost = false /\ PrimFloat.ltb cost 0 = false)
  /\ (Node.parent_ node = None ->
      GoalCheck.call σ (evaluated node stateMeta) context' = Some false).
Proof.
  intros Hres context'.
  destruct (call_result _ _ _ _ _ _ _ Hres) as (goal & origJsd & _ & Hgoal & -> & ->).
  unfold GoalCheck.call, evaluated, Node.depth. simpl. rewrite Hgoal. split.
  - destruct (Node.depth_loop _ _ _ _) as [d|]; simpl; [|done].
    intros [= Hgoalcheck]. apply andb_true_iff in Hgoalcheck as [_ Hle].
    match goal with |- context [std_max 0 ?x] =>
      assert (std_max 0 x = 0%float) as -> by (unfold std_max; by rewrite (sub_not_positive _ _ Hle))
    end.
    apply zero_mul_is_zero.
  - intros ->. by destruct (length σ).
Qed.

End CostMore.

(** ** The positions of an n-gram *)

Section Candidates.
Import ObfuscationOperator.

(** [find] returns the first position at which the needle starts. *)
Lemma find_first (needle : list ascii) :
  forall hay,
    match find hay needle with
    | Some i => needle `prefix_of` drop i hay /\ (i <= length hay)%nat
                /\ forall j, (j < i)%nat -> ~ needle `prefix_of` drop j hay
    | None => forall j, ~ needle `prefix_of` drop j hay
    end.
Proof.
  induction hay as [|a hay IH]; simpl.
  - case_bool_decide as Hpre.
    + split_and!; [done|done|]. lia.
    + intros j. by rewrite drop_nil.
  - case_bool_decide as Hpre.
    + split_and!; [done|lia|]. lia.
    + destruct (find hay needle) as [i|]; simpl.
      * destruct IH as (Hi & Hlen & Hfirst). split_and!; [done|lia|].
        intros [|j] Hj; [done|]. simpl. apply Hfirst. lia.
      * intros [|j]; [done|]. simpl. apply IH.
Qed.

Lemma filter_seq_none (P : nat -> Prop) `{!forall i, Decision (P i)} (start len : nat) :
  (forall i, (start <= i < start + len)%nat -> ~ P i) -> filter P (seq start len) = [].
Proof.
  revert start. induction len as [|len IH]; intros start Hno; [done|].
  simpl. rewrite filter_cons, decide_False by (apply Hno; lia).
  apply IH. intros i Hi. apply Hno. lia.
Qed.

Lemma candidates_loop_all (sourceText ngramStr : list ascii) :
  ngramStr <> [] ->
  forall (fuel lastPos : nat) (acc : list nat),
    (lastPos <= length sourceText)%nat -> (length sourceText - lastPos < fuel)%nat ->
    candidates_loop fuel sourceText ngramStr lastPos acc
    = Some (acc ++ filter (fun i => ngramStr `prefix_of` drop i sourceText)
                     (seq lastPos (length sourceText - lastPos))).
Proof.
  intros Hne. induction fuel as [|fuel IH]; intros lastPos acc Hpos Hfuel; [lia|].
  simpl. unfold find_from.
  assert ((length sourceText <? lastPos)%nat = false) as -> by (apply Nat.ltb_ge; lia).
  pose proof (find_first ngramStr (drop lastPos sourceText)) as Hfind.
  destruct (find (drop lastPos sourceText) ngramStr) as [i|]; simpl.
  - destruct Hfind as (Hi & Hlen & Hfirst). rewrite drop_drop in Hi.
    rewrite length_drop in Hlen.
    assert (lastPos + i < length sourceText)%nat as Hin.
    { destruct (decide (lastPos + i < length sourceText)%nat); [done|].
      rewrite drop_ge in Hi by lia. destruct Hi as [k Hk].
      destruct ngramStr; [done|]. discriminate. }
    rewrite IH by lia. rewrite <- app_assoc. f_equal. symmetry.
    replace (length sourceText - lastPos)%nat
      with (i + S (length sourceText - (lastPos + i + 1)))%nat by lia.
    rewrite seq_app, filter_app.
    rewrite filter_seq_none.
    + simpl. rewrite filter_cons, decide_True by done.
      by replace (lastPos + i + 1)%nat with (S (lastPos + i)) by lia.
    + intros j Hj. replace j with (lastPos + (j - lastPos))%nat by lia.
      rewrite <- drop_drop. apply Hfirst. lia.
  - f_equal. rewrite filter_seq_none; [by rewrite app_nil_r|].
    intros j Hj. replace j with (lastPos + (j - lastPos))%nat by lia.
    rewrite <- drop_drop. apply Hfind.
Qed.

(** X26: the positions collected for an n-gram are all the places, in
    ascending order, where its three characters stand in the text. *)
Theorem candidates_are_all_occurrences (sourceText : list ascii) (ngram : Z) :
  candidates sourceText ngram
  = Some (filter (fun i => take ORDER (NgramProfile.ngram2Char ngram)
                             `prefix_of` drop i sourceText)
            (seq 0 (length sourceText))).
Proof.
  unfold candidates. rewrite candidates_loop_all; [|done|lia|lia].
  by rewrite Nat.sub_0_r.
Qed.

End Candidates.

(** ** Double-length sums *)

Section DekkerFacts.
Import dekker.

Lemma SFadd_comm (X Y : spec_float) : SFadd prec emax X Y = SFadd prec emax Y X.
Proof.
  destruct X as [sx|sx| |sx mx ex], Y as [sy|sy| |sy my ey]; try done.
  - by destruct sx, sy.
  - by destruct sx, sy.
  - simpl. change (IntDef.Z.min ex ey) with (Z.min ex ey).
    change (IntDef.Z.min ey ex) with (Z.min ey ex).
    change IntDef.Z.add with Z.add.
    by rewrite Z.min_comm, Z.add_comm.
Qed.

Lemma float_add_comm (x y : float) : (x + y)%float = (y + x)%float.
Proof. apply Prim2SF_inj. rewrite !FloatAxioms.add_spec. apply SFadd_comm. Qed.

Lemma float_ltb_asym (x y : float) : PrimFloat.ltb x y = true -> PrimFloat.ltb y x = false.
Proof. rewrite !FloatAxioms.ltb_spec. apply SFltb_asym. Qed.

(** X30: the sum does not depend on the order of its operands when their
    high parts differ in magnitude. *)
Theorem add_commutes (a b : Double) :
  PrimFloat.ltb (abs (hi a)) (abs (hi b)) = true
  \/ PrimFloat.ltb (abs (hi b)) (abs (hi a)) = true ->
  add a b = add b a.
Proof.
  intros Hne. unfold add. rewrite (float_add_comm (hi b) (hi a)).
  destruct Hne as [Hlt|Hlt]; rewrite Hlt, (float_ltb_asym _ _ Hlt); done.
Qed.

Lemma sub_self (x : float) (s : bool) (m : positive) (e : Z) :
  Prim2SF x = S754_finite s m e -> (x - x)%float = 0%float.
Proof.
  intros Hx. apply Prim2SF_inj. rewrite FloatAxioms.sub_spec, Hx.
  change (Prim2SF 0) with (S754_zero false). simpl.
  change IntDef.Z.sub with Z.sub. by rewrite Z.sub_diag.
Qed.

Lemma add_zero_r (x : float) (s : bool) (m : positive) (e : Z) :
  Prim2SF x = S754_finite s m e -> (x + 0)%float = x.
Proof.
  intros Hx. apply Prim2SF_inj. rewrite FloatAxioms.add_spec, Hx.
  by change (Prim2SF 0) with (S754_zero false).
Qed.

Lemma zero_below_abs (x : float) (s : bool) (m : positive) (e : Z) :
  Prim2SF x = S754_finite s m e ->
  PrimFloat.ltb (abs 0) (abs x) = true /\ PrimFloat.ltb (abs x) (abs 0) = false.
Proof.
  intros Hx. rewrite !FloatAxioms.ltb_spec, !FloatAxioms.abs_spec, Hx.
  by change (Prim2SF 0) with (S754_zero false).
Qed.

(** X29: adding nothing to a finite value, from either side, leaves the
    value with an empty low part; adding nothing to an infinite value
    leaves no number. *)
Theorem add_zero (x : float) (s : bool) (m : positive) (e : Z) :
  Prim2SF x = S754_finite s m e ->
  add (ctor x) zero = ctor x /\ add zero (ctor x) = ctor x
  /\ Prim2SF (to_T (add (ctor infinity) zero)) = S754_nan
  /\ Prim2SF (to_T (add zero (ctor infinity))) = S754_nan.
Proof.
  intros Hx. destruct (zero_below_abs x s m e Hx) as [Hlt Hge].
  pose proof (sub_self x s m e Hx) as Hsub.
  pose proof (add_zero_r x s m e Hx) as Hadd.
  assert ((0 + 0)%float = 0%float) as H00 by (by vm_compute).
  split_and!.
  - unfold add, ctor, zero. cbn [hi lo]. rewrite Hlt, !Hadd, Hsub, !H00, Hadd, Hsub, H00. done.
  - unfold add, ctor, zero. cbn [hi lo].
    rewrite Hge, (float_add_comm 0 x), !Hadd, Hsub, !H00, Hadd, Hsub, H00. done.
  - by vm_compute.
  - by vm_compute.
Qed.

End DekkerFacts.

(** ** The properties above on the small inputs *)

Lemma ngram2Char_char2Ngram_witness :
  NgramProfile.ngram2Char (NgramProfile.char2Ngram (chars "abcd")) = chars "abcd"
  /\ NgramProfile.char2Ngram (NgramProfile.ngram2Char 1684234849) = 1684234849.
Proof.
  apply (ngram2Char_char2Ngram (chars "abcd") 1684234849).
  - reflexivity.
  - unfold NgramProfile.Ngram_max. lia.
Defined.

Lemma ngramFromStringRange_decodes_witness :
  take NgramProfile.ORDER
    (NgramProfile.ngram2Char (NgramProfile.ngramFromStringRange Fixtures.a_newline_b))
  = chars "a b"
  /\ 0 <= NgramProfile.ngramFromStringRange Fixtures.a_newline_b < 2 ^ 24
  /\ NgramProfile.ngramFromStringRange Fixtures.a_newline_b <> NgramProfile.Ngram_max.
Proof.
  apply (ngramFromStringRange_decodes Fixtures.a_newline_b). reflexivity.
Defined.

Lemma freq_follows_plain_map_witness :
  Fixtures.then_freq (Fixtures.key "abd")
    (NgramProfile.run_ops false Fixtures.shared_heap Fixtures.original Fixtures.plain_ops)
  = Some (NgramProfile.count
            (NgramProfile.plain_update Fixtures.original_counts
               (concat (NgramProfile.deltas_of <$> Fixtures.plain_ops)))
            (Fixtures.key "abd")).
Proof.
  destruct (NgramProfile.run_ops false Fixtures.shared_heap Fixtures.original
              Fixtures.plain_ops) as [[h' p']|] eqn:Hrun; [|by vm_compute in Hrun].
  simpl.
  apply (freq_follows_plain_map false Fixtures.shared_heap h' Fixtures.original p'
           Fixtures.original_counts Fixtures.plain_ops).
  - apply original_well_formed.
  - vm_compute. reflexivity.
  - exact Hrun.
Defined.

Lemma n_is_total_count_witness :
  exists m',
    NgramProfile.effective Fixtures.after_original_ops.1 Fixtures.after_original_ops.2
    = Some m'
    /\ NgramProfile.n Fixtures.after_original_ops.2 = to_size_t (NgramProfile.total m').
Proof.
  apply (n_is_total_count id id false [] Fixtures.shared_heap Fixtures.after_original_ops.1
           NgramProfile.empty Fixtures.original Fixtures.after_original_ops.2
           (chars "abcabc") (chars "abcabc") NgramProfile.SKIP_NORMALIZATION
           Fixtures.original_ops).
  - vm_compute. reflexivity.
  - vm_compute. reflexivity.
  - vm_compute. reflexivity.
Defined.

Lemma apply_keeps_reads_witness :
  exists h' p',
    NgramProfile.apply Fixtures.pending.1 Fixtures.pending.2 = Some (h', p')
    /\ (forall k, NgramProfile.freq h' p' k
                  = NgramProfile.freq Fixtures.pending.1 Fixtures.pending.2 k)
    /\ NgramProfile.n p' = NgramProfile.n Fixtures.pending.2
    /\ NgramProfile.size p' = NgramProfile.size Fixtures.pending.2
    /\ NgramProfile.lastUpdates p' = NgramProfile.lastUpdates Fixtures.pending.2
    /\ NgramProfile.logSize p' = 0
    /\ (forall m, NgramProfile.well_formed Fixtures.pending.1 Fixtures.pending.2 ->
        NgramProfile.effective Fixtures.pending.1 Fixtures.pending.2 = Some m ->
        NgramProfile.iterate h' p' = Some (NgramProfile.nonzero_entries m)).
Proof.
  apply (apply_keeps_reads Fixtures.pending.1 Fixtures.pending.2).
  vm_compute. eauto.
Defined.

Lemma update_bookkeeping_witness :
  NgramProfile.lastUpdates Fixtures.pending.2 = [(Fixtures.key "xyz", 2)]
  /\ 0 <= NgramProfile.logSize Fixtures.pending.2 <= 150.
Proof.
  apply (update_bookkeeping false Fixtures.shared_heap Fixtures.pending.1
           Fixtures.original Fixtures.pending.2 [(Fixtures.key "xyz", 2)]).
  vm_compute. reflexivity.
Defined.

Lemma pending_well_formed :
  NgramProfile.well_formed Fixtures.pending.1 Fixtures.pending.2.
Proof.
  destruct original_well_formed as (b & Hb & Hnz). exists b. by split.
Qed.

(** The archive here is the pair of values itself. *)
Lemma load_save_witness :
  exists file,
    NgramProfile.save _ id Fixtures.pending.1 Fixtures.pending.2 = Some file
    /\ (forall k, NgramProfile.freq (NgramProfile.load _ id [] file).1
                    (NgramProfile.load _ id [] file).2 k
                  = NgramProfile.freq Fixtures.pending.1 Fixtures.pending.2 k)
    /\ NgramProfile.n (NgramProfile.load _ id [] file).2
       = NgramProfile.n Fixtures.pending.2
    /\ Some (NgramProfile.size (NgramProfile.load _ id [] file).2)
       = NgramProfile.distinct_nonzero Fixtures.pending.1 Fixtures.pending.2
    /\ NgramProfile.logSize (NgramProfile.load _ id [] file).2 = 0
    /\ NgramProfile.iterate (NgramProfile.load _ id [] file).1
         (NgramProfile.load _ id [] file).2
       = Some (NgramProfile.nonzero_entries
                 (<[Fixtures.key "xyz" := 2]> Fixtures.original_counts))
    /\ (forall h1 p1,
          NgramProfile.apply Fixtures.pending.1 Fixtures.pending.2 = Some (h1, p1) ->
          NgramProfile.iterate (NgramProfile.load _ id [] file).1
            (NgramProfile.load _ id [] file).2
          = NgramProfile.iterate h1 p1).
Proof.
  apply (load_save id id Fixtures.pending.1 [] Fixtures.pending.2
           (<[Fixtures.key "xyz" := 2]> Fixtures.original_counts)).
  - done.
  - apply pending_well_formed.
  - vm_compute. reflexivity.
Defined.

Lemma edit_splices_witness :
  exists d',
    DiffString.edit Fixtures.toy_digest false
      (DiffString.ctor Fixtures.toy_digest (chars "hello world"))
      (DiffString.Edit_ctor 0 5 (chars "howdy")) = Some d'
    /\ DiffString.string false d' = Some (chars "howdy world")
    /\ DiffString.hashValue d'
       = DiffString.updateHash Fixtures.toy_digest (chars "howdy world")
    /\ DiffString.source d' = chars "hello world"
    /\ DiffString.logSize d' = 0 + 1.
Proof.
  apply (edit_splices Fixtures.toy_digest false
           (DiffString.ctor Fixtures.toy_digest (chars "hello world"))
           (chars "hello world") (chars "howdy") 0 5).
  - vm_compute. reflexivity.
  - simpl. lia.
  - simpl. lia.
  - lia.
  - simpl. lia.
Defined.

Lemma edit_out_of_range_witness :
  DiffString.edit Fixtures.toy_digest false
    (DiffString.ctor Fixtures.toy_digest (chars "hello world"))
    (DiffString.Edit_ctor 11 0 (chars "!")) = None
  /\ DiffString.string false
       (DiffString.edit_with_text Fixtures.toy_digest
          (DiffString.ctor Fixtures.toy_digest (chars "hello world"))
          (DiffString.Edit_ctor 11 0 (chars "!")) (chars "hello world")) = None.
Proof.
  apply (edit_out_of_range Fixtures.toy_digest false
           (DiffString.ctor Fixtures.toy_digest (chars "hello world"))
           (chars "hello world") (DiffString.Edit_ctor 11 0 (chars "!"))).
  - vm_compute. reflexivity.
  - vm_compute. discriminate.
Defined.

Lemma apply_is_invisible_witness :
  exists d2,
    DiffString.run_ops Fixtures.toy_digest false
      (DiffString.ctor Fixtures.toy_digest (chars "hello world"))
      (filter (fun o => DiffString.is_apply o = false) Fixtures.hello_ops) = Some d2
    /\ DiffString.string false Fixtures.hello = DiffString.string false d2
    /\ DiffString.hashValue Fixtures.hello = DiffString.hashValue d2
    /\ (forall d1', DiffString.apply false Fixtures.hello = Some d1' ->
        DiffString.string false d1' = DiffString.string false d2
        /\ DiffString.logSize d1' = 0).
Proof.
  apply (apply_is_invisible Fixtures.toy_digest false
           (DiffString.ctor Fixtures.toy_digest (chars "hello world"))
           Fixtures.hello Fixtures.hello_ops).
  vm_compute. reflexivity.
Defined.

Lemma setText_hashes_given_text_witness :
  let a := (State.setText Fixtures.toy_digest Fixtures.drop_cr id []
              Fixtures.blank_state Fixtures.dos_text 0).2 in
  let b := (State.setText Fixtures.toy_digest Fixtures.drop_cr id []
              Fixtures.blank_state Fixtures.unix_text 0).2 in
  DiffString.string false (State.text a) = Some Fixtures.unix_text
  /\ State.hashValue a = Fixtures.toy_digest Fixtures.dos_text
  /\ State.eqb false a b = Some true
  /\ State.hashValue a <> State.hashValue b.
Proof.
  apply (setText_hashes_given_text Fixtures.toy_digest toy_digest_length false
           Fixtures.drop_cr id [] [] Fixtures.blank_state Fixtures.blank_state
           Fixtures.dos_text Fixtures.unix_text 0).
  - vm_compute. reflexivity.
  - vm_compute. discriminate.
Defined.

Lemma path_store_parents_first : Node.parents_first Fixtures.path_store.
Proof.
  intros i n p Hi Hp. destruct i as [|[|[|i]]]; simpl in Hi; try done;
    injection Hi as <-; simpl in Hp; try done; injection Hp as <-; lia.
Qed.

Lemma depth_counts_opcodes_witness :
  exists opcodes,
    Node.getOpcodesStartingFromRoot Fixtures.path_store
      (Node.mk "t"%string (Fixtures.f32 2) (Fixtures.f32 0) 5 (Some 1%nat)) = Some opcodes
    /\ Node.depth Fixtures.path_store
         (Node.mk "t"%string (Fixtures.f32 2) (Fixtures.f32 0) 5 (Some 1%nat))
       = Some (Z.of_nat (length opcodes))
    /\ (Some 1%nat = None <-> opcodes = []).
Proof.
  apply (depth_counts_opcodes Fixtures.path_store 2
           (Node.mk "t"%string (Fixtures.f32 2) (Fixtures.f32 0) 5 (Some 1%nat))).
  - apply path_store_parents_first.
  - reflexivity.
  - vm_compute. reflexivity.
Defined.

Lemma child_extends_parent_witness :
  exists child d opcodes,
    Node.ctor Fixtures.path_store "u"%string 2 7 (Fixtures.f32 1) = Some child
    /\ Node.depth Fixtures.path_store
         (Node.mk "t"%string (Fixtures.f32 2) (Fixtures.f32 0) 5 (Some 1%nat)) = Some d
    /\ Node.depth Fixtures.path_store child = Some (d + 1)
    /\ Node.getOpcodesStartingFromRoot Fixtures.path_store
         (Node.mk "t"%string (Fixtures.f32 2) (Fixtures.f32 0) 5 (Some 1%nat)) = Some opcodes
    /\ Node.getOpcodesStartingFromRoot Fixtures.path_store child = Some (opcodes ++ [7])
    /\ Node.costG child = Node.float32_add (Fixtures.f32 2) (Fixtures.f32 1)
    /\ Node.costH child = S754_zero false.
Proof.
  apply (child_extends_parent Fixtures.path_store "u"%string 2
           (Node.mk "t"%string (Fixtures.f32 2) (Fixtures.f32 0) 5 (Some 1%nat))
           7 (Fixtures.f32 1)).
  - apply path_store_parents_first.
  - reflexivity.
  - vm_compute. reflexivity.
Defined.

Lemma open_store_numbers : OpenList.costs_are_numbers string Fixtures.open_store.
Proof.
  unfold OpenList.costs_are_numbers, Fixtures.open_store.
  repeat constructor; vm_compute; discriminate.
Qed.

Lemma size_empty_contains_agree_witness :
  OpenList.size Fixtures.open_after.2
  = stdpp.base.size (OpenList.nodes_map_ Fixtures.open_after.2)
  /\ (OpenList.empty Fixtures.open_after.2 = true
      <-> OpenList.size Fixtures.open_after.2 = 0%nat)
  /\ (forall state,
        OpenList.contains string id Fixtures.open_after.2 state = true
        <-> exists p n, p ∈ OpenList.nodes_heap_ Fixtures.open_after.2
                        /\ Fixtures.open_after.1 !! p = Some n
                        /\ id (Node.state n) = id state).
Proof.
  apply (size_empty_contains_agree id
           OpenList.sorting_push_heap OpenList.sorting_pop_heap OpenList.sorting_make_heap
           sorting_heap_algorithms
           Fixtures.open_store Fixtures.open_after.1 Fixtures.open_after.2
           Fixtures.open_calls).
  - apply open_store_numbers.
  - vm_compute. reflexivity.
Defined.

Lemma clear_keeps_cheapest_witness :
  exists ol' dropped,
    OpenList.clear string id OpenList.sorting_pop_heap OpenList.sorting_make_heap
      Fixtures.open_after.1 Fixtures.open_after.2 2 = Some ol'
    /\ OpenList.size ol' = 2%nat
    /\ OpenList.nodes_heap_ Fixtures.open_after.2 ≡ₚ OpenList.nodes_heap_ ol' ++ dropped
    /\ (forall v w, v ∈ OpenList.nodes_heap_ ol' -> w ∈ dropped ->
                    OpenList.costF_le string Fixtures.open_after.1 v w)
    /\ OpenList.consistent string id Fixtures.open_after.1 ol'.
Proof.
  apply (clear_keeps_cheapest id
           OpenList.sorting_push_heap OpenList.sorting_pop_heap OpenList.sorting_make_heap
           sorting_heap_algorithms
           Fixtures.open_store Fixtures.open_after.1 Fixtures.open_after.2
           Fixtures.open_calls 2).
  - apply open_store_numbers.
  - vm_compute. reflexivity.
  - vm_compute. lia.
Defined.

Lemma pops_come_in_order_witness :
  OpenList.costF_le string Fixtures.open_after.1 Fixtures.first_pop.2 Fixtures.second_pop.2
  /\ Fixtures.first_pop.2 <> Fixtures.second_pop.2
  /\ OpenList.nodes_heap_ Fixtures.open_after.2
     ≡ₚ Fixtures.first_pop.2 :: Fixtures.second_pop.2
        :: OpenList.nodes_heap_ Fixtures.second_pop.1.
Proof.
  apply (pops_come_in_order id
           OpenList.sorting_push_heap OpenList.sorting_pop_heap OpenList.sorting_make_heap
           sorting_heap_algorithms
           Fixtures.open_store Fixtures.open_after.1 Fixtures.open_after.2
           Fixtures.first_pop.1 Fixtures.second_pop.1 Fixtures.open_calls).
  - apply open_store_numbers.
  - vm_compute. reflexivity.
  - vm_compute. reflexivity.
  - vm_compute. reflexivity.
Defined.

Lemma put_get_pop_witness :
  exists cl' inserted cl'',
    ClosedList.put string id Fixtures.open_store ClosedList.empty_list 0
    = Some (cl', inserted)
    /\ ClosedList.pop string id Fixtures.open_store cl' 0 = Some cl''
    /\ (inserted = true
        <-> ClosedList.contains string id ClosedList.empty_list "a"%string = false)
    /\ ClosedList.get string id cl' "a"%string
       = (if inserted then Some 0%nat
          else ClosedList.get string id ClosedList.empty_list "a"%string)
    /\ ClosedList.size cl'
       = (if inserted then S (ClosedList.size ClosedList.empty_list)
          else ClosedList.size ClosedList.empty_list)
    /\ ClosedList.contains string id cl'' "a"%string = false
    /\ (forall state, id state <> id "a"%string ->
        ClosedList.get string id cl' state
        = ClosedList.get string id ClosedList.empty_list state
        /\ ClosedList.get string id cl'' state
           = ClosedList.get string id ClosedList.empty_list state).
Proof.
  apply (put_get_pop id Fixtures.open_store ClosedList.empty_list 0
           (Fixtures.node "a" 3 5)).
  reflexivity.
Defined.

Lemma first_put_wins_witness :
  exists cl,
    ClosedList.puts string id Fixtures.open_store ClosedList.empty_list [0; 1; 2; 3]%nat
    = Some cl
    /\ ClosedList.get string id cl "a"%string
       = head (filter (fun p => OpenList.hash_at string id Fixtures.open_store p
                                = Some (id "a"%string)) [0; 1; 2; 3]%nat).
Proof.
  apply (first_put_wins id Fixtures.open_store [0; 1; 2; 3]%nat "a"%string).
  repeat (constructor; [by eexists|]). constructor.
Defined.

Lemma clear_range_keeps_ancestors_witness :
  (Forall (fun k => forall i n, k = Some i -> Fixtures.path_store !! i = Some n ->
                                is_Some (Node.parent_ n)) [Some 2%nat; None; Some 1%nat] ->
   exists cl',
     ClosedList.clear_range string id Fixtures.path_store ClosedList.empty_list
       [Some 2%nat; None; Some 1%nat] = Some cl'
     /\ forall state,
          ClosedList.contains string id cl' state = true
          <-> exists i n a,
                Some i ∈ [Some 2%nat; None; Some 1%nat]
                /\ Fixtures.path_store !! i = Some n
                /\ a ∈ Node.ancestors (length Fixtures.path_store) Fixtures.path_store
                         (Node.parent_ n)
                /\ id (Node.state a) = id state)
  /\ (forall i n, Some i ∈ [Some 2%nat; None; Some 1%nat] ->
      Fixtures.path_store !! i = Some n -> Node.parent_ n = None ->
      ClosedList.clear_range string id Fixtures.path_store ClosedList.empty_list
        [Some 2%nat; None; Some 1%nat] = None).
Proof.
  apply (clear_range_keeps_ancestors id Fixtures.path_store ClosedList.empty_list
           [Some 2%nat; None; Some 1%nat]).
  - apply path_store_parents_first.
  - repeat constructor; intros i [= <-]; by eexists.
Defined.

Lemma costH_not_negative_witness :
  exists cost stateMeta ctxMeta,
    ComputeCostH.result
      (ComputeCostH.call (Fixtures.jsd_is 0.25) false [] Fixtures.child_node
         Fixtures.fresh_context true) = Some (cost, stateMeta, ctxMeta)
    /\ PrimFloat.ltb cost 0 = false.
Proof.
  destruct (ComputeCostH.result
              (ComputeCostH.call (Fixtures.jsd_is 0.25) false [] Fixtures.child_node
                 Fixtures.fresh_context true)) as [[[cost sm] cm]|] eqn:Hres;
    [|by vm_compute in Hres].
  exists cost, sm, cm. split; [done|].
  apply (costH_not_negative (Fixtures.jsd_is 0.25) false [] Fixtures.child_node
           Fixtures.fresh_context true cost sm cm).
  - vm_compute. reflexivity.
  - exact Hres.
Defined.

Lemma goal_has_no_cost_left_witness :
  exists cost stateMeta ctxMeta,
    ComputeCostH.result
      (ComputeCostH.call (Fixtures.jsd_is 0.8) false [] Fixtures.child_node
         Fixtures.fresh_context true) = Some (cost, stateMeta, ctxMeta)
    /\ GoalCheck.call Fixtures.search_store
         (ComputeCostH.evaluated Fixtures.child_node stateMeta)
         {| Context.targetNgramProfile := Context.targetNgramProfile Fixtures.fresh_context;
            Context.mutableMetaData := ctxMeta |} = Some true
    /\ PrimFloat.ltb 0 cost = false /\ PrimFloat.ltb cost 0 = false.
Proof.
  destruct (ComputeCostH.result
              (ComputeCostH.call (Fixtures.jsd_is 0.8) false [] Fixtures.child_node
                 Fixtures.fresh_context true)) as [[[cost sm] cm]|] eqn:Hres;
    [|by vm_compute in Hres].
  exists cost, sm, cm. split; [done|].
  assert (GoalCheck.call Fixtures.search_store
            (ComputeCostH.evaluated Fixtures.child_node sm)
            {| Context.targetNgramProfile :=
                 Context.targetNgramProfile Fixtures.fresh_context;
               Context.mutableMetaData := cm |} = Some true) as Hgoal.
  { vm_compute in Hres. injection Hres as <- <- <-. vm_compute. reflexivity. }
  split; [exact Hgoal|].
  destruct (goal_has_no_cost_left (Fixtures.jsd_is 0.8) false Fixtures.search_store []
              Fixtures.child_node Fixtures.fresh_context true cost sm cm Hres)
    as [Hzero _].
  exact (Hzero Hgoal).
Defined.

Lemma open_lists_separate :
  OpenList.costs_are_numbers string Fixtures.open_after.1
  /\ AstarSearch.separate string id Fixtures.open_after.1 Fixtures.open_lists.
Proof.
  destruct (run_consistent id
              OpenList.sorting_push_heap OpenList.sorting_pop_heap OpenList.sorting_make_heap
              sorting_heap_algorithms Fixtures.open_calls
              Fixtures.open_store Fixtures.open_after.1 OpenList.empty_list
              Fixtures.open_after.2 open_store_numbers (consistent_empty id _))
    as [Hnum Hcons]; [vm_compute; reflexivity|].
  split; [done|]. split_and!; [done| |].
  - intros k p. simpl. by rewrite lookup_empty.
  - intros k _. simpl. apply lookup_empty.
Qed.

Lemma expand_keeps_separate_witness :
  exists l' node n,
    AstarSearch.expand string id OpenList.sorting_pop_heap Fixtures.open_after.1
      Fixtures.open_lists = Some (l', node)
    /\ AstarSearch.separate string id Fixtures.open_after.1 l'
    /\ Fixtures.open_after.1 !! node = Some n
    /\ ClosedList.get string id (AstarSearch.closed l') (Node.state n) = Some node
    /\ OpenList.contains string id (AstarSearch.open l') (Node.state n) = false
    /\ (forall w, w ∈ OpenList.nodes_heap_ (AstarSearch.open l') ->
                  OpenList.costF_le string Fixtures.open_after.1 node w).
Proof.
  apply (expand_keeps_separate id
           OpenList.sorting_push_heap OpenList.sorting_pop_heap OpenList.sorting_make_heap
           sorting_heap_algorithms Fixtures.open_after.1 Fixtures.open_lists).
  - apply open_lists_separate.
  - apply open_lists_separate.
  - vm_compute. discriminate.
Defined.

Lemma visit_keeps_separate_witness :
  exists σ' l',
    AstarSearch.visit string id
      OpenList.sorting_push_heap OpenList.sorting_pop_heap OpenList.sorting_make_heap
      64 Fixtures.open_after.1 Fixtures.open_lists 2 (Fixtures.f32 0) = Some (σ', l')
    /\ OpenList.costs_are_numbers string σ'
    /\ AstarSearch.separate string id σ' l'
    /\ ((ClosedList.get string id (AstarSearch.closed Fixtures.open_lists) "a"%string = None
         /\ OpenList.contains string id (AstarSearch.open l') "a"%string = true
         /\ AstarSearch.closed l' = AstarSearch.closed Fixtures.open_lists
         /\ AstarSearch.num_reopened_states l'
            = AstarSearch.num_reopened_states Fixtures.open_lists
         /\ AstarSearch.num_duplicated_states l'
            = (if OpenList.contains string id (AstarSearch.open Fixtures.open_lists)
                    "a"%string
               then AstarSearch.to_uint_fast32 64
                      (AstarSearch.num_duplicated_states Fixtures.open_lists + 1)
               else AstarSearch.num_duplicated_states Fixtures.open_lists))
        \/ (exists closedNode c,
              ClosedList.get string id (AstarSearch.closed Fixtures.open_lists) "a"%string
              = Some closedNode
              /\ Fixtures.open_after.1 !! closedNode = Some c
              /\ SFltb (Fixtures.f32 1) (Node.costG c) = true
              /\ OpenList.contains string id (AstarSearch.open l') "a"%string = true
              /\ ClosedList.contains string id (AstarSearch.closed l') "a"%string = false
              /\ AstarSearch.num_reopened_states l'
                 = AstarSearch.to_uint_fast32 64
                     (AstarSearch.num_reopened_states Fixtures.open_lists + 1)
              /\ AstarSearch.num_duplicated_states l'
                 = AstarSearch.num_duplicated_states Fixtures.open_lists)
        \/ (exists closedNode c,
              ClosedList.get string id (AstarSearch.closed Fixtures.open_lists) "a"%string
              = Some closedNode
              /\ Fixtures.open_after.1 !! closedNode = Some c
              /\ SFltb (Fixtures.f32 1) (Node.costG c) = false
              /\ σ' = Fixtures.open_after.1
              /\ AstarSearch.open l' = AstarSearch.open Fixtures.open_lists
              /\ AstarSearch.closed l' = AstarSearch.closed Fixtures.open_lists
              /\ AstarSearch.num_reopened_states l'
                 = AstarSearch.num_reopened_states Fixtures.open_lists
              /\ AstarSearch.num_duplicated_states l'
                 = AstarSearch.to_uint_fast32 64
                     (AstarSearch.num_duplicated_states Fixtures.open_lists + 1))).
Proof.
  apply (visit_keeps_separate id
           OpenList.sorting_push_heap OpenList.sorting_pop_heap OpenList.sorting_make_heap
           sorting_heap_algorithms 64 Fixtures.open_after.1 Fixtures.open_lists 2
           (Fixtures.node "a" 1 1) (Fixtures.f32 0)).
  - apply open_lists_separate.
  - apply open_lists_separate.
  - vm_compute. reflexivity.
  - apply (bool_decide_unpack
             (2%nat ∉ OpenList.nodes_heap_ (AstarSearch.open Fixtures.open_lists))).
    vm_compute. exact I.
  - vm_compute. discriminate.
  - vm_compute. reflexivity.
Defined.

Lemma add_zero_witness :
  dekker.add (dekker.ctor 1.5) dekker.zero = dekker.ctor 1.5
  /\ dekker.add dekker.zero (dekker.ctor 1.5) = dekker.ctor 1.5
  /\ Prim2SF (dekker.to_T (dekker.add (dekker.ctor infinity) dekker.zero)) = S754_nan
  /\ Prim2SF (dekker.to_T (dekker.add dekker.zero (dekker.ctor infinity))) = S754_nan.
Proof.
  eapply (add_zero 1.5). vm_compute. reflexivity.
Defined.

Lemma add_commutes_witness :
  dekker.add (dekker.ctor 1) (dekker.ctor 2) = dekker.add (dekker.ctor 2) (dekker.ctor 1).
Proof.
  apply (add_commutes (dekker.ctor 1) (dekker.ctor 2)).
  left. vm_compute. reflexivity.
Defined.

(** The places of "aba" in "abababa" overlap. *)
Example candidates_overlap :
  ObfuscationOperator.candidates (chars "abababa") (Fixtures.key "aba")
  = Some [0; 2; 4]%nat.
Proof. vm_compute. reflexivity. Qed.
